(** * Decision-and-lifecycle core of the SMC trading bot

    A shallow embedding of [backend/smc_strategy.py] (pattern detectors,
    signal fusion, risk sizing) and of the trade ledger kept by
    [backend/app.py] (order fill, reconciliation, status), with the
    properties the specification states about them.

    Numbers are the program's own: every price, balance and ratio is an
    IEEE-754 binary64 value ([PrimFloat.float], what a Python [float] and a
    numpy [float64] are), counters are unbounded integers ([Z]). *)

Set Warnings "-inexact-float".
From Stdlib Require Import ZArith Floats Lia DecimalString DecimalZ DecimalPos.
From stdpp Require Import base option list strings.

Local Open Scope Z_scope.
Local Open Scope list_scope.

(** ** The Python runtime the code relies on *)

Module Py.

(** Exceptions the modelled code can raise. *)
Inductive exn : Type :=
| IndexError
| ZeroDivisionError
| OverflowError.

(** A computation either returns a value or raises. *)
Inductive outcome (A : Type) : Type :=
| Ok (a : A)
| Raise (e : exn).
Arguments Ok {A} a.
Arguments Raise {A} e.

#[export] Instance outcome_ret : MRet outcome := fun A a => Ok a.
#[export] Instance outcome_bind : MBind outcome := fun A B k m =>
  match m with
  | Ok a => k a
  | Raise e => Raise e
  end.

(** [x > y], [x >= y], [x < y] on floats: false as soon as one side is NaN. *)
Definition gt (x y : float) : bool := PrimFloat.ltb y x.
Definition ge (x y : float) : bool := PrimFloat.leb y x.
Definition lt (x y : float) : bool := PrimFloat.ltb x y.

(** The builtin [min(a, b)]: [b] replaces [a] only when [b < a]. *)
Definition min (a b : float) : float := if lt b a then b else a.

(** [x / y] on Python floats raises on a zero divisor. *)
Definition truediv (x y : float) : outcome float :=
  if PrimFloat.eqb y 0%float then Raise ZeroDivisionError
  else Ok (PrimFloat.div x y).

(** [for i in range(a, b): s = body(i, s)], stopping at the first raise. *)
Fixpoint for_each {S : Type} (body : nat -> S -> outcome S)
    (idx : list nat) (s : S) : outcome S :=
  match idx with
  | [] => Ok s
  | i :: rest =>
      match body i s with
      | Ok s' => for_each body rest s'
      | Raise e => Raise e
      end
  end.

Definition range (a b : nat) : list nat := seq a (b - a).

Definition for_range {S : Type} (a b : nat)
    (body : nat -> S -> outcome S) (s : S) : outcome S :=
  for_each body (range a b) s.

(** The slice [l[lo:hi]] for [0 <= lo], [0 <= hi]. *)
Definition slice {A} (lo hi : nat) (l : list A) : list A :=
  take (hi - lo) (drop lo l).

(** The slice [l[-n:]]. *)
Definition last_n {A} (n : nat) (l : list A) : list A :=
  drop (length l - n) l.

End Py.
Export Py.

(** ** The candle frame *)

(** One row of the frame built from
    [columns=['time','open','high','low','close','volume']]; the five price
    and volume columns are cast to float, [time] stays what the exchange
    sent (an epoch). *)
Record candle : Type := Candle {
  time : Z;
  open : float;
  high : float;
  low : float;
  close : float;
  volume : float
}.

Abbreviation frame := (list candle).

(** [df[col].iloc[i]] for [0 <= i]: raises past the end of the frame. *)
Definition iloc {A} (col : candle -> A) (df : frame) (i : nat) : outcome A :=
  match df !! i with
  | Some c => Ok (col c)
  | None => Raise IndexError
  end.

(** [series.max()] and [series.min()] of pandas: NaN entries are skipped, an
    empty or all-NaN series gives NaN. *)
Definition series_max (l : list float) : float :=
  fold_left (fun acc x =>
    if PrimFloat.is_nan acc then x
    else if PrimFloat.ltb acc x then x else acc) l PrimFloat.nan.

Definition series_min (l : list float) : float :=
  fold_left (fun acc x =>
    if PrimFloat.is_nan acc then x
    else if PrimFloat.ltb x acc then x else acc) l PrimFloat.nan.

(** ** smc_strategy.py *)

Module SMCStrategy.

Inductive ob_type : Type := BULLISH | BEARISH.

Record order_block : Type := OrderBlock {
  ob_kind : ob_type;
  ob_high : float;
  ob_low : float;
  ob_time : Z;
  ob_confirmed : bool
}.

Inductive choch_type : Type := BULLISH_CHOCH | BEARISH_CHOCH.

Record choch_point : Type := ChochPoint {
  ch_kind : choch_type;
  ch_price : float;
  ch_time : Z
}.

Inductive engulfing_type : Type := BULLISH_ENGULFING | BEARISH_ENGULFING.

Record engulfing_pattern : Type := EngulfingPattern {
  eg_kind : engulfing_type;
  eg_time : Z;
  eg_strength : float
}.

(** The block appended for row [i] with the given polarity. *)
Definition block_at (df : frame) (k : ob_type) (i : nat)
    : outcome order_block :=
  h ← iloc high df i;
  l ← iloc low df i;
  t ← iloc time df i;
  mret (OrderBlock k h l t false).

(** [close[i] > open[i] and i+1 < len(df) and close[i+1] < open[i+1]],
    evaluated left to right with the short-circuit of [and]. *)
Definition bullish_block_at (df : frame) (i : nat) : outcome bool :=
  c ← iloc close df i;
  o ← iloc open df i;
  if gt c o then
    if (i + 1 <? length df)%nat then
      c1 ← iloc close df (i + 1);
      o1 ← iloc open df (i + 1);
      mret (lt c1 o1)
    else mret false
  else mret false.

(** [close[i] < open[i] and i+1 < len(df) and close[i+1] > open[i+1]]. *)
Definition bearish_block_at (df : frame) (i : nat) : outcome bool :=
  c ← iloc close df i;
  o ← iloc open df i;
  if lt c o then
    if (i + 1 <? length df)%nat then
      c1 ← iloc close df (i + 1);
      o1 ← iloc open df (i + 1);
      mret (gt c1 o1)
    else mret false
  else mret false.

(** Body of the loop of [detect_order_blocks]. *)
Definition order_block_step (df : frame) (i : nat)
    (order_blocks : list order_block) : outcome (list order_block) :=
  bull ← bullish_block_at df i;
  order_blocks ← (if bull : bool then
                    b ← block_at df BULLISH i; mret (order_blocks ++ [b])
                  else mret order_blocks);
  bear ← bearish_block_at df i;
  if bear : bool then
    b ← block_at df BEARISH i; mret (order_blocks ++ [b])
  else mret order_blocks.

Definition detect_order_blocks (df : frame) (lookback : nat)
    : outcome (list order_block) :=
  for_range lookback (length df) (order_block_step df) [].

(** Body of the loop of [detect_choch]. The window is
    [iloc[max(0, i-20):i]]; on naturals [i - 20] is already [0] below 20. *)
Definition choch_step (df : frame) (i : nat)
    (choch_points : list choch_point) : outcome (list choch_point) :=
  let recent_high := series_max (slice (i - 20) i (map high df)) in
  let recent_low := series_min (slice (i - 20) i (map low df)) in
  h ← iloc high df i;
  if gt h recent_high then
    t ← iloc time df i;
    mret (choch_points ++ [ChochPoint BULLISH_CHOCH h t])
  else
    l ← iloc low df i;
    if lt l recent_low then
      t ← iloc time df i;
      mret (choch_points ++ [ChochPoint BEARISH_CHOCH l t])
    else mret choch_points.

Definition detect_choch (df : frame) : outcome (list choch_point) :=
  for_range 2 (length df) (choch_step df) [].

(** Body of the loop of [detect_engulfing]; the two strength formulas are
    the source's, on numpy floats (a zero divisor gives an infinity or
    NaN, it does not raise). *)
Definition engulfing_step (df : frame) (i : nat)
    (engulfing_patterns : list engulfing_pattern)
    : outcome (list engulfing_pattern) :=
  prev_open ← iloc open df (i - 1);
  prev_close ← iloc close df (i - 1);
  curr_open ← iloc open df i;
  curr_close ← iloc close df i;
  engulfing_patterns ←
    (if lt prev_close prev_open && gt curr_close prev_open
        && lt curr_open prev_close
     then
       t ← iloc time df i;
       mret (engulfing_patterns ++
             [EngulfingPattern BULLISH_ENGULFING t
                ((curr_close - curr_open) / (prev_close - prev_open))%float])
     else mret engulfing_patterns);
  if gt prev_close prev_open && lt curr_close prev_open
     && gt curr_open prev_close
  then
    t ← iloc time df i;
    mret (engulfing_patterns ++
          [EngulfingPattern BEARISH_ENGULFING t
             ((curr_open - curr_close) / (curr_open - prev_open))%float])
  else mret engulfing_patterns.

Definition detect_engulfing (df : frame) : outcome (list engulfing_pattern) :=
  for_range 1 (length df) (engulfing_step df) [].

(** What [engulfing_step] appends for row [i], read off rows [i-1] and
    [i] at once. *)
Definition engulfing_at (df : frame) (i : nat) : list engulfing_pattern :=
  match df !! (i - 1)%nat, df !! i with
  | Some p, Some c =>
      (if lt (close p) (open p) && gt (close c) (open p)
          && lt (open c) (close p)
       then [EngulfingPattern BULLISH_ENGULFING (time c)
               ((close c - open c) / (close p - open p))%float] else [])
      ++
      (if gt (close p) (open p) && lt (close c) (open p)
          && gt (open c) (close p)
       then [EngulfingPattern BEARISH_ENGULFING (time c)
               ((open c - close c) / (open c - open p))%float] else [])
  | _, _ => []
  end.

Definition engulfing_events (df : frame) : list engulfing_pattern :=
  flat_map (engulfing_at df) (seq 1 (length df - 1)).

(** *** Signal fusion *)

Inductive direction : Type := NEUTRAL | BUY | SELL.

(** The dict returned by [generate_signal] has the seven keys ['symbol'] to
    ['timestamp']. [sig_entry_price] stands for the key ['entry_price'],
    which [calculate_position] looks up with [.get]: [None] when the dict
    has no such key. *)
Record signal : Type := Signal {
  sig_symbol : string;
  sig_direction : direction;
  sig_confidence : float;
  sig_order_blocks : list order_block;
  sig_choch : option choch_point;
  sig_engulfing : option engulfing_pattern;
  sig_timestamp : option Z;
  sig_entry_price : option float
}.

(** The pair [(signal_strength, direction)] the three [if] blocks update. *)
Abbreviation fusion := (float * direction)%type.

Definition fuse_order_blocks (order_blocks : list order_block)
    (st : fusion) : fusion :=
  let '(signal_strength, direction) := st in
  match last order_blocks with
  | Some latest_ob =>
      match ob_kind latest_ob with
      | BULLISH => ((signal_strength + 0.4)%float, BUY)
      | BEARISH => ((signal_strength + 0.4)%float, SELL)
      end
  | None => st
  end.

Definition fuse_choch (choch : list choch_point) (st : fusion) : fusion :=
  let '(signal_strength, direction) := st in
  match last choch with
  | Some latest_choch =>
      match ch_kind latest_choch with
      | BULLISH_CHOCH =>
          ((signal_strength + 0.3)%float,
           match direction with NEUTRAL => BUY | d => d end)
      | BEARISH_CHOCH =>
          ((signal_strength + 0.3)%float,
           match direction with NEUTRAL => SELL | d => d end)
      end
  | None => st
  end.

Definition fuse_engulfing (engulfing : list engulfing_pattern)
    (st : fusion) : fusion :=
  let '(signal_strength, direction) := st in
  match last engulfing with
  | Some latest_engulfing =>
      match eg_kind latest_engulfing with
      | BULLISH_ENGULFING =>
          ((signal_strength + 0.3)%float,
           match direction with NEUTRAL => BUY | d => d end)
      | BEARISH_ENGULFING =>
          ((signal_strength + 0.3)%float,
           match direction with NEUTRAL => SELL | d => d end)
      end
  | None => st
  end.

(** Lines 103-138: start from strength [0] and [NEUTRAL], then the order
    block, CHoCH and engulfing blocks in that order. *)
Definition fuse (order_blocks : list order_block) (choch : list choch_point)
    (engulfing : list engulfing_pattern) : fusion :=
  fuse_engulfing engulfing
    (fuse_choch choch (fuse_order_blocks order_blocks (0%float, NEUTRAL))).

(** Lines 140-152: the gate and the returned dict. *)
Definition emit (df : frame) (symbol : string)
    (order_blocks : list order_block) (choch : list choch_point)
    (engulfing : list engulfing_pattern) : option signal :=
  let '(signal_strength, direction) := fuse order_blocks choch engulfing in
  if ge signal_strength 0.5 then
    Some {| sig_symbol := symbol;
            sig_direction := direction;
            sig_confidence := min signal_strength 1.0;
            sig_order_blocks := last_n 3 order_blocks;
            sig_choch := last choch;
            sig_engulfing := last engulfing;
            sig_timestamp := last (map time df);
            sig_entry_price := None |}
  else None.

Definition generate_signal (df : frame) (symbol : string)
    : outcome (option signal) :=
  order_blocks ← detect_order_blocks df 50;
  choch ← detect_choch df;
  engulfing ← detect_engulfing df;
  mret (emit df symbol order_blocks choch engulfing).

(** *** Risk sizing *)

(** [RISK_PARAMS] of config.py. *)
Record risk_params : Type := RiskParams {
  max_risk_per_trade : float;
  max_position_size : float;
  reward_risk_ratio : float;
  max_drawdown : float;
  max_open_trades : Z
}.

Definition RISK_PARAMS : risk_params :=
  {| max_risk_per_trade := 0.01;
     max_position_size := 0.05;
     reward_risk_ratio := 2.0;
     max_drawdown := 0.15;
     max_open_trades := 3 |}.

Record position : Type := Position {
  entry_price : float;
  stop_loss : float;
  take_profit : float;
  position_size : float;
  side : direction;
  risk_amount : float;
  potential_profit : float
}.

(** [calculate_position]. The fallback [10000] and the [0] of the guarded
    size are Python ints; every use converts them to the float of the same
    value. *)
Definition calculate_position (rp : risk_params) (signal : option signal)
    (account_balance : float) : outcome (option position) :=
  match signal with
  | None => mret None
  | Some signal =>
      if lt (sig_confidence signal) 0.5 then mret None
      else
        let risk_amount := (account_balance * max_risk_per_trade rp)%float in
        let entry_price := default 10000%float (sig_entry_price signal) in
        let '(stop_loss, take_profit) :=
          match sig_direction signal with
          | BUY =>
              ((entry_price * 0.98)%float,
               (entry_price * (1 + reward_risk_ratio rp * 0.02))%float)
          | _ =>
              ((entry_price * 1.02)%float,
               (entry_price * (1 - reward_risk_ratio rp * 0.02))%float)
          end in
        let sl_distance := PrimFloat.abs (entry_price - stop_loss) in
        position_size ← (if gt sl_distance 0 then
                           truediv risk_amount sl_distance
                         else mret 0%float);
        max_size ← truediv (account_balance * max_position_size rp)%float
                           entry_price;
        let position_size := min position_size max_size in
        mret (Some {| entry_price := entry_price;
                      stop_loss := stop_loss;
                      take_profit := take_profit;
                      position_size := position_size;
                      side := sig_direction signal;
                      risk_amount := risk_amount;
                      potential_profit :=
                        (position_size *
                         PrimFloat.abs (take_profit - entry_price))%float |})
  end.

End SMCStrategy.

(** ** app.py: the trade ledger *)

Module App.
Import SMCStrategy.

Inductive trade_status : Type := OPEN | CLOSED.

(** The trade dict built when an order is acknowledged; ['closed_at'] is
    absent until reconciliation adds it. *)
Record trade : Type := Trade {
  t_id : Z;
  t_symbol : string;
  t_side : direction;
  t_entry_price : float;
  t_size : float;
  t_stop_loss : float;
  t_take_profit : float;
  t_risk : float;
  t_potential_profit : float;
  t_pnl : float;
  t_status : trade_status;
  t_opened_at : string;
  t_closed_at : option string
}.

(** Trade dicts are mutable objects shared between the lists that hold
    them: a list holds references, [objects] is the store they point into. *)
Abbreviation ref := nat.

Record bot_state : Type := BotState {
  running : bool;
  environment : string;
  account_balance : float;
  objects : list trade;
  open_trades : list ref;
  closed_trades : list ref;
  total_pnl : float;
  win_count : Z;
  loss_count : Z;
  last_update : string
}.

(** [bot_state] as the module creates it. *)
Definition initial_state (env now : string) : bot_state :=
  {| running := false;
     environment := env;
     account_balance := 10000.0;
     objects := [];
     open_trades := [];
     closed_trades := [];
     total_pnl := 0.0;
     win_count := 0;
     loss_count := 0;
     last_update := now |}.

Definition set_running (b : bool) (st : bot_state) : bot_state :=
  {| running := b;
     environment := environment st;
     account_balance := account_balance st;
     objects := objects st;
     open_trades := open_trades st;
     closed_trades := closed_trades st;
     total_pnl := total_pnl st;
     win_count := win_count st;
     loss_count := loss_count st;
     last_update := last_update st |}.

Definition set_account_balance (b : float) (st : bot_state) : bot_state :=
  {| running := running st;
     environment := environment st;
     account_balance := b;
     objects := objects st;
     open_trades := open_trades st;
     closed_trades := closed_trades st;
     total_pnl := total_pnl st;
     win_count := win_count st;
     loss_count := loss_count st;
     last_update := last_update st |}.

(** Lines 110-126 of [trading_loop]: the trade dict of an acknowledged
    order, appended to [open_trades]. The new dict is a fresh object. *)
Definition new_trade (order_id : Z) (symbol : string) (p : position)
    (now : string) : trade :=
  {| t_id := order_id;
     t_symbol := symbol;
     t_side := side p;
     t_entry_price := entry_price p;
     t_size := position_size p;
     t_stop_loss := stop_loss p;
     t_take_profit := take_profit p;
     t_risk := risk_amount p;
     t_potential_profit := potential_profit p;
     t_pnl := 0.0;
     t_status := OPEN;
     t_opened_at := now;
     t_closed_at := None |}.

Definition append_open_trade (t : trade) (st : bot_state) : bot_state :=
  {| running := running st;
     environment := environment st;
     account_balance := account_balance st;
     objects := objects st ++ [t];
     open_trades := open_trades st ++ [length (objects st)];
     closed_trades := closed_trades st;
     total_pnl := total_pnl st;
     win_count := win_count st;
     loss_count := loss_count st;
     last_update := last_update st |}.

Definition open_trade (order_id : Z) (symbol : string) (p : position)
    (now : string) (st : bot_state) : bot_state :=
  append_open_trade (new_trade order_id symbol p now) st.

(** One entry of the position snapshot [positions['result']]. The values
    under ['realized_pnl'] and ['size'] are the floats [float(...)] makes
    of them; [None] is an absent key, which [.get(key, 0)] reads as 0. *)
Record exchange_position : Type := ExchangePosition {
  product_symbol : string;
  realized_pnl : option float;
  pos_size : option float
}.

Definition with_pnl (pnl : float) (t : trade) : trade :=
  {| t_id := t_id t; t_symbol := t_symbol t; t_side := t_side t;
     t_entry_price := t_entry_price t; t_size := t_size t;
     t_stop_loss := t_stop_loss t; t_take_profit := t_take_profit t;
     t_risk := t_risk t; t_potential_profit := t_potential_profit t;
     t_pnl := pnl;
     t_status := t_status t; t_opened_at := t_opened_at t;
     t_closed_at := t_closed_at t |}.

Definition with_closed (now : string) (t : trade) : trade :=
  {| t_id := t_id t; t_symbol := t_symbol t; t_side := t_side t;
     t_entry_price := t_entry_price t; t_size := t_size t;
     t_stop_loss := t_stop_loss t; t_take_profit := t_take_profit t;
     t_risk := t_risk t; t_potential_profit := t_potential_profit t;
     t_pnl := t_pnl t;
     t_status := CLOSED; t_opened_at := t_opened_at t;
     t_closed_at := Some now |}.

(** A write through a reference: [trade[key] = value]. *)
Definition store (r : ref) (t : trade) (st : bot_state) : bot_state :=
  {| running := running st;
     environment := environment st;
     account_balance := account_balance st;
     objects := <[r := t]> (objects st);
     open_trades := open_trades st;
     closed_trades := closed_trades st;
     total_pnl := total_pnl st;
     win_count := win_count st;
     loss_count := loss_count st;
     last_update := last_update st |}.

(** The search loop of lines 150-154: the first entry with the symbol. *)
Definition matching_position (positions : list exchange_position)
    (symbol : string) : option exchange_position :=
  List.find (fun pos => String.eqb (product_symbol pos) symbol) positions.

Section Reconciliation.

(** [==] on two trade dicts. What it answers on floats that are NaN
    depends on object identity, which is not modelled; the one thing
    used of it is that equal dicts carry the same ['status']. *)
Variable dict_eq : trade -> trade -> bool.

(** [item is x or item == x], the test of [list.remove]. *)
Definition same_item (objs : list trade) (r' r : ref) : bool :=
  (r' =? r)%nat ||
  match objs !! r', objs !! r with
  | Some a, Some b => dict_eq a b
  | _, _ => false
  end.

(** [l.remove(x)]: drops the first item that is [x] or equals it; [None]
    is the ValueError of a list without such an item. *)
Fixpoint list_remove (objs : list trade) (r : ref) (l : list ref)
    : option (list ref) :=
  match l with
  | [] => None
  | r' :: rest =>
      if same_item objs r' r then Some rest
      else cons r' <$> list_remove objs r rest
  end.

(** Lines 162-172, once the position reports size 0. A ValueError of
    [remove] is caught by the [except] of the loop body and leaves the
    writes made before it. *)
Definition close_matched (now : string) (r : ref) (t : trade)
    (st : bot_state) : bot_state :=
  let t := with_closed now t in
  let st := store r t st in
  match list_remove (objects st) r (open_trades st) with
  | None => st
  | Some open_trades' =>
      {| running := running st;
         environment := environment st;
         account_balance := account_balance st;
         objects := objects st;
         open_trades := open_trades';
         closed_trades := closed_trades st ++ [r];
         total_pnl := (total_pnl st + t_pnl t)%float;
         win_count := if gt (t_pnl t) 0 then win_count st + 1
                      else win_count st;
         loss_count := if gt (t_pnl t) 0 then loss_count st
                       else loss_count st + 1;
         last_update := last_update st |}
  end.

(** Body of the loop of [update_open_trades] for the trade object [r]. *)
Definition update_trade (positions : list exchange_position)
    (now : string) (r : ref) (st : bot_state) : bot_state :=
  match objects st !! r with
  | None => st
  | Some t =>
      match matching_position positions (t_symbol t) with
      | None => st
      | Some matching_pos =>
          let t := with_pnl (default 0%float (realized_pnl matching_pos)) t in
          let st := store r t st in
          if PrimFloat.eqb (default 0%float (pos_size matching_pos)) 0
          then close_matched now r t st
          else st
      end
  end.

(** The loop over the copy [open_trades[:]]; [clock k] is what
    [datetime.now().isoformat()] gives while the [k]-th trade of the
    copy is handled. *)
Fixpoint update_each (positions : list exchange_position)
    (clock : nat -> string) (k : nat) (snapshot : list ref)
    (st : bot_state) : bot_state :=
  match snapshot with
  | [] => st
  | r :: rest =>
      update_each positions clock (S k) rest
        (update_trade positions (clock k) r st)
  end.

(** [update_open_trades]; [None] is a failed fetch or a reply without
    ['result']. *)
Definition update_open_trades (positions : option (list exchange_position))
    (clock : nat -> string) (st : bot_state) : bot_state :=
  match positions with
  | None => st
  | Some ps => update_each ps clock 0 (open_trades st) st
  end.

End Reconciliation.

(** Field-wise comparison of two trade dicts, floats by [==]. *)
Definition trade_eqb (a b : trade) : bool :=
  (t_id a =? t_id b) && String.eqb (t_symbol a) (t_symbol b)
  && match t_side a, t_side b with
     | NEUTRAL, NEUTRAL | BUY, BUY | SELL, SELL => true
     | _, _ => false
     end
  && PrimFloat.eqb (t_entry_price a) (t_entry_price b)
  && PrimFloat.eqb (t_size a) (t_size b)
  && PrimFloat.eqb (t_stop_loss a) (t_stop_loss b)
  && PrimFloat.eqb (t_take_profit a) (t_take_profit b)
  && PrimFloat.eqb (t_risk a) (t_risk b)
  && PrimFloat.eqb (t_potential_profit a) (t_potential_profit b)
  && PrimFloat.eqb (t_pnl a) (t_pnl b)
  && match t_status a, t_status b with
     | OPEN, OPEN | CLOSED, CLOSED => true
     | _, _ => false
     end
  && String.eqb (t_opened_at a) (t_opened_at b)
  && match t_closed_at a, t_closed_at b with
     | None, None => true
     | Some x, Some y => String.eqb x y
     | _, _ => false
     end.

(** *** Status *)

Definition Z2SF (n : Z) : spec_float :=
  match n with
  | Z0 => S754_zero false
  | Zpos p => S754_finite false p 0
  | Zneg p => S754_finite true p 0
  end.

(** [a / b] on two ints: the quotient rounded once to the nearest float,
    ZeroDivisionError for [b = 0], OverflowError when the quotient is past
    the largest float. *)
Definition int_truediv (a b : Z) : outcome float :=
  if b =? 0 then Raise ZeroDivisionError
  else if (2 ^ 1024 - 2 ^ 970) * Z.abs b <=? Z.abs a then Raise OverflowError
  else Ok (SF2Prim (SFdiv prec emax (Z2SF a) (Z2SF b))).

Record status : Type := Status {
  st_running : bool;
  st_environment : string;
  st_account_balance : float;
  st_open_trades : nat;
  st_total_trades : Z;
  st_total_pnl : float;
  st_win_rate : float;
  st_last_update : string
}.

Definition get_status (now : string) (st : bot_state) : outcome status :=
  let total_trades := win_count st + loss_count st in
  win_rate ← (if total_trades >? 0 then int_truediv (win_count st) total_trades
              else mret 0.0%float);
  mret {| st_running := running st;
          st_environment := environment st;
          st_account_balance := account_balance st;
          st_open_trades := length (open_trades st);
          st_total_trades := total_trades;
          st_total_pnl := total_pnl st;
          st_win_rate := win_rate;
          st_last_update := now |}.

(** The states the bot can be in: the initial one, then any sequence of
    start/stop requests, balance refreshes, acknowledged orders and
    reconciliation passes. *)
Inductive reachable (dict_eq : trade -> trade -> bool) : bot_state -> Prop :=
| reach_initial env now :
    reachable dict_eq (initial_state env now)
| reach_running b st :
    reachable dict_eq st -> reachable dict_eq (set_running b st)
| reach_balance b st :
    reachable dict_eq st -> reachable dict_eq (set_account_balance b st)
| reach_open order_id symbol p now st :
    reachable dict_eq st ->
    reachable dict_eq (open_trade order_id symbol p now st)
| reach_update positions clock st :
    reachable dict_eq st ->
    reachable dict_eq (update_open_trades dict_eq positions clock st).

(** What holds of the ledger in every reachable state: no trade object is
    listed twice, the open list holds objects with status OPEN, the closed
    list objects with status CLOSED, and the two counters count the closed
    trades. *)
Record ledger_ok (st : bot_state) : Prop := LedgerOk {
  ok_distinct : NoDup (open_trades st ++ closed_trades st);
  ok_open : forall r, r ∈ open_trades st ->
    exists t, objects st !! r = Some t /\ t_status t = OPEN;
  ok_closed : forall r, r ∈ closed_trades st ->
    exists t, objects st !! r = Some t /\ t_status t = CLOSED;
  ok_counted :
    win_count st + loss_count st = Z.of_nat (length (closed_trades st)) /\
    0 <= win_count st /\ 0 <= loss_count st
}.

End App.

(** ** The detectors and the fusion as the specification words them *)

Module Spec.
Import SMCStrategy.

(** "Candle i is a bullish block if close[i]>open[i] and
    close[i+1]<open[i+1] (symmetric for bearish)". *)
Definition blocks_at (df : frame) (i : nat) : list order_block :=
  match df !! i, df !! (i + 1)%nat with
  | Some c, Some n =>
      (if gt (close c) (open c) && lt (close n) (open n)
       then [OrderBlock BULLISH (high c) (low c) (time c) false] else [])
      ++
      (if lt (close c) (open c) && gt (close n) (open n)
       then [OrderBlock BEARISH (high c) (low c) (time c) false] else [])
  | _, _ => []
  end.

(** "For index i in [lookback, n-1) ... output preserves chronological
    order". *)
Definition order_blocks (df : frame) (lookback : nat) : list order_block :=
  flat_map (blocks_at df) (seq lookback (length df - 1 - lookback)).

(** "The current candle's body divided by the previous candle's body":
    the bullish formula with both bodies taken downwards. *)
Definition bearish_body_ratio (p c : candle) : float :=
  ((open c - close c) / (open p - close p))%float.

(** "0.4 for an order-block event, plus 0.3 for a CHoCH event, plus 0.3
    for an engulfing event". *)
Definition weight {A} (w : float) (events : list A) : float :=
  match events with [] => 0%float | _ => w end.

Definition strength (order_blocks : list order_block)
    (choch : list choch_point) (engulfing : list engulfing_pattern) : float :=
  (weight 0.4 order_blocks + weight 0.3 choch + weight 0.3 engulfing)%float.

Definition ob_direction (b : order_block) : direction :=
  match ob_kind b with BULLISH => BUY | BEARISH => SELL end.

Definition choch_direction (c : choch_point) : direction :=
  match ch_kind c with BULLISH_CHOCH => BUY | BEARISH_CHOCH => SELL end.

Definition engulfing_direction (e : engulfing_pattern) : direction :=
  match eg_kind e with BULLISH_ENGULFING => BUY | BEARISH_ENGULFING => SELL end.

(** "Precedence for direction: order-block > CHoCH > engulfing". *)
Definition direction_of (order_blocks : list order_block)
    (choch : list choch_point) (engulfing : list engulfing_pattern)
    : direction :=
  match last order_blocks, last choch, last engulfing with
  | Some b, _, _ => ob_direction b
  | None, Some c, _ => choch_direction c
  | None, None, Some e => engulfing_direction e
  | None, None, None => NEUTRAL
  end.

(** "insert(trade): adds to the open set; fails with DuplicateId if id
    already present": whether an open trade carries the id. *)
Definition id_is_open (st : App.bot_state) (order_id : Z) : bool :=
  existsb (fun r =>
    match App.objects st !! r with
    | Some t => App.t_id t =? order_id
    | None => false
    end) (App.open_trades st).

(** "Find the first position entry whose symbol matches; if none found,
    leave trade unchanged; if found, set trade.pnl = reported realizedPnl;
    if reported size == 0, transition to Closed: stamp closedAt". *)
Definition closes (ps : list App.exchange_position) (t : App.trade) : bool :=
  match App.matching_position ps (App.t_symbol t) with
  | Some pos => PrimFloat.eqb (default 0%float (App.pos_size pos)) 0
  | None => false
  end.

Definition reconciled (ps : list App.exchange_position) (now : string)
    (t : App.trade) : App.trade :=
  match App.matching_position ps (App.t_symbol t) with
  | None => t
  | Some pos =>
      let closed :=
        PrimFloat.eqb (default 0%float (App.pos_size pos)) 0 in
      {| App.t_id := App.t_id t;
         App.t_symbol := App.t_symbol t;
         App.t_side := App.t_side t;
         App.t_entry_price := App.t_entry_price t;
         App.t_size := App.t_size t;
         App.t_stop_loss := App.t_stop_loss t;
         App.t_take_profit := App.t_take_profit t;
         App.t_risk := App.t_risk t;
         App.t_potential_profit := App.t_potential_profit t;
         App.t_pnl := default 0%float (App.realized_pnl pos);
         App.t_status := if closed then App.CLOSED else App.t_status t;
         App.t_opened_at := App.t_opened_at t;
         App.t_closed_at := if closed then Some now else App.t_closed_at t |}
  end.

(** "... move from open to closed set, add pnl to totalPnl, increment
    winCount (pnl>0) or lossCount (otherwise)": the ledger after the trade
    object [r], which held [t], has been reconciled. *)
Definition reconcile_trade (ps : list App.exchange_position) (now : string)
    (r : nat) (t : App.trade) (st : App.bot_state) : App.bot_state :=
  let t' := reconciled ps now t in
  let won := gt (App.t_pnl t') 0 in
  {| App.running := App.running st;
     App.environment := App.environment st;
     App.account_balance := App.account_balance st;
     App.objects := <[r := t']> (App.objects st);
     App.open_trades :=
       if closes ps t then filter (fun r' => r' <> r) (App.open_trades st)
       else App.open_trades st;
     App.closed_trades :=
       if closes ps t then App.closed_trades st ++ [r]
       else App.closed_trades st;
     App.total_pnl :=
       if closes ps t then (App.total_pnl st + App.t_pnl t')%float
       else App.total_pnl st;
     App.win_count :=
       if closes ps t && won then App.win_count st + 1 else App.win_count st;
     App.loss_count :=
       if closes ps t && negb won then App.loss_count st + 1
       else App.loss_count st;
     App.last_update := App.last_update st |}.

(** The pnl a pass over [ps] leaves in a trade. *)
Definition reported_pnl (ps : list App.exchange_position) (t : App.trade)
    : float :=
  match App.matching_position ps (App.t_symbol t) with
  | Some pos => default 0%float (App.realized_pnl pos)
  | None => App.t_pnl t
  end.

(** The same two questions asked of a trade object. *)
Definition closes_ref (ps : list App.exchange_position)
    (objs : list App.trade) (r : nat) : bool :=
  match objs !! r with
  | Some t => closes ps t
  | None => false
  end.

Definition pnl_ref (ps : list App.exchange_position)
    (objs : list App.trade) (r : nat) : float :=
  match objs !! r with
  | Some t => reported_pnl ps t
  | None => 0%float
  end.

End Spec.

(** ** Sample inputs *)

Module Examples.
Import SMCStrategy App.

(** A candle that opens and closes at 100 inside the range 80-110. *)
Definition flat (t : Z) : candle := Candle t 100 110 80 100 1.

Definition quiet : frame := map (fun k => flat (Z.of_nat k)) (seq 0 50).

(** Fifty flat rows, a down candle, then an up candle that does not
    engulf it: one bearish order block at row 50 and nothing else. *)
Definition bearish_block_only : frame :=
  quiet ++ [Candle 50 100 110 80 90 1; Candle 51 90 110 80 95 1].

(** The same with row 50 dipping to 70, below the rolling low. *)
Definition bearish_block_and_choch : frame :=
  quiet ++ [Candle 50 100 110 70 90 1; Candle 51 90 110 80 95 1].

(** Previous open=100, close=90; current open=95, close=102. *)
Definition quoted_engulfing_pair : frame :=
  [Candle 0 100 100 90 90 1; Candle 1 95 102 95 102 1].

(** Previous open=100, close=90; current open=85, close=106. *)
Definition bullish_engulfing_pair : frame :=
  [Candle 0 100 100 90 90 1; Candle 1 85 106 85 106 1].

(** Previous open=100, close=110; current open=120, close=80. *)
Definition bearish_engulfing_pair : frame :=
  [Candle 0 100 110 100 110 1; Candle 1 120 120 80 80 1].

(** An up candle followed by a down candle, and by another up candle. *)
Definition up_then_down : frame :=
  [Candle 0 100 110 100 110 1; Candle 1 110 110 100 100 1].
Definition up_then_up : frame :=
  [Candle 0 100 110 100 110 1; Candle 1 110 120 110 120 1].

Definition buy_at_20000 : signal :=
  Signal "BTCUSD" BUY 0.7 [] None None None (Some 20000%float).

Definition sample_trade (order_id : Z) (symbol now : string) : trade :=
  new_trade order_id symbol (Position 10000 9800 10400 0.05 BUY 100 20) now.

(** A ledger with two open trades, on BTCUSD and ETHUSD, and a snapshot in
    which BTCUSD is reported twice, first flat with a profit, and ETHUSD
    is still held at a loss. *)
Definition sample_ledger : bot_state :=
  append_open_trade (sample_trade 8 "ETHUSD" "t1")
    (append_open_trade (sample_trade 7 "BTCUSD" "t0")
       (initial_state "testnet" "t")).

Definition sample_positions : list exchange_position :=
  [ExchangePosition "BTCUSD" (Some 12.5%float) (Some 0%float);
   ExchangePosition "BTCUSD" (Some 1%float) (Some 3%float);
   ExchangePosition "ETHUSD" (Some (-2)%float) (Some 5%float)].

Definition sample_clock (k : nat) : string :=
  match k with O => "t2" | _ => "t3" end.

End Examples.

(** ** The rest of the strategy: loop-free forms *)

Module Rows.
Import SMCStrategy.

(** What [choch_step] appends for row [i]: the break of the rolling high is
    tested first, the break of the rolling low only when it fails. *)
Definition choch_at (df : frame) (i : nat) : list choch_point :=
  match df !! i with
  | Some c =>
      if gt (high c) (series_max (slice (i - 20) i (map high df)))
      then [ChochPoint BULLISH_CHOCH (high c) (time c)]
      else if lt (low c) (series_min (slice (i - 20) i (map low df)))
      then [ChochPoint BEARISH_CHOCH (low c) (time c)]
      else []
  | None => []
  end.

Definition choch_events (df : frame) : list choch_point :=
  flat_map (choch_at df) (seq 2 (length df - 2)).

(** How many of the three detectors have an event. *)
Definition detectors_firing (order_blocks : list order_block)
    (choch : list choch_point) (engulfing : list engulfing_pattern) : nat :=
  ((if order_blocks is [] then 0 else 1) +
   (if choch is [] then 0 else 1) +
   (if engulfing is [] then 0 else 1))%nat.

End Rows.

(** ** config.py *)

Module Config.

(** One entry of [CONFIG]; the key and the secret come from the process
    environment and may be unset. *)
Record endpoints : Type := Endpoints {
  delta_api_url : string;
  delta_ws_url : string;
  api_key : option string;
  api_secret : option string
}.

(** [CONFIG], for the four environment variables it reads. *)
Definition CONFIG (testnet_key testnet_secret live_key live_secret
    : option string) (mode : string) : option endpoints :=
  if String.eqb mode "testnet" then
    Some {| delta_api_url := "https://testnet-api.delta.exchange";
            delta_ws_url := "wss://testnet-stream.delta.exchange/ws";
            api_key := testnet_key;
            api_secret := testnet_secret |}
  else if String.eqb mode "live" then
    Some {| delta_api_url := "https://api.delta.exchange";
            delta_ws_url := "wss://stream.delta.exchange/ws";
            api_key := live_key;
            api_secret := live_secret |}
  else None.

(** [get_config()]: [CONFIG[ENVIRONMENT_MODE]]; [None] is the KeyError of a
    mode that is no key of [CONFIG]. *)
Definition get_config (testnet_key testnet_secret live_key live_secret
    : option string) (ENVIRONMENT_MODE : string) : option endpoints :=
  CONFIG testnet_key testnet_secret live_key live_secret ENVIRONMENT_MODE.

(** [update_environment(env)]: the answer and the new [ENVIRONMENT_MODE]. *)
Definition update_environment (env : string) (ENVIRONMENT_MODE : string)
    : bool * string :=
  if String.eqb env "testnet" || String.eqb env "live" then (true, env)
  else (false, ENVIRONMENT_MODE).

End Config.

(** ** delta_exchange_client.py: what the client does with a reply *)

Module Client.

(** Every method signs its request before its [try]: [_sign_request] calls
    [self.api_secret.encode()], which raises when the secret is unset, and
    that exception leaves the method. *)
Definition can_sign (cfg : Config.endpoints) : bool :=
  match Config.api_secret cfg with
  | Some _ => true
  | None => false
  end.

(** One entry of the product list; a field is [None] when the entry has no
    such key. *)
Record product : Type := Product {
  p_symbol : option string;
  p_id : option Z
}.

(** The search loop of [get_product_id]. A product without ['symbol'], or
    the matching product without ['id'], raises a KeyError, which the
    [except] of the method turns into [None]. *)
Fixpoint find_product_id (products : list product) (symbol : string)
    : option Z :=
  match products with
  | [] => None
  | product :: rest =>
      match p_symbol product with
      | None => None
      | Some s =>
          if String.eqb s symbol then p_id product
          else find_product_id rest symbol
      end
  end.

(** [get_product_id(symbol)] for the product list the request gave; [None]
    is a request that failed. A reply without ['result'] is the empty
    list. *)
Definition get_product_id (reply : option (list product)) (symbol : string)
    : option Z :=
  match reply with
  | Some products => find_product_id products symbol
  | None => None
  end.

(** One entry of the wallet's ['result']: what [float(entry['balance'])]
    gives, [None] when that raises. *)
Record wallet_entry : Type := WalletEntry {
  balance : option float
}.

(** The reply of the wallet request: the status code and the ['result'] of
    the body ([None] when the body has none); [None] is a request that
    raised. *)
Abbreviation wallet_reply := (option (nat * option (list wallet_entry))).

Definition mock_wallet : list wallet_entry :=
  [ {| balance := Some 10000.0%float |} ].

(** [get_wallet_balance()], as the ['result'] list of the dict it returns. *)
Definition get_wallet_balance (reply : wallet_reply) : list wallet_entry :=
  match reply with
  | Some (status, result) =>
      if (status =? 200)%nat then
        match result with
        | Some (e :: es) => e :: es
        | _ => mock_wallet
        end
      else mock_wallet
  | None => mock_wallet
  end.

End Client.

(** ** ml_model.py: the guard in front of the model *)

Module MLModel.

(** [predict(preprocess(df))]. A frame under 30 rows has no features and
    gets 0.5 without the model being asked; for a longer frame [model] is
    what feature extraction and the network give, [None] when that raises. *)
Definition confidence (model : frame -> option float) (df : frame)
    : option float :=
  if (length df <? 30)%nat then Some 0.5%float else model df.

End MLModel.

(** ** app.py: the trading cycle *)

Module Loop.
Import SMCStrategy App Client.

(** The arguments of one [place_order] call. *)
Record order : Type := Order {
  o_product_id : option Z;
  o_side : string;
  o_size : float;
  o_type : string
}.

(** ["BUY"], ["SELL"], ["NEUTRAL"] as the strategy spells them. *)
Definition direction_name (d : direction) : string :=
  match d with
  | BUY => "BUY"
  | SELL => "SELL"
  | NEUTRAL => "NEUTRAL"
  end.

(** What the collaborators give for one symbol in one cycle: the candles
    ([None] for a failed fetch), the model behind its guard, the product
    list ([None] for a failed request), the id of the acknowledged order
    ([None] when the order call fails or its reply has no ['result'] with an
    ['id']) and the clock reading. *)
Record feed : Type := Feed {
  f_candles : option frame;
  f_model : frame -> option float;
  f_products : option (list product);
  f_order_id : option Z;
  f_now : string
}.

(** Lines 60-130: the pipeline for one symbol, for a client that can sign.
    Every [continue] and every exception caught at the symbol boundary
    leaves the ledger as it was; the orders sent to the exchange are
    returned beside it. *)
Definition process_symbol (rp : risk_params) (symbol : string) (f : feed)
    (st : bot_state) : bot_state * list order :=
  match f_candles f with
  | None | Some [] => (st, [])
  | Some df =>
      match generate_signal df symbol with
      | Raise _ | Ok None => (st, [])
      | Ok (Some signal) =>
          match MLModel.confidence (f_model f) df with
          | None => (st, [])
          | Some ml_confidence =>
              let combined_confidence :=
                ((sig_confidence signal + ml_confidence) / 2)%float in
              if lt combined_confidence 0.65 then (st, [])
              else
                match calculate_position rp (Some signal) (account_balance st)
                with
                | Raise _ | Ok None => (st, [])
                | Ok (Some position) =>
                    match get_product_id (f_products f) symbol with
                    | None => (st, [])
                    | Some product_id =>
                        if product_id =? 0 then (st, [])
                        else
                          let sent :=
                            {| o_product_id := Some product_id;
                               o_side := direction_name (side position);
                               o_size := position_size position;
                               o_type := "market_order" |} in
                          match f_order_id f with
                          | Some order_id =>
                              (open_trade order_id symbol position (f_now f) st,
                               [sent])
                          | None => (st, [sent])
                          end
                    end
                end
          end
      end
  end.

(** The loop over [TRADING_PARAMS['symbols']]. *)
Fixpoint process_symbols (rp : risk_params) (feeds : list (string * feed))
    (st : bot_state) : bot_state * list order :=
  match feeds with
  | [] => (st, [])
  | (symbol, f) :: rest =>
      let '(st1, sent1) := process_symbol rp symbol f st in
      let '(st2, sent2) := process_symbols rp rest st1 in
      (st2, sent1 ++ sent2)
  end.

(** Lines 54-56: the balance of the first wallet entry; [None] is the
    exception of an entry that has no number under ['balance'], which
    escapes to the cycle boundary. *)
Definition refresh_balance (wallet : list wallet_entry) (st : bot_state)
    : option bot_state :=
  match wallet with
  | [] => None
  | entry :: _ =>
      match balance entry with
      | Some b => Some (set_account_balance b st)
      | None => None
      end
  end.

(** What the collaborators give in one cycle. *)
Record cycle_input : Type := CycleInput {
  c_wallet : wallet_reply;
  c_feeds : list (string * feed);
  c_positions : option (list exchange_position);
  c_clock : nat -> string
}.

(** One turn of the [while] loop of [trading_loop], lines 43-136, for a
    client built from [cfg]. Without a secret the wallet call raises while
    signing, and the cycle ends at its [except]. *)
Definition trading_cycle (dict_eq : trade -> trade -> bool)
    (cfg : Config.endpoints) (rp : risk_params) (inp : cycle_input)
    (st : bot_state) : bot_state * list order :=
  if negb (running st) then (st, [])
  else if max_open_trades rp <=? Z.of_nat (length (open_trades st))
  then (st, [])
  else if negb (can_sign cfg) then (st, [])
  else
    match refresh_balance (get_wallet_balance (c_wallet inp)) st with
    | None => (st, [])
    | Some st1 =>
        let '(st2, sent) := process_symbols rp (c_feeds inp) st1 in
        (update_open_trades dict_eq (c_positions inp) (c_clock inp) st2, sent)
    end.

(** Successive turns of the loop. *)
Fixpoint trading_cycles (dict_eq : trade -> trade -> bool)
    (cfg : Config.endpoints) (rp : risk_params) (inputs : list cycle_input)
    (st : bot_state) : bot_state * list order :=
  match inputs with
  | [] => (st, [])
  | inp :: rest =>
      let '(st1, sent1) := trading_cycle dict_eq cfg rp inp st in
      let '(st2, sent2) := trading_cycles dict_eq cfg rp rest st1 in
      (st2, sent1 ++ sent2)
  end.

End Loop.

(** ** app.py: the routes *)

Module Routes.
Import SMCStrategy App Loop.

(** [str(n)] for an int. *)
Definition py_str (n : Z) : string := NilZero.string_of_int (Z.to_int n).

(** [GET /api/trades]: the open trades and the last 50 closed ones. *)
Definition get_trades (st : bot_state) : list trade * list trade :=
  (omap (fun r => objects st !! r) (open_trades st),
   omap (fun r => objects st !! r) (last_n 50 (closed_trades st))).

Inductive close_reply : Type :=
| TradeClosed (trade_id : string)
| TradeNotFound
| ServerError.

(** The loop of [close_trade] over the open trades. [signs] tells whether
    the client can sign: when it cannot, the product lookup of the first
    matching trade raises and the route answers 500. [accepts k] tells
    whether the [k]-th order the route sends gets a reply that is truthy; a
    reply that is not lets the loop go on to the next trade. *)
Fixpoint close_among (signs : bool) (get_product_id : string -> option Z)
    (accepts : nat -> bool) (trade_id : string) (k : nat)
    (trades : list trade) : close_reply * list order :=
  match trades with
  | [] => (TradeNotFound, [])
  | trade :: rest =>
      if String.eqb (py_str (t_id trade)) trade_id then
        if negb signs then (ServerError, []) else
        let opposite_side :=
          match t_side trade with BUY => "sell" | _ => "buy" end in
        let sent :=
          {| o_product_id := get_product_id (t_symbol trade);
             o_side := opposite_side;
             o_size := t_size trade;
             o_type := "market_order" |} in
        if accepts k then (TradeClosed trade_id, [sent])
        else
          let '(reply, more) :=
            close_among signs get_product_id accepts trade_id (S k) rest in
          (reply, sent :: more)
      else close_among signs get_product_id accepts trade_id k rest
  end.

(** [POST /api/trades/close/<trade_id>]. *)
Definition close_trade (signs : bool) (get_product_id : string -> option Z)
    (accepts : nat -> bool) (trade_id : string) (st : bot_state)
    : close_reply * list order :=
  close_among signs get_product_id accepts trade_id 0
    (omap (fun r => objects st !! r) (open_trades st)).

(** The process: the bot state of app.py and the mode of config.py. *)
Record server : Type := Server {
  bot : bot_state;
  ENVIRONMENT_MODE : string
}.

Definition set_environment (env : string) (st : bot_state) : bot_state :=
  {| running := running st;
     environment := env;
     account_balance := account_balance st;
     objects := objects st;
     open_trades := open_trades st;
     closed_trades := closed_trades st;
     total_pnl := total_pnl st;
     win_count := win_count st;
     loss_count := loss_count st;
     last_update := last_update st |}.

Inductive switch_reply : Type :=
| EnvironmentSwitched (env : string)
| InvalidEnvironment.

(** [POST /api/control/environment] for a JSON object as body;
    [requested] is its ['environment'], [None] when it has none. *)
Definition switch_environment (requested : option string) (srv : server)
    : switch_reply * server :=
  let env := default "testnet" requested in
  let '(ok, mode) := Config.update_environment env (ENVIRONMENT_MODE srv) in
  if ok : bool then
    (EnvironmentSwitched env,
     {| bot := set_environment env (bot srv); ENVIRONMENT_MODE := mode |})
  else (InvalidEnvironment, srv).

(** The server as the module starts it: [bot_state['environment']] is the
    mode the process was started with. *)
Definition initial_server (mode now : string) : server :=
  {| bot := initial_state mode now; ENVIRONMENT_MODE := mode |}.

End Routes.

(** ** Sequences of requests, and what is stamped on a trade *)

Module Facts.
Import SMCStrategy App Routes.

(** ['closed_at'] is on the closed trades and on no open one. *)
Definition stamped (st : bot_state) : Prop :=
  (forall r t, r ∈ open_trades st -> objects st !! r = Some t ->
     t_closed_at t = None) /\
  (forall r t, r ∈ closed_trades st -> objects st !! r = Some t ->
     is_Some (t_closed_at t)).

(** Successive [POST /api/control/environment] requests. *)
Definition switch_all (requests : list (option string)) (srv : server)
    : server :=
  fold_left (fun srv requested => snd (switch_environment requested srv))
            requests srv.

(** The order [close_trade] sends for a trade. *)
Definition closing_order (get_product_id : string -> option Z) (t : trade)
    : Loop.order :=
  {| Loop.o_product_id := get_product_id (t_symbol t);
     Loop.o_side := match t_side t with BUY => "sell" | _ => "buy" end;
     Loop.o_size := t_size t;
     Loop.o_type := "market_order" |}.

(** The open trades, as [GET /api/trades] lists them. *)
Definition open_list (st : bot_state) : list trade :=
  omap (fun r => objects st !! r) (open_trades st).

(** How two finite floats of one sign compare: by exponent first, then by
    mantissa. *)
Definition lex (e1 e2 : Z) (m1 m2 : positive) : comparison :=
  match e1 ?= e2 with
  | Lt => Lt
  | Gt => Gt
  | Eq => Pos.compare_cont Eq m1 m2
  end.

End Facts.

(** ** More sample inputs *)

Module Samples.
Import SMCStrategy App Client Loop.

(** Three rows: a down candle, an up candle that engulfs it, and a candle
    whose high breaks above both. *)
Definition engulf_then_break : frame :=
  [Candle 0 100 100 90 90 1; Candle 1 85 106 85 106 1;
   Candle 2 106 110 106 107 1].

(** A product list with the two traded symbols, and one whose first entry
    has no symbol. *)
Definition listed_products : list product :=
  [Product (Some "BTCUSD") (Some 27); Product (Some "ETHUSD") (Some 139)].

(** Positions on a symbol the sample ledger does not trade. *)
Definition unrelated_positions : list exchange_position :=
  [ExchangePosition "SOLUSD" (Some 1%float) (Some 0%float)].

(** Fifty flat rows, a down candle that dips below the rolling low, and an
    up candle that engulfs it: all three detectors have an event. *)
Definition all_three : frame :=
  Examples.quiet ++
  [Candle 50 100 110 70 90 1; Candle 51 85 110 85 106 1].

(** A feed for [all_three] whose model answers 0.5 and whose order is
    acknowledged with id 41. *)
Definition neutral_model_feed : feed :=
  {| f_candles := Some all_three;
     f_model := fun _ => Some 0.5%float;
     f_products := Some listed_products;
     f_order_id := Some 41;
     f_now := "t5" |}.

(** A feed with three rows of history. *)
Definition short_feed : feed :=
  {| f_candles := Some engulf_then_break;
     f_model := fun _ => Some 0.9%float;
     f_products := Some listed_products;
     f_order_id := Some 42;
     f_now := "t6" |}.

(** A running bot with three trades open. *)
Definition full_ledger : bot_state :=
  set_running true
    (append_open_trade (Examples.sample_trade 9 "BTCUSD" "t2")
       Examples.sample_ledger).

(** A configuration entry with a secret, and one without. *)
Definition keyed : Config.endpoints :=
  {| Config.delta_api_url := "https://testnet-api.delta.exchange";
     Config.delta_ws_url := "wss://testnet-stream.delta.exchange/ws";
     Config.api_key := Some "key";
     Config.api_secret := Some "secret" |}.

(** A cycle in which the wallet request fails and both symbols are fed. *)
Definition failing_wallet_cycle : cycle_input :=
  {| c_wallet := None;
     c_feeds := [("BTCUSD", neutral_model_feed); ("ETHUSD", short_feed)];
     c_positions := Some Examples.sample_positions;
     c_clock := Examples.sample_clock |}.

End Samples.

(** * Properties *)

Import SMCStrategy.

(** ** Order of floats *)

Section FloatOrder.

Lemma SFcompare_antisym (a b : spec_float) (c : comparison) :
  SFcompare a b = Some c -> SFcompare b a = Some (CompOpp c).
Proof.
  destruct a as [sa|sa| |sa ma ea], b as [sb|sb| |sb mb eb]; simpl;
    try discriminate; intros [= <-];
    try (destruct sa; reflexivity); try (destruct sb; reflexivity);
    try (destruct sa, sb; reflexivity).
  destruct sa, sb; try reflexivity; f_equal;
    rewrite (Z.compare_antisym ea eb);
    destruct (ea ?= eb); simpl; try reflexivity;
    rewrite (Pos.compare_cont_antisym ma mb Eq); simpl;
    try rewrite CompOpp_involutive; reflexivity.
Qed.

(** [x >= y] excludes [x < y]. *)
Lemma ge_not_lt (x y : float) : ge x y = true -> lt x y = false.
Proof.
  unfold ge, lt. rewrite leb_spec, ltb_spec. unfold SFleb, SFltb.
  destruct (SFcompare (Prim2SF y) (Prim2SF x)) as [c|] eqn:E; [|discriminate].
  rewrite (SFcompare_antisym _ _ _ E). destruct c; simpl; congruence.
Qed.

(** [x > y] excludes [x < y]. *)
Lemma gt_not_lt (x y : float) : gt x y = true -> lt x y = false.
Proof.
  unfold gt, lt. rewrite !ltb_spec. unfold SFltb.
  destruct (SFcompare (Prim2SF y) (Prim2SF x)) as [c|] eqn:E; [|discriminate].
  rewrite (SFcompare_antisym _ _ _ E). destruct c; simpl; congruence.
Qed.

End FloatOrder.

(** ** The loops never raise *)

Section Loops.

Lemma bind_Ok {A B} (a : A) (k : A -> outcome B) : (Ok a ≫= k) = k a.
Proof. reflexivity. Qed.

Lemma iloc_Some {A} (col : candle -> A) (df : frame) (i : nat) (c : candle) :
  df !! i = Some c -> iloc col df i = Ok (col c).
Proof. unfold iloc. intros ->. reflexivity. Qed.

(** A loop whose body appends [events i] at every index it visits. *)
Lemma for_each_appends {E} (body : nat -> list E -> outcome (list E))
    (events : nat -> list E) (idx : list nat) :
  (forall i acc, i ∈ idx -> body i acc = Ok (acc ++ events i)) ->
  forall acc, for_each body idx acc = Ok (acc ++ flat_map events idx).
Proof.
  induction idx as [|i idx IH]; intros Hbody acc; simpl.
  - rewrite app_nil_r. reflexivity.
  - rewrite Hbody by left. rewrite IH.
    + rewrite <- app_assoc. reflexivity.
    + intros j acc' Hj. apply Hbody. right. exact Hj.
Qed.

Lemma elem_of_range (a b i : nat) : i ∈ range a b <-> (a <= i < b)%nat.
Proof. unfold range. rewrite elem_of_seq. lia. Qed.

Lemma order_block_step_spec (df : frame) (i : nat) (acc : list order_block) :
  (i < length df)%nat ->
  order_block_step df i acc = Ok (acc ++ Spec.blocks_at df i).
Proof.
  intros Hi. destruct (lookup_lt_is_Some_2 df i Hi) as [c Hc].
  unfold order_block_step, bullish_block_at, bearish_block_at, block_at,
    Spec.blocks_at.
  rewrite !(iloc_Some _ _ _ _ Hc), Hc, !bind_Ok.
  destruct (Nat.ltb_spec (i + 1) (length df)) as [Hn|Hn].
  - destruct (lookup_lt_is_Some_2 df (i + 1) Hn) as [n Hnx].
    rewrite !(iloc_Some _ _ _ _ Hnx), Hnx.
    destruct (gt (close c) (open c)) eqn:G, (lt (close c) (open c)) eqn:L;
      rewrite ?bind_Ok; simpl;
      destruct (lt (close n) (open n)), (gt (close n) (open n));
      simpl; rewrite ?app_nil_r, <- ?app_assoc; reflexivity.
  - rewrite (lookup_ge_None_2 df (i + 1)) by lia.
    destruct (gt (close c) (open c)), (lt (close c) (open c));
      simpl; rewrite ?app_nil_r; reflexivity.
Qed.

Lemma blocks_at_last (df : frame) (i : nat) :
  (length df <= i + 1)%nat -> Spec.blocks_at df i = [].
Proof.
  intros Hi. unfold Spec.blocks_at.
  rewrite (lookup_ge_None_2 df (i + 1)) by lia.
  destruct (df !! i); reflexivity.
Qed.

Lemma detect_order_blocks_spec (df : frame) (lookback : nat) :
  detect_order_blocks df lookback = Ok (Spec.order_blocks df lookback).
Proof.
  unfold detect_order_blocks, for_range.
  rewrite (for_each_appends _ (Spec.blocks_at df)).
  - simpl. f_equal. unfold Spec.order_blocks, range.
    destruct (Nat.le_gt_cases (length df) lookback) as [Hle|Hgt].
    + replace (length df - lookback)%nat with 0%nat by lia.
      replace (length df - 1 - lookback)%nat with 0%nat by lia. reflexivity.
    + replace (length df - lookback)%nat
        with (S (length df - 1 - lookback)) by lia.
      rewrite seq_S, flat_map_app. simpl.
      rewrite blocks_at_last by lia. rewrite !app_nil_r. reflexivity.
  - intros i acc Hi. apply elem_of_range in Hi.
    apply order_block_step_spec. lia.
Qed.

Lemma engulfing_step_spec (df : frame) (i : nat)
    (acc : list engulfing_pattern) :
  (i < length df)%nat ->
  engulfing_step df i acc = Ok (acc ++ engulfing_at df i).
Proof.
  intros Hi. destruct (lookup_lt_is_Some_2 df i Hi) as [c Hc].
  assert (Hp : (i - 1 < length df)%nat) by lia.
  destruct (lookup_lt_is_Some_2 df (i - 1) Hp) as [p Hpx].
  unfold engulfing_step, engulfing_at.
  rewrite !(iloc_Some _ _ _ _ Hc), !(iloc_Some _ _ _ _ Hpx), Hc, Hpx, !bind_Ok.
  destruct (lt (close p) (open p) && gt (close c) (open p)
            && lt (open c) (close p));
    destruct (gt (close p) (open p) && lt (close c) (open p)
              && gt (open c) (close p));
    simpl; rewrite ?app_nil_r, <- ?app_assoc; reflexivity.
Qed.

Lemma detect_engulfing_spec (df : frame) :
  detect_engulfing df = Ok (engulfing_events df).
Proof.
  unfold detect_engulfing, for_range.
  rewrite (for_each_appends _ (engulfing_at df)).
  - reflexivity.
  - intros i acc Hi. apply elem_of_range in Hi.
    apply engulfing_step_spec. lia.
Qed.

(** A loop whose body returns at every index it visits returns. *)
Lemma for_each_returns {S} (body : nat -> S -> outcome S) (idx : list nat) :
  (forall i s, i ∈ idx -> exists s', body i s = Ok s') ->
  forall s, exists s', for_each body idx s = Ok s'.
Proof.
  induction idx as [|i idx IH]; intros Hbody s; simpl.
  - eauto.
  - destruct (Hbody i s) as [s' ->]; [left|].
    apply IH. intros j t Hj. apply Hbody. right. exact Hj.
Qed.

Lemma detect_choch_returns (df : frame) :
  exists choch, detect_choch df = Ok choch.
Proof.
  unfold detect_choch, for_range. apply for_each_returns.
  intros i acc Hi. apply elem_of_range in Hi.
  destruct (lookup_lt_is_Some_2 df i) as [c Hc]; [lia|].
  unfold choch_step. rewrite !(iloc_Some _ _ _ _ Hc), !bind_Ok.
  destruct (gt _ _); [eauto|]. destruct (lt _ _); eauto.
Qed.

Lemma generate_signal_emit (df : frame) (symbol : string) :
  exists choch,
    detect_choch df = Ok choch /\
    generate_signal df symbol =
      Ok (emit df symbol (Spec.order_blocks df 50) choch (engulfing_events df)).
Proof.
  destruct (detect_choch_returns df) as [choch Hc]. exists choch.
  split; [exact Hc|]. unfold generate_signal.
  rewrite detect_order_blocks_spec, Hc, detect_engulfing_spec. reflexivity.
Qed.

End Loops.

(** ** Pattern detectors *)

Section Detectors.
Import Examples.

Lemma blocks_at_agree (df df' : frame) (lookback i : nat) :
  length df' = length df ->
  (forall j, (lookback <= j < length df)%nat -> df' !! j = df !! j) ->
  (lookback <= i)%nat ->
  Spec.blocks_at df' i = Spec.blocks_at df i.
Proof.
  intros Hlen Hsame Hi. unfold Spec.blocks_at.
  destruct (Nat.lt_ge_cases (i + 1) (length df)) as [Hlt|Hge].
  - rewrite !Hsame by lia. reflexivity.
  - rewrite (lookup_ge_None_2 df (i + 1)), (lookup_ge_None_2 df' (i + 1)) by lia.
    destruct (df !! i), (df' !! i); reflexivity.
Qed.

Lemma blocks_at_one (df : frame) (i : nat) (c n : candle) :
  df !! i = Some c -> df !! (i + 1)%nat = Some n ->
  Spec.blocks_at df i =
    if gt (close c) (open c) && lt (close n) (open n)
    then [OrderBlock BULLISH (high c) (low c) (time c) false]
    else if lt (close c) (open c) && gt (close n) (open n)
    then [OrderBlock BEARISH (high c) (low c) (time c) false]
    else [].
Proof.
  intros Hc Hn. unfold Spec.blocks_at. rewrite Hc, Hn.
  destruct (gt (close c) (open c)) eqn:G.
  - rewrite (gt_not_lt _ _ G). simpl.
    destruct (lt (close n) (open n)); reflexivity.
  - reflexivity.
Qed.

(** C8. For every frame [df] of length [L] and every lookback, order block
    detection returns: the lookahead goes to row [i+1] behind the guard
    [i+1 < L] and no further, so nothing outside the frame is read. What
    it returns is, in chronological order, the blocks of the rows [i] in
    [lookback, L-1): exactly one bullish block when [close[i] > open[i]]
    and [close[i+1] < open[i+1]], exactly one bearish block in the
    mirrored case, none otherwise. Only indices below [L-1] are touched in
    this sense: every block comes from a row [i < L-1], the turn of the
    loop at the last row appends nothing, and the block of a row depends
    on that row and the next one only. The result is a function of rows
    [lookback .. L-1] and is the same on every call. *)
Theorem detect_order_blocks_characterised (df : frame) (lookback : nat) :
  detect_order_blocks df lookback = Ok (Spec.order_blocks df lookback) /\
  Spec.order_blocks df lookback =
    flat_map (Spec.blocks_at df) (seq lookback (length df - 1 - lookback)) /\
  (forall i c n, df !! i = Some c -> df !! (i + 1)%nat = Some n ->
     Spec.blocks_at df i =
       if gt (close c) (open c) && lt (close n) (open n)
       then [OrderBlock BULLISH (high c) (low c) (time c) false]
       else if lt (close c) (open c) && gt (close n) (open n)
       then [OrderBlock BEARISH (high c) (low c) (time c) false]
       else []) /\
  (forall b, b ∈ Spec.order_blocks df lookback ->
     exists i, (lookback <= i < length df - 1)%nat /\
               b ∈ Spec.blocks_at df i) /\
  (forall acc, (0 < length df)%nat ->
     order_block_step df (length df - 1) acc = Ok acc) /\
  (forall df' i, df' !! i = df !! i -> df' !! (i + 1)%nat = df !! (i + 1)%nat ->
     Spec.blocks_at df' i = Spec.blocks_at df i) /\
  (forall df',
      length df' = length df ->
      (forall j, (lookback <= j < length df)%nat -> df' !! j = df !! j) ->
      detect_order_blocks df' lookback = detect_order_blocks df lookback) /\
  (forall r1 r2,
      detect_order_blocks df lookback = r1 ->
      detect_order_blocks df lookback = r2 -> r1 = r2).
Proof.
  split; [apply detect_order_blocks_spec|]. split; [reflexivity|].
  split; [apply blocks_at_one|]. split.
  { intros b Hb. unfold Spec.order_blocks in Hb.
    apply list_elem_of_In, in_flat_map in Hb as (i & Hi & Hb).
    apply in_seq in Hi. exists i. split; [lia|].
    apply list_elem_of_In. exact Hb. }
  split.
  { intros acc HL. rewrite order_block_step_spec by lia.
    rewrite blocks_at_last by lia. rewrite app_nil_r. reflexivity. }
  split.
  { intros df' i Hi Hn. unfold Spec.blocks_at. rewrite Hi, Hn. reflexivity. }
  split.
  - intros df' Hlen Hsame. rewrite !detect_order_blocks_spec. f_equal.
    unfold Spec.order_blocks. rewrite Hlen.
    rewrite !flat_map_concat_map. f_equal. apply map_ext_in.
    intros i Hi. apply in_seq in Hi.
    apply (blocks_at_agree df df' lookback); [exact Hlen|exact Hsame|lia].
  - intros r1 r2 <- <-. reflexivity.
Qed.

(** Two frames of two rows: the block of row 0 is decided by the candle of
    row 1, and the turn of the loop at row 1, the last, appends nothing. *)
Example order_block_tests_the_next_row :
  detect_order_blocks up_then_down 0 =
    Ok [OrderBlock BULLISH 110 100 0 false] /\
  detect_order_blocks up_then_up 0 = Ok [] /\
  order_block_step up_then_down 1 [] = Ok [].
Proof. repeat split; reflexivity. Qed.

Lemma elem_of_flat_map {A B} (f : A -> list B) (l : list A) (a : A) (b : B) :
  a ∈ l -> b ∈ f a -> b ∈ flat_map f l.
Proof.
  intros Ha Hb. apply list_elem_of_In, in_flat_map.
  exists a. split; apply list_elem_of_In; assumption.
Qed.

(** C9, as the code has it. Whenever a bullish engulfing fires at row
    [i+1] (row [i] closes below its open, row [i+1] closes above that open
    and opens below that close), detection returns and its result holds
    the event of row [i+1] with strength exactly
    [(close[i+1] - open[i+1]) / (close[i] - open[i])]: the signed ratio
    over the negative prior body. *)
Theorem bullish_engulfing_strength (df : frame) (i : nat) (p c : candle) :
  df !! i = Some p ->
  df !! S i = Some c ->
  lt (close p) (open p) = true ->
  gt (close c) (open p) = true ->
  lt (open c) (close p) = true ->
  exists events,
    detect_engulfing df = Ok events /\
    EngulfingPattern BULLISH_ENGULFING (time c)
      ((close c - open c) / (close p - open p))%float ∈ events.
Proof.
  intros Hp Hc H1 H2 H3. exists (engulfing_events df).
  split; [apply detect_engulfing_spec|].
  apply (elem_of_flat_map _ _ (S i)).
  - apply elem_of_seq. apply lookup_lt_Some in Hc. lia.
  - unfold engulfing_at. replace (S i - 1)%nat with i by lia.
    rewrite Hp, Hc, H1, H2, H3. simpl. left.
Qed.

Lemma bullish_engulfing_strength_witness :
  exists events,
    detect_engulfing bullish_engulfing_pair = Ok events /\
    EngulfingPattern BULLISH_ENGULFING 1 (-2.1)%float ∈ events.
Proof.
  exact (bullish_engulfing_strength bullish_engulfing_pair 0
           (Candle 0 100 100 90 90 1) (Candle 1 85 106 85 106 1)
           eq_refl eq_refl eq_refl eq_refl eq_refl).
Defined.

(** C9, the quoted pair does not fire: with previous open=100, close=90
    and current open=95, close=102 the current open is not below the
    previous close, and the detector emits nothing. *)
Lemma quoted_engulfing_pair_emits_nothing :
  detect_engulfing quoted_engulfing_pair = Ok [] /\
  lt 95 90 = false.
Proof. split; reflexivity. Qed.

Lemma bearish_engulfing_emitted (df : frame) (i : nat) (p c : candle) :
  df !! i = Some p ->
  df !! S i = Some c ->
  gt (close p) (open p) = true ->
  lt (close c) (open p) = true ->
  gt (open c) (close p) = true ->
  EngulfingPattern BEARISH_ENGULFING (time c)
    ((open c - close c) / (open c - open p))%float ∈ engulfing_events df.
Proof.
  intros Hp Hc H1 H2 H3. apply (elem_of_flat_map _ _ (S i)).
  - apply elem_of_seq. apply lookup_lt_Some in Hc. lia.
  - unfold engulfing_at. replace (S i - 1)%nat with i by lia.
    rewrite Hp, Hc, H1, H2, H3. simpl.
    apply elem_of_app. right. left.
Qed.

(** C5, the code at a bearish engulfing. Wherever one fires, the emitted
    strength is [(open[i] - close[i]) / (open[i] - open[i-1])]: the divisor
    is current open minus previous open, not a body. With previous
    open=100, close=110 and current open=120, close=80 that is
    [(120 - 80) / (120 - 100) = 2], where the ratio of the two bodies, the
    bullish formula mirrored, is [(120 - 80) / (100 - 110) = -4]; the
    emitted 2 is neither that nor its magnitude. *)
Theorem bearish_engulfing_strength_is_not_body_ratio :
  (forall df i p c,
     df !! i = Some p -> df !! S i = Some c ->
     gt (close p) (open p) = true ->
     lt (close c) (open p) = true ->
     gt (open c) (close p) = true ->
     exists events,
       detect_engulfing df = Ok events /\
       EngulfingPattern BEARISH_ENGULFING (time c)
         ((open c - close c) / (open c - open p))%float ∈ events) /\
  detect_engulfing bearish_engulfing_pair =
    Ok [EngulfingPattern BEARISH_ENGULFING 1 2%float] /\
  ((120 - 80) / (120 - 100) = 2)%float /\
  Spec.bearish_body_ratio (Candle 0 100 110 100 110 1)
                          (Candle 1 120 120 80 80 1) = (-4)%float /\
  PrimFloat.eqb 2 (-4) = false /\
  PrimFloat.eqb 2 4 = false.
Proof.
  split.
  - intros df i p c Hp Hc H1 H2 H3. exists (engulfing_events df).
    split; [apply detect_engulfing_spec|].
    apply (bearish_engulfing_emitted df i p c); assumption.
  - repeat split; reflexivity.
Qed.

End Detectors.

(** ** Signal fusion *)

Section Fusion.
Import Examples.

Lemma list_last_cases {A} (l : list A) :
  l = [] \/ exists l' x, l = l' ++ [x].
Proof. destruct l using rev_ind; eauto. Qed.

Lemma weight_snoc {A} (w : float) (l : list A) (x : A) :
  Spec.weight w (l ++ [x]) = w.
Proof. destruct l; reflexivity. Qed.

Ltac split_events l :=
  let x := fresh "x" in
  destruct (list_last_cases l) as [->|(? & x & ->)];
  [|rewrite ?last_snoc, ?weight_snoc].

Ltac by_polarity :=
  repeat match goal with
  | b : order_block |- _ => destruct b as [[] ? ? ? ?]
  | c : choch_point |- _ => destruct c as [[] ? ?]
  | e : engulfing_pattern |- _ => destruct e as [[] ? ?]
  end.

(** The strength and direction the three blocks leave are the sum of the
    weights and the direction of the first detector, in the order order
    block, CHoCH, engulfing, that has an event. *)
Lemma fuse_spec (obs : list order_block) (chs : list choch_point)
    (engs : list engulfing_pattern) :
  fuse obs chs engs =
    (Spec.strength obs chs engs, Spec.direction_of obs chs engs).
Proof.
  unfold fuse, fuse_engulfing, fuse_choch, fuse_order_blocks,
    Spec.strength, Spec.direction_of.
  split_events obs; split_events chs; split_events engs;
    by_polarity; reflexivity.
Qed.

Lemma strength_values (obs : list order_block) (chs : list choch_point)
    (engs : list engulfing_pattern) :
  Spec.strength obs chs engs ∈
    [0; 0.3; 0.4; 0.6; 0.7; 1.0]%float.
Proof.
  unfold Spec.strength.
  split_events obs; split_events chs; split_events engs;
    apply list_elem_of_In; vm_compute; auto 10.
Qed.

Lemma emit_spec (df : frame) (symbol : string) (obs : list order_block)
    (chs : list choch_point) (engs : list engulfing_pattern) :
  emit df symbol obs chs engs =
    if ge (Spec.strength obs chs engs) 0.5 then
      Some {| sig_symbol := symbol;
              sig_direction := Spec.direction_of obs chs engs;
              sig_confidence := min (Spec.strength obs chs engs) 1.0;
              sig_order_blocks := last_n 3 obs;
              sig_choch := last chs;
              sig_engulfing := last engs;
              sig_timestamp := last (map time df);
              sig_entry_price := None |}
    else None.
Proof. unfold emit. rewrite fuse_spec. reflexivity. Qed.

Lemma confidence_bounds (s : float) :
  s ∈ [0; 0.3; 0.4; 0.6; 0.7; 1.0]%float ->
  ge s 0.5 = true ->
  ge (min s 1.0) 0.5 = true /\ PrimFloat.leb (min s 1.0) 1.0 = true /\
  lt (min s 1.0) 0.5 = false.
Proof.
  intros Hs Hge. repeat (apply elem_of_cons in Hs as [->|Hs]);
    try (vm_compute in Hge; discriminate);
    try (repeat split; reflexivity).
  apply elem_of_nil in Hs. contradiction.
Qed.

(** C6. For every frame and symbol the three detectors return, and
    [generate_signal] returns a signal exactly when the accumulated
    strength (0.4 for an order block, plus 0.3 for a CHoCH, plus 0.3 for an
    engulfing event) is at least 0.5. An emitted signal has confidence
    [min(strength, 1.0)], which lies in [0.5, 1.0]. With a bearish order
    block and no other event the strength is 0.4 and there is no signal. *)
Theorem generate_signal_gate (df : frame) (symbol : string) :
  exists obs chs engs r,
    detect_order_blocks df 50 = Ok obs /\
    detect_choch df = Ok chs /\
    detect_engulfing df = Ok engs /\
    generate_signal df symbol = Ok r /\
    fst (fuse obs chs engs) = Spec.strength obs chs engs /\
    (is_Some r <-> ge (Spec.strength obs chs engs) 0.5 = true) /\
    (forall sg, r = Some sg ->
       sig_confidence sg = min (Spec.strength obs chs engs) 1.0 /\
       ge (sig_confidence sg) 0.5 = true /\
       PrimFloat.leb (sig_confidence sg) 1.0 = true) /\
    (forall b, last obs = Some b -> ob_kind b = BEARISH ->
       chs = [] -> engs = [] ->
       Spec.strength obs chs engs = 0.4%float /\ r = None).
Proof.
  destruct (generate_signal_emit df symbol) as (chs & Hchs & Hgen).
  exists (Spec.order_blocks df 50), chs, (engulfing_events df),
    (emit df symbol (Spec.order_blocks df 50) chs (engulfing_events df)).
  split; [apply detect_order_blocks_spec|]. split; [exact Hchs|].
  split; [apply detect_engulfing_spec|]. split; [exact Hgen|].
  generalize (Spec.order_blocks df 50) (engulfing_events df).
  intros obs engs.
  split; [rewrite fuse_spec; reflexivity|].
  rewrite emit_spec.
  pose proof (strength_values obs chs engs) as Hs.
  split; [|split].
  - destruct (ge (Spec.strength obs chs engs) 0.5); split; intros H;
      try reflexivity; try discriminate; eauto.
    destruct H as [? H]. discriminate.
  - intros sg Hsg.
    destruct (ge (Spec.strength obs chs engs) 0.5) eqn:Hge; [|discriminate].
    injection Hsg as <-. simpl.
    destruct (confidence_bounds _ Hs Hge) as (? & ? & _). auto.
  - intros b Hb Hk -> ->. unfold Spec.strength.
    destruct (list_last_cases obs) as [E|(l & x & E)]; rewrite E in *.
    + discriminate.
    + rewrite weight_snoc. split; reflexivity.
Qed.

Example bearish_block_only_gives_no_signal :
  detect_order_blocks bearish_block_only 50 =
    Ok [OrderBlock BEARISH 110 80 50 false] /\
  detect_choch bearish_block_only = Ok [] /\
  detect_engulfing bearish_block_only = Ok [] /\
  generate_signal bearish_block_only "BTCUSD" = Ok None.
Proof. repeat split; vm_compute; reflexivity. Qed.

(** C7. The signal's direction is the latest order block's when there is
    one, else the latest CHoCH's, else the latest engulfing's: the order
    block step overwrites the direction whatever it was, the CHoCH and
    engulfing steps leave a direction that is not NEUTRAL alone. A bearish
    order block with a bearish CHoCH and no engulfing gives strength 0.7
    and an emitted signal with direction SELL and confidence 0.7. *)
Theorem fusion_direction_precedence (df : frame) (symbol : string) :
  exists obs chs engs r,
    detect_order_blocks df 50 = Ok obs /\
    detect_choch df = Ok chs /\
    detect_engulfing df = Ok engs /\
    generate_signal df symbol = Ok r /\
    (forall sg, r = Some sg ->
       sig_direction sg = Spec.direction_of obs chs engs) /\
    snd (fuse obs chs engs) = Spec.direction_of obs chs engs /\
    (forall s d b, last obs = Some b ->
       snd (fuse_order_blocks obs (s, d)) = Spec.ob_direction b) /\
    (forall s d, d <> NEUTRAL ->
       snd (fuse_choch chs (s, d)) = d /\
       snd (fuse_engulfing engs (s, d)) = d) /\
    (forall b c, last obs = Some b -> ob_kind b = BEARISH ->
       last chs = Some c -> ch_kind c = BEARISH_CHOCH -> engs = [] ->
       fuse obs chs engs = (0.7%float, SELL) /\
       exists sg, r = Some sg /\ sig_direction sg = SELL /\
                  sig_confidence sg = 0.7%float).
Proof.
  destruct (generate_signal_emit df symbol) as (chs & Hchs & Hgen).
  exists (Spec.order_blocks df 50), chs, (engulfing_events df),
    (emit df symbol (Spec.order_blocks df 50) chs (engulfing_events df)).
  split; [apply detect_order_blocks_spec|]. split; [exact Hchs|].
  split; [apply detect_engulfing_spec|]. split; [exact Hgen|].
  generalize (Spec.order_blocks df 50) (engulfing_events df).
  intros obs engs. rewrite emit_spec.
  split; [|split; [|split; [|split]]].
  - intros sg Hsg. destruct (ge _ _); [|discriminate].
    injection Hsg as <-. reflexivity.
  - rewrite fuse_spec. reflexivity.
  - intros s d b Hb. unfold fuse_order_blocks, Spec.ob_direction.
    rewrite Hb. destruct (ob_kind b); reflexivity.
  - intros s d Hd. unfold fuse_choch, fuse_engulfing. split.
    + destruct (last chs) as [[[] ? ?]|]; destruct d; simpl; congruence.
    + destruct (last engs) as [[[] ? ?]|]; destruct d; simpl; congruence.
  - intros b c Hb Hkb Hc Hkc ->.
    assert (Hf : (Spec.strength obs chs [], Spec.direction_of obs chs [])
                 = (0.7%float, SELL)).
    { unfold Spec.strength, Spec.direction_of, Spec.ob_direction.
      rewrite Hb, Hkb.
      destruct (list_last_cases obs) as [E|(? & ? & E)];
        rewrite E in *; [discriminate|].
      destruct (list_last_cases chs) as [E'|(? & ? & E')];
        rewrite E' in *; [discriminate|].
      rewrite !weight_snoc. reflexivity. }
    rewrite fuse_spec. split; [exact Hf|].
    injection Hf as -> ->. eexists. split; [reflexivity|].
    split; reflexivity.
Qed.

Example bearish_block_and_choch_gives_sell :
  detect_order_blocks bearish_block_and_choch 50 =
    Ok [OrderBlock BEARISH 110 70 50 false] /\
  detect_choch bearish_block_and_choch =
    Ok [ChochPoint BEARISH_CHOCH 70 50] /\
  detect_engulfing bearish_block_and_choch = Ok [] /\
  generate_signal bearish_block_and_choch "BTCUSD" =
    Ok (Some {| sig_symbol := "BTCUSD";
                sig_direction := SELL;
                sig_confidence := 0.7;
                sig_order_blocks := [OrderBlock BEARISH 110 70 50 false];
                sig_choch := Some (ChochPoint BEARISH_CHOCH 70 50);
                sig_engulfing := None;
                sig_timestamp := Some 51;
                sig_entry_price := None |}).
Proof. repeat split; vm_compute; reflexivity. Qed.

End Fusion.

(** ** Risk sizing *)

Section RiskSizer.
Import Examples.

(** C1, as the code has it. With balance 10000, the default risk
    parameters (maxRiskPerTrade 0.01, maxPositionSize 0.05, rewardRiskRatio
    2.0), a BUY signal of confidence at least 0.5 and entry price 20000,
    the plan has riskAmount 100, stopLoss 19600, size 0.025 (the smaller of
    the raw size 100/400 = 0.25 and the cap 500/20000 = 0.025),
    takeProfit 20000 * (1 + 2.0 * 0.02) = 20800 and potentialProfit
    0.025 * 800 = 20. *)
Theorem calculate_position_worked_example (sg : signal) :
  sig_direction sg = BUY ->
  ge (sig_confidence sg) 0.5 = true ->
  sig_entry_price sg = Some 20000%float ->
  calculate_position RISK_PARAMS (Some sg) 10000 =
    Ok (Some {| entry_price := 20000;
                stop_loss := 19600;
                take_profit := 20800;
                position_size := 0.025;
                side := BUY;
                risk_amount := 100;
                potential_profit := 20 |}) /\
  truediv 100 (PrimFloat.abs (20000 - 19600)) = Ok 0.25%float /\
  truediv (10000 * 0.05) 20000 = Ok 0.025%float /\
  min 0.25 0.025 = 0.025%float.
Proof.
  intros Hd Hc He. split; [|repeat split; reflexivity].
  unfold calculate_position.
  rewrite (ge_not_lt _ _ Hc), Hd, He. reflexivity.
Qed.

Lemma calculate_position_worked_example_witness :
  calculate_position RISK_PARAMS (Some buy_at_20000) 10000 =
    Ok (Some {| entry_price := 20000;
                stop_loss := 19600;
                take_profit := 20800;
                position_size := 0.025;
                side := BUY;
                risk_amount := 100;
                potential_profit := 20 |}) /\
  truediv 100 (PrimFloat.abs (20000 - 19600)) = Ok 0.25%float /\
  truediv (10000 * 0.05) 20000 = Ok 0.025%float /\
  min 0.25 0.025 = 0.025%float.
Proof.
  exact (calculate_position_worked_example buy_at_20000
           eq_refl eq_refl eq_refl).
Defined.

(** C1, the claimed target and profit fail: at the claim's input the plan
    has takeProfit 20800 and potentialProfit 20, not 21600 and 40. *)
Lemma calculate_position_claimed_target_fails :
  exists p,
    calculate_position RISK_PARAMS (Some buy_at_20000) 10000 = Ok (Some p) /\
    take_profit p = 20800%float /\ take_profit p <> 21600%float /\
    potential_profit p = 20%float /\ potential_profit p <> 40%float.
Proof.
  eexists. split; [reflexivity|]. simpl.
  split; [reflexivity|]. split.
  - intros H. apply (f_equal (fun x => PrimFloat.eqb x 21600)) in H.
    vm_compute in H. discriminate.
  - split; [reflexivity|]. intros H.
    apply (f_equal (fun x => PrimFloat.eqb x 40)) in H.
    vm_compute in H. discriminate.
Qed.

Lemma emit_Some (df : frame) (symbol : string) (obs : list order_block)
    (chs : list choch_point) (engs : list engulfing_pattern) (sg : signal) :
  emit df symbol obs chs engs = Some sg ->
  sig_entry_price sg = None /\ lt (sig_confidence sg) 0.5 = false.
Proof.
  rewrite emit_spec. intros H.
  destruct (ge (Spec.strength obs chs engs) 0.5) eqn:Hge; [|discriminate].
  injection H as <-. simpl. split; [reflexivity|].
  apply (confidence_bounds _ (strength_values obs chs engs) Hge).
Qed.

End RiskSizer.

(** ** The trade ledger *)

Import App.

Section Ledger.
Import Examples.

Variable dict_eq : trade -> trade -> bool.

(** Two equal trade dicts have the same ['status']. *)
Hypothesis dict_eq_status :
  forall a b, dict_eq a b = true -> t_status a = t_status b.

Lemma filter_ne_absent (r : ref) (l : list ref) :
  r ∉ l -> filter (fun r' => r' <> r) l = l.
Proof.
  induction l as [|a l IH]; intros Hr; [reflexivity|].
  apply not_elem_of_cons in Hr as [Hne Hr].
  rewrite filter_cons_True by congruence. rewrite IH by exact Hr. reflexivity.
Qed.

(** On a list without repeats whose other items differ from [r] as dicts,
    [remove] takes out [r] itself. *)
Lemma list_remove_self (objs : list trade) (r : ref) (l : list ref) :
  NoDup l -> r ∈ l ->
  (forall r', r' ∈ l -> r' <> r -> same_item dict_eq objs r' r = false) ->
  list_remove dict_eq objs r l = Some (filter (fun r' => r' <> r) l).
Proof.
  induction l as [|a l IH]; intros Hnd Hr Hother.
  - apply elem_of_nil in Hr. contradiction.
  - apply NoDup_cons in Hnd as [Ha Hnd]. simpl.
    destruct (decide (a = r)) as [->|Hne].
    + unfold same_item. rewrite Nat.eqb_refl. simpl.
      rewrite filter_cons_False by tauto.
      rewrite filter_ne_absent by exact Ha. reflexivity.
    + rewrite Hother; [|left|exact Hne].
      apply elem_of_cons in Hr as [Hr|Hr]; [congruence|].
      rewrite IH; [|exact Hnd|exact Hr|].
      * rewrite filter_cons_True by exact Hne. reflexivity.
      * intros r' Hr' Hne'. apply Hother; [right; exact Hr'|exact Hne'].
Qed.

Lemma same_item_status (objs : list trade) (r' r : ref) (a b : trade) :
  r' <> r -> objs !! r' = Some a -> objs !! r = Some b ->
  t_status a <> t_status b ->
  same_item dict_eq objs r' r = false.
Proof.
  intros Hne Ha Hb Hst. unfold same_item. rewrite Ha, Hb.
  apply Nat.eqb_neq in Hne. rewrite Hne. simpl.
  destruct (dict_eq a b) eqn:E; [|reflexivity].
  apply dict_eq_status in E. contradiction.
Qed.

Lemma bot_state_eta (st : bot_state) :
  st = {| running := running st;
          environment := environment st;
          account_balance := account_balance st;
          objects := objects st;
          open_trades := open_trades st;
          closed_trades := closed_trades st;
          total_pnl := total_pnl st;
          win_count := win_count st;
          loss_count := loss_count st;
          last_update := last_update st |}.
Proof. destruct st; reflexivity. Qed.

(** One iteration of the reconciliation loop does to the ledger what the
    specification says of one trade. *)
Lemma update_trade_spec (ps : list exchange_position) (now : string)
    (r : ref) (t : trade) (st : bot_state) :
  ledger_ok st -> r ∈ open_trades st -> objects st !! r = Some t ->
  update_trade dict_eq ps now r st = Spec.reconcile_trade ps now r t st.
Proof.
  intros Hok Hr Ht. unfold update_trade, Spec.reconcile_trade,
    Spec.reconciled, Spec.closes. rewrite Ht.
  destruct (matching_position ps (t_symbol t)) as [pos|]; simpl.
  2:{ rewrite list_insert_id by exact Ht. apply bot_state_eta. }
  destruct (PrimFloat.eqb (default 0%float (pos_size pos)) 0); simpl.
  2:{ reflexivity. }
  unfold close_matched. cbn [store objects open_trades].
  rewrite list_insert_insert_eq.
  rewrite (list_remove_self _ r (open_trades st)).
  - cbn. destruct (PrimFloat.ltb _ _); reflexivity.
  - destruct Hok as [Hnd _ _ _]. apply NoDup_app in Hnd. tauto.
  - exact Hr.
  - intros r' Hr' Hne. destruct Hok as [_ Hopen _ _].
    destruct (Hopen r' Hr') as (a & Ha & Hsta).
    eapply same_item_status; [exact Hne| | |].
    + rewrite list_lookup_insert_ne by congruence. exact Ha.
    + apply list_lookup_insert_eq. eapply lookup_lt_Some. exact Ht.
    + rewrite Hsta. simpl. discriminate.
Qed.

Lemma reconciled_status (ps : list exchange_position) (now : string)
    (t : trade) :
  t_status (Spec.reconciled ps now t) =
    if Spec.closes ps t then CLOSED else t_status t.
Proof.
  unfold Spec.reconciled, Spec.closes.
  destruct (matching_position ps (t_symbol t)) as [pos|]; [|reflexivity].
  simpl. destruct (PrimFloat.eqb _ _); reflexivity.
Qed.

Lemma reconciled_pnl (ps : list exchange_position) (now : string)
    (t : trade) :
  t_pnl (Spec.reconciled ps now t) = Spec.reported_pnl ps t.
Proof.
  unfold Spec.reconciled, Spec.reported_pnl.
  destruct (matching_position ps (t_symbol t)) as [pos|]; reflexivity.
Qed.

Lemma reconcile_trade_ok (ps : list exchange_position) (now : string)
    (r : ref) (t : trade) (st : bot_state) :
  ledger_ok st -> r ∈ open_trades st -> objects st !! r = Some t ->
  ledger_ok (Spec.reconcile_trade ps now r t st).
Proof.
  intros [Hnd Hopen Hclosed Hcount] Hr Ht.
  assert (Hlt : (r < length (objects st))%nat)
    by (eapply lookup_lt_Some; exact Ht).
  assert (Hst : t_status t = OPEN).
  { destruct (Hopen r Hr) as (t' & Ht' & Hs). congruence. }
  apply NoDup_app in Hnd as (Hnd1 & Hsep & Hnd2).
  pose proof (reconciled_status ps now t) as Hrs.
  unfold Spec.reconcile_trade.
  destruct (Spec.closes ps t) eqn:Hc; constructor; cbn.
  - apply NoDup_app. split; [apply NoDup_filter; exact Hnd1|]. split.
    + intros x Hx Hx'. apply list_elem_of_filter in Hx as [Hne Hx].
      apply elem_of_app in Hx' as [Hx'|Hx'].
      * exact (Hsep x Hx Hx').
      * apply list_elem_of_singleton in Hx'. contradiction.
    + apply NoDup_app. split; [exact Hnd2|]. split.
      * intros x Hx Hx'. apply list_elem_of_singleton in Hx'. subst x.
        exact (Hsep r Hr Hx).
      * apply NoDup_singleton.
  - intros x Hx. apply list_elem_of_filter in Hx as [Hne Hx].
    rewrite list_lookup_insert_ne by congruence. apply Hopen. exact Hx.
  - intros x Hx. apply elem_of_app in Hx as [Hx|Hx].
    + assert (x <> r) by (intros ->; exact (Hsep r Hr Hx)).
      rewrite list_lookup_insert_ne by congruence. apply Hclosed. exact Hx.
    + apply list_elem_of_singleton in Hx. subst x.
      rewrite list_lookup_insert_eq by exact Hlt. eauto.
  - rewrite length_app. simpl.
    destruct (PrimFloat.ltb _ _); simpl; lia.
  - apply NoDup_app. auto.
  - intros x Hx. destruct (decide (x = r)) as [->|Hne].
    + rewrite list_lookup_insert_eq by exact Hlt.
      eexists. split; [reflexivity|]. congruence.
    + rewrite list_lookup_insert_ne by congruence. apply Hopen. exact Hx.
  - intros x Hx.
    assert (x <> r) by (intros ->; exact (Hsep r Hr Hx)).
    rewrite list_lookup_insert_ne by congruence. apply Hclosed. exact Hx.
  - exact Hcount.
Qed.

Lemma filter_ext_elem {A} (P Q : A -> Prop) `{forall x, Decision (P x)}
    `{forall x, Decision (Q x)} (l : list A) :
  (forall x, x ∈ l -> P x <-> Q x) -> filter P l = filter Q l.
Proof.
  induction l as [|a l IH]; intros Hext; [reflexivity|].
  assert (IH' : filter P l = filter Q l).
  { apply IH. intros x Hx. apply Hext. right. exact Hx. }
  destruct (decide (P a)) as [Hp|Hp].
  - rewrite !filter_cons_True; [congruence| |exact Hp].
    apply Hext; [left|exact Hp].
  - rewrite !filter_cons_False; [exact IH'| |exact Hp].
    intros Hq. apply Hp. apply Hext; [left|exact Hq].
Qed.

Lemma filter_all {A} (P : A -> Prop) `{forall x, Decision (P x)} (l : list A) :
  (forall x, x ∈ l -> P x) -> filter P l = l.
Proof.
  induction l as [|a l IH]; intros Hall; [reflexivity|].
  rewrite filter_cons_True by (apply Hall; left).
  rewrite IH; [reflexivity|]. intros x Hx. apply Hall. right. exact Hx.
Qed.

Lemma closes_ref_lookup (ps : list exchange_position) (objs : list trade)
    (r : ref) (t : trade) :
  objs !! r = Some t -> Spec.closes_ref ps objs r = Spec.closes ps t.
Proof. unfold Spec.closes_ref. intros ->. reflexivity. Qed.

Lemma pnl_ref_lookup (ps : list exchange_position) (objs : list trade)
    (r : ref) (t : trade) :
  objs !! r = Some t -> Spec.pnl_ref ps objs r = Spec.reported_pnl ps t.
Proof. unfold Spec.pnl_ref. intros ->. reflexivity. Qed.

(** The loop over a snapshot, read against the objects [objs0] as they
    were when the pass began. *)
Lemma update_each_spec (ps : list exchange_position) (clock : nat -> string)
    (objs0 : list trade) (snapshot : list ref) :
  forall (k : nat) (st : bot_state),
    ledger_ok st -> NoDup snapshot ->
    (forall r, r ∈ snapshot ->
       r ∈ open_trades st /\ objects st !! r = objs0 !! r) ->
    let st' := update_each dict_eq ps clock k snapshot st in
    let closing :=
      filter (fun r => Spec.closes_ref ps objs0 r = true) snapshot in
    let pnl := Spec.pnl_ref ps objs0 in
    ledger_ok st' /\
    open_trades st' = filter (fun r => r ∉ closing) (open_trades st) /\
    closed_trades st' = closed_trades st ++ closing /\
    (forall j r t, snapshot !! j = Some r -> objs0 !! r = Some t ->
       objects st' !! r = Some (Spec.reconciled ps (clock (k + j)%nat) t)) /\
    (forall r, r ∉ snapshot -> objects st' !! r = objects st !! r) /\
    total_pnl st' =
      fold_left (fun acc r => (acc + pnl r)%float) closing (total_pnl st) /\
    win_count st' =
      win_count st +
      Z.of_nat (length (filter (fun r => gt (pnl r) 0 = true) closing)) /\
    loss_count st' =
      loss_count st +
      Z.of_nat (length (filter (fun r => gt (pnl r) 0 = false) closing)).
Proof.
  induction snapshot as [|r rest IH]; intros k st Hok Hnd Hsnap.
  - cbn. split; [exact Hok|]. split.
    { symmetry. apply filter_all. intros x _. apply not_elem_of_nil. }
    rewrite app_nil_r. repeat split; try reflexivity; try lia.
    intros j r t Hj. discriminate.
  - apply NoDup_cons in Hnd as [Hr_rest Hnd].
    destruct (Hsnap r) as [Hr Hr0]; [left|].
    destruct (ok_open st Hok r Hr) as (t & Ht & Hst).
    assert (Ht0 : objs0 !! r = Some t) by congruence.
    cbn [update_each].
    rewrite (update_trade_spec ps (clock k) r t st Hok Hr Ht).
    pose proof (reconcile_trade_ok ps (clock k) r t st Hok Hr Ht) as Hok1.
    set (st1 := Spec.reconcile_trade ps (clock k) r t st) in *.
    assert (Hobj1 : forall x, x <> r -> objects st1 !! x = objects st !! x).
    { intros x Hx. subst st1. cbn. apply list_lookup_insert_ne. congruence. }
    assert (Hrest : forall x, x ∈ rest ->
              x ∈ open_trades st1 /\ objects st1 !! x = objs0 !! x).
    { intros x Hx. assert (x <> r) by (intros ->; contradiction).
      destruct (Hsnap x) as [Hxo Hx0]; [right; exact Hx|].
      split; [|rewrite Hobj1 by assumption; exact Hx0].
      subst st1. cbn. destruct (Spec.closes ps t); [|exact Hxo].
      apply list_elem_of_filter. auto. }
    destruct (IH (S k) st1 Hok1 Hnd Hrest)
      as (Hok' & Hopen' & Hclosed' & Hobjs' & Hrest' & Htot' & Hwin' & Hloss').
    clear IH. cbn zeta.
    rewrite filter_cons, (closes_ref_lookup ps objs0 r t Ht0).
    set (crest := filter (fun r => Spec.closes_ref ps objs0 r = true) rest) in *.
    split; [exact Hok'|].
    assert (Hobjects :
      (forall j x t', (r :: rest) !! j = Some x -> objs0 !! x = Some t' ->
         objects (update_each dict_eq ps clock (S k) rest st1) !! x =
           Some (Spec.reconciled ps (clock (k + j)%nat) t')) /\
      (forall x, x ∉ r :: rest ->
         objects (update_each dict_eq ps clock (S k) rest st1) !! x =
           objects st !! x)).
    { split.
      - intros [|j] x t' Hj Hx0; cbn in Hj.
        + injection Hj as <-. rewrite Hrest' by exact Hr_rest.
          subst st1. cbn. rewrite Nat.add_0_r.
          rewrite list_lookup_insert_eq by (eapply lookup_lt_Some; exact Ht).
          congruence.
        + replace (k + S j)%nat with (S k + j)%nat by lia.
          apply Hobjs'; assumption.
      - intros x Hx. apply not_elem_of_cons in Hx as [Hne Hx].
        rewrite Hrest' by exact Hx. apply Hobj1. exact Hne. }
    destruct Hobjects as [Hobjects1 Hobjects2].
    rewrite Hopen', Hclosed', Htot', Hwin', Hloss'. subst st1. cbn.
    destruct (Spec.closes ps t) eqn:Hc.
    + destruct (decide (true = true)) as [_|]; [|congruence].
      rewrite list_filter_filter.
      split.
      { apply list_filter_iff. intros x. rewrite not_elem_of_cons. tauto. }
      split; [rewrite <- app_assoc; reflexivity|].
      split; [exact Hobjects1|]. split; [exact Hobjects2|].
      rewrite !filter_cons. cbn [fold_left].
      rewrite !(pnl_ref_lookup ps objs0 r t Ht0), !reconciled_pnl.
      split; [reflexivity|]. destruct (PrimFloat.ltb 0 (Spec.reported_pnl ps t));
        simpl;
        repeat match goal with
        | |- context [decide ?P] => destruct (decide P); try congruence
        end; cbn [length]; lia.
    + destruct (decide (false = true)) as [|_]; [congruence|].
      repeat split; try reflexivity; assumption.
Qed.

Lemma initial_state_ok (env now : string) : ledger_ok (initial_state env now).
Proof.
  constructor; cbn.
  - apply NoDup_nil_2.
  - intros r Hr. apply elem_of_nil in Hr. contradiction.
  - intros r Hr. apply elem_of_nil in Hr. contradiction.
  - lia.
Qed.

Lemma ledger_refs_allocated (st : bot_state) (r : ref) :
  ledger_ok st -> r ∈ open_trades st ++ closed_trades st ->
  (r < length (objects st))%nat.
Proof.
  intros Hok Hr. apply elem_of_app in Hr as [Hr|Hr].
  - destruct (ok_open st Hok r Hr) as (t & Ht & _).
    eapply lookup_lt_Some. exact Ht.
  - destruct (ok_closed st Hok r Hr) as (t & Ht & _).
    eapply lookup_lt_Some. exact Ht.
Qed.

Lemma append_open_trade_ok (t : trade) (st : bot_state) :
  t_status t = OPEN -> ledger_ok st -> ledger_ok (append_open_trade t st).
Proof.
  intros Ht Hok.
  assert (Hfresh : length (objects st) ∉ open_trades st ++ closed_trades st).
  { intros Hin. apply (ledger_refs_allocated st _ Hok) in Hin. lia. }
  destruct Hok as [Hnd Hopen Hclosed Hcount]. constructor; cbn.
  - rewrite <- app_assoc. apply NoDup_app in Hnd as (Hnd1 & Hsep & Hnd2).
    apply NoDup_app. split; [exact Hnd1|]. split.
    + intros x Hx Hx'. apply elem_of_cons in Hx' as [->|Hx'].
      * apply Hfresh. apply elem_of_app. left. exact Hx.
      * exact (Hsep x Hx Hx').
    + apply NoDup_cons. split; [|exact Hnd2].
      intros Hin. apply Hfresh. apply elem_of_app. right. exact Hin.
  - intros r Hr. apply elem_of_app in Hr as [Hr|Hr].
    + destruct (Hopen r Hr) as (t' & Ht' & Hs). exists t'.
      split; [|exact Hs]. rewrite lookup_app_l; [exact Ht'|].
      eapply lookup_lt_Some. exact Ht'.
    + apply list_elem_of_singleton in Hr. subst r. exists t.
      split; [|exact Ht]. apply list_lookup_middle. reflexivity.
  - intros r Hr. destruct (Hclosed r Hr) as (t' & Ht' & Hs). exists t'.
    split; [|exact Hs]. rewrite lookup_app_l; [exact Ht'|].
    eapply lookup_lt_Some. exact Ht'.
  - exact Hcount.
Qed.

Lemma update_open_trades_ok (positions : option (list exchange_position))
    (clock : nat -> string) (st : bot_state) :
  ledger_ok st -> ledger_ok (update_open_trades dict_eq positions clock st).
Proof.
  intros Hok. destruct positions as [ps|]; [|exact Hok]. cbn.
  apply (update_each_spec ps clock (objects st) (open_trades st) 0 st Hok).
  - destruct Hok as [Hnd _ _ _]. apply NoDup_app in Hnd. tauto.
  - auto.
Qed.

(** Every reachable state of the bot keeps the ledger invariant. *)
Lemma reachable_ledger_ok (st : bot_state) :
  reachable dict_eq st -> ledger_ok st.
Proof.
  induction 1 as [env now|b st _ IH|b st _ IH|oid sym p now st _ IH
                 |ps clock st _ IH].
  - apply initial_state_ok.
  - destruct IH. constructor; assumption.
  - destruct IH. constructor; assumption.
  - apply append_open_trade_ok; [reflexivity|exact IH].
  - apply update_open_trades_ok. exact IH.
Qed.

(** C4. One reconciliation pass over a ledger that keeps its invariant.
    Each iteration of the loop does what the specification says of one
    trade ([Spec.reconcile_trade]). At the end of the pass the trade that
    was [k]-th in the open list is as [Spec.reconciled] describes it, and
    field by field: it is unchanged, and still open, when no position has
    its symbol; otherwise its pnl is the realizedPnl of the first position
    with its symbol and, when that position reports size 0, its status is
    CLOSED, its closedAt is the time [clock k] at which the loop handled
    it, it is out of the open list and in the closed list, where it was
    not before; when the size is not 0 it stays OPEN in the open list with
    the closedAt it had. Nothing else of a trade is written.
    The closed list grows by the closing trades, in order, and lists no
    trade twice; totalPnl grows by their pnl, one after the other;
    winCount grows by the number of them with pnl > 0 and lossCount by the
    number of the others. A trade that was not open is not touched, so a
    closed trade is never handled again by this or a later pass. *)
Theorem reconciliation_pass (ps : list exchange_position)
    (clock : nat -> string) (st : bot_state) :
  ledger_ok st ->
  let st' := update_open_trades dict_eq (Some ps) clock st in
  let closing :=
    filter (fun r => Spec.closes_ref ps (objects st) r = true)
           (open_trades st) in
  let pnl := Spec.pnl_ref ps (objects st) in
  (forall now r t, r ∈ open_trades st -> objects st !! r = Some t ->
     update_trade dict_eq ps now r st = Spec.reconcile_trade ps now r t st) /\
  (forall k r t, open_trades st !! k = Some r -> objects st !! r = Some t ->
     objects st' !! r = Some (Spec.reconciled ps (clock k) t) /\
     if Spec.closes ps t
     then (r ∉ open_trades st') /\ (r ∈ closed_trades st') /\
          (r ∉ closed_trades st)
     else (r ∈ open_trades st') /\ (r ∉ closed_trades st')) /\
  (forall k r t, open_trades st !! k = Some r -> objects st !! r = Some t ->
     exists t',
       objects st' !! r = Some t' /\
       t_id t' = t_id t /\ t_symbol t' = t_symbol t /\
       t_side t' = t_side t /\ t_entry_price t' = t_entry_price t /\
       t_size t' = t_size t /\ t_stop_loss t' = t_stop_loss t /\
       t_take_profit t' = t_take_profit t /\ t_risk t' = t_risk t /\
       t_potential_profit t' = t_potential_profit t /\
       t_opened_at t' = t_opened_at t /\
       match matching_position ps (t_symbol t) with
       | None => t' = t /\ (r ∈ open_trades st') /\ (r ∉ closed_trades st')
       | Some pos =>
           t_pnl t' = default 0%float (realized_pnl pos) /\
           if PrimFloat.eqb (default 0%float (pos_size pos)) 0
           then t_status t' = CLOSED /\
                t_closed_at t' = Some (clock k) /\
                (r ∉ open_trades st') /\ (r ∈ closed_trades st') /\
                (r ∉ closed_trades st)
           else t_status t' = OPEN /\
                t_closed_at t' = t_closed_at t /\
                (r ∈ open_trades st') /\ (r ∉ closed_trades st')
       end) /\
  open_trades st' =
    filter (fun r => Spec.closes_ref ps (objects st) r = false)
           (open_trades st) /\
  closed_trades st' = closed_trades st ++ closing /\
  NoDup (closed_trades st') /\
  (forall r, r ∉ open_trades st -> objects st' !! r = objects st !! r) /\
  total_pnl st' =
    fold_left (fun acc r => (acc + pnl r)%float) closing (total_pnl st) /\
  win_count st' =
    win_count st +
    Z.of_nat (length (filter (fun r => gt (pnl r) 0 = true) closing)) /\
  loss_count st' =
    loss_count st +
    Z.of_nat (length (filter (fun r => gt (pnl r) 0 = false) closing)) /\
  ledger_ok st' /\
  (forall ps' clock' r, r ∈ closed_trades st' ->
     objects (update_open_trades dict_eq (Some ps') clock' st') !! r =
       objects st' !! r).
Proof.
  intros Hok st' closing pnl.
  assert (Hnd : NoDup (open_trades st) /\
                (forall x, x ∈ open_trades st -> x ∉ closed_trades st)).
  { destruct Hok as [Hnd _ _ _]. apply NoDup_app in Hnd. tauto. }
  destruct Hnd as [Hnd Hsep].
  pose proof (update_each_spec ps clock (objects st) (open_trades st) 0 st
                Hok Hnd (fun r Hr => conj Hr eq_refl)) as Hpass.
  change (update_each dict_eq ps clock 0 (open_trades st) st)
    with st' in Hpass.
  cbv zeta in Hpass. fold closing pnl in Hpass.
  destruct Hpass
    as (Hok' & Hopen & Hclosed & Hobjs & Hrest & Htot & Hwin & Hloss).
  assert (Hopen2 : open_trades st' =
            filter (fun r => Spec.closes_ref ps (objects st) r = false)
                   (open_trades st)).
  { rewrite Hopen. apply filter_ext_elem. intros x Hx. subst closing.
    rewrite list_elem_of_filter.
    destruct (Spec.closes_ref ps (objects st) x); split; intros H;
      try reflexivity; try discriminate; try tauto.
    intros [? _]. discriminate. }
  split; [intros now r t Hr Ht; apply update_trade_spec; assumption|].
  assert (Hper : forall k r t,
            open_trades st !! k = Some r -> objects st !! r = Some t ->
            objects st' !! r = Some (Spec.reconciled ps (clock k) t) /\
            if Spec.closes ps t
            then (r ∉ open_trades st') /\ (r ∈ closed_trades st') /\
                 (r ∉ closed_trades st)
            else (r ∈ open_trades st') /\ (r ∉ closed_trades st')).
  { intros k r t Hk Ht. split; [apply (Hobjs k r t Hk Ht)|].
    assert (Hr : r ∈ open_trades st) by (eapply list_elem_of_lookup_2; eauto).
    pose proof (closes_ref_lookup ps (objects st) r t Ht) as Hc.
    rewrite Hopen2, Hclosed. subst closing.
    destruct (Spec.closes ps t).
    - split; [|split].
      + rewrite list_elem_of_filter. intros [H _]. congruence.
      + apply elem_of_app. right. apply list_elem_of_filter. auto.
      + apply Hsep. exact Hr.
    - split.
      + apply list_elem_of_filter. auto.
      + intros Hin. apply elem_of_app in Hin as [Hin|Hin].
        * exact (Hsep r Hr Hin).
        * apply list_elem_of_filter in Hin as [H _]. congruence. }
  split; [exact Hper|].
  split.
  { intros k r t Hk Ht. destruct (Hper k r t Hk Ht) as [Hobj Hmove].
    assert (Hr : r ∈ open_trades st) by (eapply list_elem_of_lookup_2; eauto).
    assert (Hst : t_status t = OPEN).
    { destruct (ok_open st Hok r Hr) as (t0 & Ht0 & Hs). congruence. }
    exists (Spec.reconciled ps (clock k) t). split; [exact Hobj|].
    unfold Spec.closes in Hmove. unfold Spec.reconciled.
    destruct (matching_position ps (t_symbol t)) as [pos|].
    - cbn [t_id t_symbol t_side t_entry_price t_size t_stop_loss
           t_take_profit t_risk t_potential_profit t_opened_at t_pnl
           t_status t_closed_at].
      repeat (split; [reflexivity|]).
      destruct (PrimFloat.eqb (default 0%float (pos_size pos)) 0).
      + destruct Hmove as (Ho & Hc & Hc0). repeat split; assumption.
      + destruct Hmove as (Ho & Hc). repeat split; assumption.
    - repeat (split; [reflexivity|]). tauto. }
  split; [exact Hopen2|]. split; [exact Hclosed|].
  split.
  { destruct Hok' as [Hnd' _ _ _]. apply NoDup_app in Hnd'. tauto. }
  split; [exact Hrest|]. split; [exact Htot|]. split; [exact Hwin|].
  split; [exact Hloss|]. split; [exact Hok'|].
  intros ps' clock' r Hr.
  assert (Hnd' : NoDup (open_trades st') /\
                 (forall x, x ∈ open_trades st' -> x ∉ closed_trades st')).
  { destruct Hok' as [Hnd' _ _ _]. apply NoDup_app in Hnd'. tauto. }
  destruct Hnd' as [Hnd' Hsep'].
  destruct (update_each_spec ps' clock' (objects st') (open_trades st') 0 st'
              Hok' Hnd' (fun r Hr => conj Hr eq_refl))
    as (_ & _ & _ & _ & Hrest2 & _).
  apply Hrest2. intros Hin. exact (Hsep' r Hin Hr).
Qed.

(** C10. In every reachable state the status operation returns: with no
    closed trade counted it reports winRate 0.0 without dividing, and
    otherwise the divisor winCount + lossCount is positive and winRate is
    winCount / (winCount + lossCount), the quotient rounded to the nearest
    float; a ZeroDivisionError is raised in no state at all. *)
Theorem get_status_never_divides_by_zero (now : string) (st : bot_state) :
  reachable dict_eq st ->
  exists s,
    get_status now st = Ok s /\
    st_total_trades s = win_count st + loss_count st /\
    (win_count st + loss_count st = 0 -> st_win_rate s = 0.0%float) /\
    (win_count st + loss_count st <> 0 ->
       0 < win_count st + loss_count st /\
       int_truediv (win_count st) (win_count st + loss_count st) =
         Ok (st_win_rate s) /\
       st_win_rate s =
         SF2Prim (SFdiv prec emax (Z2SF (win_count st))
                    (Z2SF (win_count st + loss_count st)))) /\
    (forall now' st0, get_status now' st0 <> Raise ZeroDivisionError).
Proof.
  intros Hreach. apply reachable_ledger_ok in Hreach.
  destruct (ok_counted st Hreach) as (_ & Hw & Hl).
  assert (Hguard : forall now' st0,
            get_status now' st0 <> Raise ZeroDivisionError).
  { intros now' st0. unfold get_status, int_truediv.
    destruct (Z.gtb_spec (win_count st0 + loss_count st0) 0) as [Hpos|Hle];
      [|discriminate].
    destruct (Z.eqb_spec (win_count st0 + loss_count st0) 0) as [E|_];
      [lia|].
    destruct (_ <=? _); discriminate. }
  unfold get_status, int_truediv.
  destruct (Z.gtb_spec (win_count st + loss_count st) 0) as [Hpos|Hle].
  - destruct (Z.eqb_spec (win_count st + loss_count st) 0) as [E|_]; [lia|].
    assert (Hbig : 1 < 2 ^ 1024 - 2 ^ 970) by reflexivity.
    set (M := 2 ^ 1024 - 2 ^ 970) in *.
    destruct (Z.leb_spec (M * Z.abs (win_count st + loss_count st))
                (Z.abs (win_count st))) as [Hover|_].
    + rewrite !Z.abs_eq in Hover by lia. nia.
    + eexists. split; [reflexivity|]. cbn.
      split; [reflexivity|]. split; [lia|].
      split; [|exact Hguard]. intros _. auto.
  - eexists. split; [reflexivity|]. cbn.
    split; [reflexivity|]. split; [reflexivity|].
    split; [|exact Hguard]. intros Hne. lia.
Qed.

End Ledger.

(** ** The ledger with field-wise dict equality *)

Section ConcreteLedger.
Import Examples.

Lemma trade_eqb_status (a b : trade) :
  trade_eqb a b = true -> t_status a = t_status b.
Proof.
  unfold trade_eqb. intros H.
  repeat (apply andb_prop in H as [H ?]).
  destruct (t_status a), (t_status b); congruence.
Qed.

Lemma sample_ledger_reachable : reachable trade_eqb sample_ledger.
Proof.
  apply (reach_open trade_eqb 8 "ETHUSD"
           (Position 10000 9800 10400 0.05 BUY 100 20) "t1").
  apply (reach_open trade_eqb 7 "BTCUSD"
           (Position 10000 9800 10400 0.05 BUY 100 20) "t0").
  apply reach_initial.
Qed.

Lemma sample_ledger_ok : ledger_ok sample_ledger.
Proof.
  exact (reachable_ledger_ok trade_eqb trade_eqb_status _
           sample_ledger_reachable).
Qed.

Lemma reconciliation_pass_witness :
  let st' := update_open_trades trade_eqb (Some sample_positions)
               sample_clock sample_ledger in
  (exists t', objects st' !! 0%nat = Some t' /\
     t_id t' = 7 /\ t_symbol t' = "BTCUSD" /\ t_pnl t' = 12.5%float /\
     t_status t' = CLOSED /\ t_closed_at t' = Some "t2" /\
     t_opened_at t' = "t0") /\
  (exists t', objects st' !! 1%nat = Some t' /\
     t_id t' = 8 /\ t_symbol t' = "ETHUSD" /\ t_pnl t' = (-2)%float /\
     t_status t' = OPEN /\ t_closed_at t' = None /\
     t_opened_at t' = "t1") /\
  open_trades st' = [1%nat] /\
  closed_trades st' = [0%nat] /\
  NoDup (closed_trades st') /\
  total_pnl st' = 12.5%float /\
  win_count st' = 1 /\
  loss_count st' = 0.
Proof.
  intros st'.
  destruct (reconciliation_pass trade_eqb trade_eqb_status sample_positions
              sample_clock sample_ledger sample_ledger_ok)
    as (_ & _ & Hobj & Hopen & Hclosed & Hnd & _ & Htot & Hwin & Hloss & _).
  fold st' in Hobj, Hopen, Hclosed, Hnd, Htot, Hwin, Hloss.
  split.
  { destruct (Hobj 0%nat 0%nat _ eq_refl eq_refl)
      as (t' & Ht' & Hid & Hsym & _ & _ & _ & _ & _ & _ & _ & Hat & Hm).
    cbn in Hm. destruct Hm as (Hpnl & Hst & Hcl & _).
    exists t'. repeat split; assumption. }
  split.
  { destruct (Hobj 1%nat 1%nat _ eq_refl eq_refl)
      as (t' & Ht' & Hid & Hsym & _ & _ & _ & _ & _ & _ & _ & Hat & Hm).
    cbn in Hm. destruct Hm as (Hpnl & Hst & Hcl & _).
    exists t'. repeat split; assumption. }
  split; [rewrite Hopen; reflexivity|].
  split; [rewrite Hclosed; reflexivity|].
  split; [exact Hnd|].
  split; [rewrite Htot; reflexivity|].
  split; [rewrite Hwin; reflexivity|rewrite Hloss; reflexivity].
Defined.

Lemma get_status_never_divides_by_zero_witness :
  exists s,
    get_status "now"
      (update_open_trades trade_eqb (Some sample_positions) sample_clock
         sample_ledger) = Ok s /\
    st_total_trades s = 1 /\ st_win_rate s = 1%float.
Proof.
  destruct (get_status_never_divides_by_zero trade_eqb trade_eqb_status "now"
              (update_open_trades trade_eqb (Some sample_positions)
                 sample_clock sample_ledger)
              (reach_update trade_eqb (Some sample_positions) sample_clock
                 sample_ledger sample_ledger_reachable))
    as (s & Hs & Htotal & _ & Hrate & _).
  exists s. split; [exact Hs|]. split; [rewrite Htotal; reflexivity|].
  destruct Hrate as (_ & _ & ->); [discriminate|]. reflexivity.
Defined.

(** C2, as the code has it. An acknowledged order is appended to the open
    list as a fresh trade object with the order's id, status OPEN and pnl
    0.0; nothing else in the ledger changes. The insertion cannot fail
    and does not look at the ids already open. *)
Theorem open_trade_appends (order_id : Z) (symbol : string) (p : position)
    (now : string) (st : bot_state) :
  let st' := open_trade order_id symbol p now st in
  let r := length (objects st) in
  let t := new_trade order_id symbol p now in
  open_trades st' = open_trades st ++ [r] /\
  objects st' !! r = Some t /\
  t_id t = order_id /\ t_status t = OPEN /\ t_pnl t = 0.0%float /\
  (forall x, x <> r -> objects st' !! x = objects st !! x) /\
  closed_trades st' = closed_trades st /\
  total_pnl st' = total_pnl st /\
  win_count st' = win_count st /\
  loss_count st' = loss_count st /\
  (ledger_ok st -> (r ∉ open_trades st) /\ ledger_ok st').
Proof.
  cbn. split; [reflexivity|].
  split; [apply list_lookup_middle; reflexivity|].
  repeat (split; [reflexivity|]).
  split.
  { intros x Hx. destruct (Nat.lt_ge_cases x (length (objects st))).
    - apply lookup_app_l. assumption.
    - rewrite !lookup_ge_None_2; [reflexivity|lia|].
      rewrite length_app. simpl. lia. }
  repeat (split; [reflexivity|]).
  intros Hok. split.
  - intros Hin.
    assert ((length (objects st) < length (objects st))%nat); [|lia].
    apply (ledger_refs_allocated st _ Hok).
    apply elem_of_app. left. exact Hin.
  - apply append_open_trade_ok; [reflexivity|exact Hok].
Qed.

(** C2, no DuplicateId: a ledger whose one open trade has id 7 accepts a
    second trade with id 7, and then holds both. *)
Lemma duplicate_id_is_appended :
  let st := open_trade 7 "BTCUSD" (Position 10000 9800 10400 0.05 BUY 100 20)
              "t0" (initial_state "testnet" "t") in
  let st' := open_trade 7 "BTCUSD" (Position 10000 9800 10400 0.05 BUY 100 20)
               "t1" st in
  Spec.id_is_open st 7 = true /\
  open_trades st = [0%nat] /\
  open_trades st' = [0%nat; 1%nat] /\
  t_id <$> objects st' = [7; 7].
Proof. repeat split; reflexivity. Qed.

End ConcreteLedger.

(** ** More on floats *)

Section FloatZero.

Lemma ltb_irrefl (x : float) : PrimFloat.ltb x x = false.
Proof.
  destruct (PrimFloat.ltb x x) eqn:E; [|reflexivity].
  pose proof (gt_not_lt x x E) as H. unfold lt in H. congruence.
Qed.

(** A float that [==] 0 is one of the two zeros. *)
Lemma eqb_zero_cases (x : float) :
  PrimFloat.eqb x 0 = true -> x = 0%float \/ x = (-0)%float.
Proof.
  rewrite FloatAxioms.eqb_spec. unfold SFeqb.
  replace (Prim2SF 0) with (S754_zero false) by reflexivity.
  intros H. rewrite <- (SF2Prim_Prim2SF x).
  destruct (Prim2SF x) as [[]|[]| |[] ? ?]; simpl in H; try discriminate;
    [right|left]; reflexivity.
Qed.

(** A float above 0 is not [==] 0. *)
Lemma gt_zero_not_eqb (x : float) :
  gt x 0 = true -> PrimFloat.eqb x 0 = false.
Proof.
  unfold gt. rewrite ltb_spec, FloatAxioms.eqb_spec. unfold SFltb, SFeqb.
  destruct (SFcompare (Prim2SF 0) (Prim2SF x)) as [c|] eqn:E; [|discriminate].
  rewrite (SFcompare_antisym _ _ _ E). destruct c; simpl; congruence.
Qed.

(** [min(a, b)] is above neither [a] nor [b]. *)
Lemma min_not_above (a b : float) :
  gt (min a b) a = false /\ gt (min a b) b = false.
Proof.
  unfold min, gt, lt. destruct (PrimFloat.ltb b a) eqn:E.
  - split; [|apply ltb_irrefl].
    pose proof (gt_not_lt a b E) as H. exact H.
  - split; [apply ltb_irrefl|exact E].
Qed.

End FloatZero.

(** ** More on the detectors *)

Section MoreDetectors.

Lemma flat_map_length_le {A B} (f : A -> list B) (l : list A) :
  (forall a, (length (f a) <= 1)%nat) ->
  (length (flat_map f l) <= length l)%nat.
Proof.
  intros Hf. induction l as [|a l IH]; simpl; [lia|].
  rewrite length_app. specialize (Hf a). lia.
Qed.

Lemma elem_of_flat_map_inv {A B} (f : A -> list B) (l : list A) (b : B) :
  b ∈ flat_map f l -> exists a, a ∈ l /\ b ∈ f a.
Proof.
  intros Hb. apply list_elem_of_In, in_flat_map in Hb as (a & Ha & Hb).
  exists a. split; apply list_elem_of_In; assumption.
Qed.

Lemma choch_step_spec (df : frame) (i : nat) (acc : list choch_point) :
  (i < length df)%nat ->
  choch_step df i acc = Ok (acc ++ Rows.choch_at df i).
Proof.
  intros Hi. destruct (lookup_lt_is_Some_2 df i Hi) as [c Hc].
  unfold choch_step, Rows.choch_at.
  rewrite !(iloc_Some _ _ _ _ Hc), Hc, !bind_Ok.
  destruct (gt (high c) _); [reflexivity|].
  destruct (lt (low c) _); [reflexivity|].
  rewrite app_nil_r. reflexivity.
Qed.

Lemma detect_choch_spec (df : frame) :
  detect_choch df = Ok (Rows.choch_events df).
Proof.
  unfold detect_choch, for_range.
  rewrite (for_each_appends _ (Rows.choch_at df)).
  - reflexivity.
  - intros i acc Hi. apply elem_of_range in Hi.
    apply choch_step_spec. lia.
Qed.

Lemma choch_at_one (df : frame) (i : nat) :
  (length (Rows.choch_at df i) <= 1)%nat.
Proof.
  unfold Rows.choch_at. destruct (df !! i) as [c|]; [|simpl; lia].
  destruct (gt _ _); [simpl; lia|]. destruct (lt _ _); simpl; lia.
Qed.

Lemma choch_events_length (df : frame) :
  (length (Rows.choch_events df) <= length df - 2)%nat.
Proof.
  unfold Rows.choch_events.
  pose proof (flat_map_length_le (Rows.choch_at df)
                (seq 2 (length df - 2)) (choch_at_one df)) as H.
  rewrite length_seq in H. exact H.
Qed.

(** X1. CHoCH detection never raises. It looks at the rows from row 2 on,
    in order, and reports at most one event for each, so at most [L - 2]
    events and none for a frame under three rows. An event carries the
    time of its row and, as price, the row's high when it is bullish and
    the row's low when it is bearish; a row whose high breaks the rolling
    high is reported as bullish whatever its low does. *)
Theorem detect_choch_rows (df : frame) :
  exists events,
    detect_choch df = Ok events /\
    (length events <= length df - 2)%nat /\
    ((length df < 3)%nat -> events = []) /\
    (forall e, e ∈ events ->
       exists i c, (2 <= i)%nat /\ df !! i = Some c /\ e ∈ Rows.choch_at df i /\
         ch_time e = time c /\
         match ch_kind e with
         | BULLISH_CHOCH => ch_price e = high c
         | BEARISH_CHOCH => ch_price e = low c
         end) /\
    (forall i c, (2 <= i)%nat -> df !! i = Some c ->
       gt (high c) (series_max (slice (i - 20) i (map high df))) = true ->
       ChochPoint BULLISH_CHOCH (high c) (time c) ∈ events /\
       ChochPoint BEARISH_CHOCH (low c) (time c) ∉ Rows.choch_at df i).
Proof.
  exists (Rows.choch_events df). split; [apply detect_choch_spec|].
  pose proof (choch_events_length df) as Hlen.
  split; [exact Hlen|]. split.
  { intros Hshort. destruct (Rows.choch_events df); [reflexivity|].
    simpl in Hlen. lia. }
  split.
  - intros e He. apply elem_of_flat_map_inv in He as (i & Hi & He).
    apply elem_of_seq in Hi. pose proof He as He0.
    unfold Rows.choch_at in He.
    destruct (df !! i) as [c|] eqn:Hc; [|apply elem_of_nil in He; contradiction].
    exists i, c. split; [lia|]. split; [exact Hc|]. split; [exact He0|].
    destruct (gt (high c) _).
    + apply list_elem_of_singleton in He. subst e. simpl.
      split; reflexivity.
    + destruct (lt (low c) _).
      * apply list_elem_of_singleton in He. subst e. simpl.
        split; reflexivity.
      * apply elem_of_nil in He. contradiction.
  - intros i c Hi Hc Hbreak. split.
    + apply (elem_of_flat_map _ _ i).
      * apply elem_of_seq. apply lookup_lt_Some in Hc. lia.
      * unfold Rows.choch_at. rewrite Hc, Hbreak. left.
    + unfold Rows.choch_at. rewrite Hc, Hbreak. intros H.
      apply list_elem_of_singleton in H. discriminate.
Qed.

Lemma engulfing_at_one (df : frame) (i : nat) :
  (length (engulfing_at df i) <= 1)%nat.
Proof.
  unfold engulfing_at.
  destruct (df !! (i - 1)%nat) as [p|]; [|simpl; lia].
  destruct (df !! i) as [c|]; [|simpl; lia].
  destruct (gt (close p) (open p)) eqn:G.
  - rewrite (gt_not_lt _ _ G). simpl.
    destruct (lt (close c) (open p) && gt (open c) (close p)); simpl; lia.
  - simpl. rewrite app_nil_r.
    destruct (lt (close p) (open p) && gt (close c) (open p)
              && lt (open c) (close p)); simpl; lia.
Qed.

Lemma engulfing_events_length (df : frame) :
  (length (engulfing_events df) <= length df - 1)%nat.
Proof.
  unfold engulfing_events.
  pose proof (flat_map_length_le (engulfing_at df)
                (seq 1 (length df - 1)) (engulfing_at_one df)) as H.
  rewrite length_seq in H. exact H.
Qed.

(** X2. Engulfing detection never raises. It looks at the rows from row 1
    on and reports at most one event for each: a row is never both a
    bullish and a bearish engulfing of the row before it. So there are at
    most [L - 1] events, none for a frame under two rows, and each event
    carries the time of a row that has a row before it. *)
Theorem detect_engulfing_rows (df : frame) :
  exists events,
    detect_engulfing df = Ok events /\
    (length events <= length df - 1)%nat /\
    ((length df < 2)%nat -> events = []) /\
    (forall i, (length (engulfing_at df i) <= 1)%nat) /\
    (forall e, e ∈ events ->
       exists i p c, (1 <= i)%nat /\ df !! (i - 1)%nat = Some p /\
         df !! i = Some c /\ eg_time e = time c /\
         match eg_kind e with
         | BULLISH_ENGULFING =>
             lt (close p) (open p) = true /\
             eg_strength e = ((close c - open c) / (close p - open p))%float
         | BEARISH_ENGULFING =>
             gt (close p) (open p) = true /\
             eg_strength e = ((open c - close c) / (open c - open p))%float
         end).
Proof.
  exists (engulfing_events df). split; [apply detect_engulfing_spec|].
  pose proof (engulfing_events_length df) as Hlen.
  split; [exact Hlen|]. split.
  { intros Hshort. destruct (engulfing_events df); [reflexivity|].
    simpl in Hlen. lia. }
  split; [apply engulfing_at_one|].
  intros e He. apply elem_of_flat_map_inv in He as (i & Hi & He).
  apply elem_of_seq in Hi. unfold engulfing_at in He.
  destruct (df !! (i - 1)%nat) as [p|] eqn:Hp;
    [|apply elem_of_nil in He; contradiction].
  destruct (df !! i) as [c|] eqn:Hc;
    [|apply elem_of_nil in He; contradiction].
  exists i, p, c. split; [lia|]. split; [exact Hp|]. split; [exact Hc|].
  apply elem_of_app in He as [He|He].
  - destruct (lt (close p) (open p)) eqn:H1; simpl in He;
      [|apply elem_of_nil in He; contradiction].
    destruct (gt (close c) (open p) && lt (open c) (close p));
      [|apply elem_of_nil in He; contradiction].
    apply list_elem_of_singleton in He. subst e. simpl. auto.
  - destruct (gt (close p) (open p)) eqn:H1; simpl in He;
      [|apply elem_of_nil in He; contradiction].
    destruct (lt (close c) (open p) && gt (open c) (close p));
      [|apply elem_of_nil in He; contradiction].
    apply list_elem_of_singleton in He. subst e. simpl. auto.
Qed.

Lemma blocks_at_length (df : frame) (i : nat) :
  (length (Spec.blocks_at df i) <= 1)%nat.
Proof.
  unfold Spec.blocks_at.
  destruct (df !! i) as [c|] eqn:Hc; [|simpl; lia].
  destruct (df !! (i + 1)%nat) as [n|] eqn:Hn; [|simpl; lia].
  pose proof (blocks_at_one df i c n Hc Hn) as H.
  unfold Spec.blocks_at in H. rewrite Hc, Hn in H. rewrite H.
  destruct (_ && _); [simpl; lia|]. destruct (_ && _); simpl; lia.
Qed.

Lemma order_blocks_length (df : frame) (lookback : nat) :
  (length (Spec.order_blocks df lookback) <= length df - 1 - lookback)%nat.
Proof.
  unfold Spec.order_blocks.
  pose proof (flat_map_length_le (Spec.blocks_at df)
                (seq lookback (length df - 1 - lookback))
                (blocks_at_length df)) as H.
  rewrite length_seq in H. exact H.
Qed.

(** X3. Order block detection on a short frame: a frame of at most
    [lookback + 1] rows has no order block, whatever its candles. In
    general there are at most [L - 1 - lookback] blocks, and each block
    carries the high, low and time of a row [i >= lookback] that has a row
    after it, with [confirmed] false. *)
Theorem detect_order_blocks_short_frame (df : frame) (lookback : nat) :
  exists blocks,
    detect_order_blocks df lookback = Ok blocks /\
    (length blocks <= length df - 1 - lookback)%nat /\
    ((length df <= lookback + 1)%nat -> blocks = []) /\
    (forall b, b ∈ blocks ->
       exists i c, (lookback <= i)%nat /\ (i + 1 < length df)%nat /\
         df !! i = Some c /\
         ob_high b = high c /\ ob_low b = low c /\ ob_time b = time c /\
         ob_confirmed b = false).
Proof.
  exists (Spec.order_blocks df lookback).
  split; [apply detect_order_blocks_spec|].
  pose proof (order_blocks_length df lookback) as Hlen.
  split; [exact Hlen|]. split.
  { intros Hshort. destruct (Spec.order_blocks df lookback); [reflexivity|].
    simpl in Hlen. lia. }
  intros b Hb. apply elem_of_flat_map_inv in Hb as (i & Hi & Hb).
  apply elem_of_seq in Hi. unfold Spec.blocks_at in Hb.
  destruct (df !! i) as [c|] eqn:Hc; [|apply elem_of_nil in Hb; contradiction].
  destruct (df !! (i + 1)%nat) as [n|] eqn:Hn;
    [|apply elem_of_nil in Hb; contradiction].
  exists i, c. split; [lia|]. split; [apply lookup_lt_Some in Hn; lia|].
  split; [exact Hc|].
  apply elem_of_app in Hb as [Hb|Hb];
    destruct (_ && _); try (apply elem_of_nil in Hb; contradiction);
    apply list_elem_of_singleton in Hb; subst b; simpl; auto.
Qed.

End MoreDetectors.

(** ** More on the fusion *)

Section MoreFusion.
Import Samples.

Lemma last_map {A B} (f : A -> B) (l : list A) :
  last (map f l) = f <$> last l.
Proof.
  induction l as [|a [|b l] IH]; [reflexivity|reflexivity|].
  exact IH.
Qed.

Ltac events_of l :=
  let x := fresh "x" in
  destruct (list_last_cases l) as [->|(? & x & ->)];
  [|rewrite ?last_snoc, ?weight_snoc].

Ltac polarity :=
  repeat match goal with
  | b : order_block |- _ => destruct b as [[] ? ? ? ?]
  | c : choch_point |- _ => destruct c as [[] ? ?]
  | e : engulfing_pattern |- _ => destruct e as [[] ? ?]
  end.

Lemma firing_snoc_cases {A} (l : list A) (x : A) :
  (if l ++ [x] is [] then 0 else 1)%nat = 1%nat.
Proof. destruct l; reflexivity. Qed.

(** What is emitted, written with the loop-free detectors. *)
Lemma generate_signal_rows (df : frame) (symbol : string) :
  generate_signal df symbol =
    Ok (emit df symbol (Spec.order_blocks df 50) (Rows.choch_events df)
          (engulfing_events df)).
Proof.
  unfold generate_signal.
  rewrite detect_order_blocks_spec, detect_choch_spec, detect_engulfing_spec.
  reflexivity.
Qed.

Lemma order_blocks_need_rows (df : frame) (lookback : nat) :
  Spec.order_blocks df lookback <> [] -> (lookback + 2 <= length df)%nat.
Proof.
  intros Hne. pose proof (order_blocks_length df lookback) as Hlen.
  destruct (Spec.order_blocks df lookback); [congruence|].
  simpl in Hlen. lia.
Qed.

Lemma choch_needs_rows (df : frame) :
  Rows.choch_events df <> [] -> (3 <= length df)%nat.
Proof.
  intros Hne. pose proof (choch_events_length df) as Hlen.
  destruct (Rows.choch_events df); [congruence|].
  simpl in Hlen. lia.
Qed.

Lemma snoc_not_nil {A} (l : list A) (x : A) : l ++ [x] <> [].
Proof. destruct l; discriminate. Qed.

(** The three ways a signal can come about. *)
Lemma emit_cases (df : frame) (symbol : string) (obs : list order_block)
    (chs : list choch_point) (engs : list engulfing_pattern) (sg : signal) :
  emit df symbol obs chs engs = Some sg ->
  (obs <> [] \/ (chs <> [] /\ engs <> [])) /\
  sig_direction sg <> NEUTRAL /\
  (obs = [] -> sig_confidence sg = 0.6%float /\
     exists c, last chs = Some c /\ sig_direction sg = Spec.choch_direction c).
Proof.
  rewrite emit_spec. unfold Spec.strength, Spec.direction_of.
  events_of obs; events_of chs; events_of engs; simpl Spec.weight;
    intros H;
    match type of H with
    | (if ?b then _ else _) = _ =>
        let v := eval vm_compute in b in
        change b with v in H; cbv iota in H
    end;
    try discriminate; injection H as <-; simpl.
  all: split; [|split].
  all: try (left; apply snoc_not_nil).
  all: try (right; split; apply snoc_not_nil).
  all: try (intros E; apply snoc_not_nil in E; contradiction).
  all: try (unfold Spec.ob_direction, Spec.choch_direction,
              Spec.engulfing_direction; polarity; simpl; discriminate).
  intros _. split; [reflexivity|]. eexists. split; reflexivity.
Qed.

(** X4. A signal that [generate_signal] emits always points somewhere: its
    direction is BUY or SELL, never NEUTRAL. It carries the symbol it was
    asked for, the time of the last row of the frame, and at most three
    order blocks; and it takes a frame of at least three rows to get one. *)
Theorem emitted_signal_is_directed (df : frame) (symbol : string)
    (sg : signal) :
  generate_signal df symbol = Ok (Some sg) ->
  sig_direction sg <> NEUTRAL /\
  sig_symbol sg = symbol /\
  (3 <= length df)%nat /\
  (exists c, last df = Some c /\ sig_timestamp sg = Some (time c)) /\
  (length (sig_order_blocks sg) <= 3)%nat.
Proof.
  rewrite generate_signal_rows. intros H. injection H as H.
  pose proof (emit_cases _ _ _ _ _ _ H) as (Hfire & Hdir & _).
  assert (Hrows : (3 <= length df)%nat).
  { destruct Hfire as [Hob|[Hch _]].
    - apply order_blocks_need_rows in Hob. lia.
    - apply choch_needs_rows. exact Hch. }
  rewrite emit_spec in H. destruct (ge _ _); [|discriminate].
  injection H as <-. simpl.
  split; [exact Hdir|]. split; [reflexivity|]. split; [exact Hrows|]. split.
  - rewrite last_map. destruct (last df) as [c|] eqn:E.
    + exists c. split; reflexivity.
    + apply last_None in E. subst df. simpl in Hrows. lia.
  - unfold last_n. rewrite length_drop. lia.
Qed.

Lemma emitted_signal_is_directed_witness :
  exists sg,
    generate_signal engulf_then_break "BTCUSD" = Ok (Some sg) /\
    sig_direction sg <> NEUTRAL /\
    sig_symbol sg = "BTCUSD" /\
    (3 <= length engulf_then_break)%nat /\
    (exists c, last engulf_then_break = Some c /\
               sig_timestamp sg = Some (time c)) /\
    (length (sig_order_blocks sg) <= 3)%nat.
Proof.
  eexists. split; [vm_compute; reflexivity|].
  apply (emitted_signal_is_directed engulf_then_break "BTCUSD").
  vm_compute. reflexivity.
Defined.

(** X5. No single detector can raise a signal: [generate_signal] returns
    one exactly when at least two of the three detectors have an event. *)
Theorem signal_needs_two_detectors (df : frame) (symbol : string) :
  exists obs chs engs r,
    detect_order_blocks df 50 = Ok obs /\
    detect_choch df = Ok chs /\
    detect_engulfing df = Ok engs /\
    generate_signal df symbol = Ok r /\
    (is_Some r <-> (2 <= Rows.detectors_firing obs chs engs)%nat).
Proof.
  exists (Spec.order_blocks df 50), (Rows.choch_events df),
    (engulfing_events df),
    (emit df symbol (Spec.order_blocks df 50) (Rows.choch_events df)
       (engulfing_events df)).
  split; [apply detect_order_blocks_spec|].
  split; [apply detect_choch_spec|].
  split; [apply detect_engulfing_spec|].
  split; [apply generate_signal_rows|].
  generalize (Spec.order_blocks df 50) (Rows.choch_events df)
    (engulfing_events df).
  intros obs chs engs. rewrite emit_spec.
  unfold Spec.strength, Rows.detectors_firing.
  events_of obs; events_of chs; events_of engs;
    rewrite ?firing_snoc_cases; simpl Spec.weight;
    match goal with
    | |- is_Some (if ?b then _ else _) <-> _ =>
        let v := eval vm_compute in b in
        change b with v; cbv iota
    end; simpl; split; intros H; eauto; try lia;
    destruct H as [? H]; discriminate.
Qed.

(** X6. Short frames. With the lookback of 50 a frame of at most 51 rows
    has no order block, so a signal on it can only come from a CHoCH
    together with an engulfing: its confidence is 0.6 and its direction is
    the latest CHoCH's. A frame under three rows gives no signal at all. *)
Theorem generate_signal_short_frame (df : frame) (symbol : string) :
  (length df <= 51)%nat ->
  exists r,
    generate_signal df symbol = Ok r /\
    ((length df < 3)%nat -> r = None) /\
    (forall sg, r = Some sg ->
       sig_order_blocks sg = [] /\
       sig_confidence sg = 0.6%float /\
       is_Some (sig_engulfing sg) /\
       exists c, sig_choch sg = Some c /\
                 sig_direction sg = Spec.choch_direction c).
Proof.
  intros Hshort. rewrite generate_signal_rows. eexists. split; [reflexivity|].
  assert (Hob : Spec.order_blocks df 50 = []).
  { destruct (Spec.order_blocks df 50) eqn:E; [reflexivity|].
    assert (Hne : Spec.order_blocks df 50 <> []) by (rewrite E; discriminate).
    apply order_blocks_need_rows in Hne. lia. }
  rewrite Hob. split.
  - intros Hlt.
    destruct (emit df symbol [] (Rows.choch_events df) (engulfing_events df))
      as [sg|] eqn:E; [|reflexivity].
    apply emit_cases in E as ([Hne|[Hch _]] & _); [congruence|].
    apply choch_needs_rows in Hch. lia.
  - intros sg Hsg.
    pose proof (emit_cases _ _ _ _ _ _ Hsg) as ([Hne|[Hch Heng]] & _ & Hno);
      [congruence|].
    destruct (Hno eq_refl) as (Hconf & c & Hc & Hdir).
    rewrite emit_spec in Hsg. destruct (ge _ _); [|discriminate].
    injection Hsg as <-. simpl in *.
    split; [reflexivity|]. split; [exact Hconf|]. split.
    + destruct (last (engulfing_events df)) eqn:E; [eauto|].
      apply last_None in E. contradiction.
    + exists c. split; [exact Hc|exact Hdir].
Qed.

Lemma generate_signal_short_frame_witness :
  exists r,
    generate_signal engulf_then_break "BTCUSD" = Ok r /\
    ((length engulf_then_break < 3)%nat -> r = None) /\
    (forall sg, r = Some sg ->
       sig_order_blocks sg = [] /\
       sig_confidence sg = 0.6%float /\
       is_Some (sig_engulfing sg) /\
       exists c, sig_choch sg = Some c /\
                 sig_direction sg = Spec.choch_direction c).
Proof.
  apply (generate_signal_short_frame engulf_then_break "BTCUSD").
  simpl. lia.
Defined.

End MoreFusion.

(** ** More on risk sizing *)

Section MoreRiskSizer.
Import Examples.

Lemma truediv_nonzero (x y : float) :
  PrimFloat.eqb y 0 = false -> truediv x y = Ok (x / y)%float.
Proof. unfold truediv. intros ->. reflexivity. Qed.

(** X7. The only exception [calculate_position] can raise is a
    ZeroDivisionError, and it raises it exactly when the signal passes the
    confidence gate with an entry price of zero. Without a signal, or with
    a confidence below 0.5, it returns no plan; in every other case it
    returns a plan, at the signal's entry price (10000 when the signal has
    none) and on the signal's side. *)
Theorem calculate_position_raises_only_on_zero_entry (rp : risk_params)
    (sg : signal) (balance : float) :
  let entry := default 10000%float (sig_entry_price sg) in
  calculate_position rp None balance = Ok None /\
  match calculate_position rp (Some sg) balance with
  | Raise e =>
      e = ZeroDivisionError /\
      lt (sig_confidence sg) 0.5 = false /\ PrimFloat.eqb entry 0 = true
  | Ok None => lt (sig_confidence sg) 0.5 = true
  | Ok (Some p) =>
      lt (sig_confidence sg) 0.5 = false /\ PrimFloat.eqb entry 0 = false /\
      entry_price p = entry /\ side p = sig_direction sg
  end.
Proof.
  intros entry. split; [reflexivity|].
  unfold calculate_position. fold entry.
  destruct (lt (sig_confidence sg) 0.5); [reflexivity|].
  destruct (PrimFloat.eqb entry 0) eqn:Hz.
  - destruct (eqb_zero_cases entry Hz) as [E|E]; rewrite E;
      destruct (sig_direction sg); cbn; auto.
  - assert (Hdiv : forall x, truediv x entry = Ok (x / entry)%float).
    { intros x. unfold truediv. rewrite Hz. reflexivity. }
    destruct (sig_direction sg); cbn beta iota zeta;
      match goal with
      | |- context [if gt ?d 0 then _ else _] =>
          destruct (gt d 0) eqn:Hg;
          [rewrite (truediv_nonzero _ d (gt_zero_not_eqb _ Hg))|]
      end; rewrite ?bind_Ok, Hdiv, ?bind_Ok; cbn; auto.
Qed.

(** X8. The size of a plan is never above the cap
    [balance * max_position_size / entry], and when the stop lies off the
    entry it is never above the risk-based size
    [risk_amount / |entry - stop|] either; the plan's risk amount is
    [balance * max_risk_per_trade] and its potential profit is the size
    times the distance from entry to target. *)
Theorem position_size_within_limits (rp : risk_params) (sg : signal)
    (balance : float) (p : position) :
  calculate_position rp (Some sg) balance = Ok (Some p) ->
  gt (position_size p)
     (balance * max_position_size rp / entry_price p)%float = false /\
  (gt (PrimFloat.abs (entry_price p - stop_loss p)) 0 = true ->
   gt (position_size p)
      (risk_amount p / PrimFloat.abs (entry_price p - stop_loss p))%float
     = false) /\
  risk_amount p = (balance * max_risk_per_trade rp)%float /\
  potential_profit p =
    (position_size p * PrimFloat.abs (take_profit p - entry_price p))%float.
Proof.
  unfold calculate_position.
  set (entry := default 10000%float (sig_entry_price sg)).
  destruct (lt (sig_confidence sg) 0.5); [discriminate|].
  destruct (PrimFloat.eqb entry 0) eqn:Hz.
  { assert (Hraise : forall x, truediv x entry = Raise ZeroDivisionError).
    { intros x. unfold truediv. rewrite Hz. reflexivity. }
    destruct (sig_direction sg); cbn beta iota zeta;
      match goal with
      | |- context [if gt ?d 0 then ?a else ?b] =>
          destruct (if gt d 0 then a else b)
      end; cbn; rewrite ?Hraise; cbn; discriminate. }
  assert (Hdiv : forall x, truediv x entry = Ok (x / entry)%float).
  { intros x. unfold truediv. rewrite Hz. reflexivity. }
  destruct (sig_direction sg); cbn beta iota zeta;
    match goal with
    | |- context [if gt ?d 0 then _ else _] =>
        destruct (gt d 0) eqn:Hg;
        [rewrite (truediv_nonzero _ d (gt_zero_not_eqb _ Hg))|]
    end; rewrite ?bind_Ok, Hdiv, ?bind_Ok; cbn;
    intros H; injection H as <-; cbn;
    (split; [apply min_not_above|]);
    (split; [|split; reflexivity]);
    intros Hg'; try apply min_not_above;
    unfold gt in Hg, Hg'; congruence.
Qed.

Lemma position_size_within_limits_witness :
  exists p,
    calculate_position RISK_PARAMS (Some buy_at_20000) 10000 = Ok (Some p) /\
    gt (position_size p)
       (10000 * max_position_size RISK_PARAMS / entry_price p)%float = false /\
    (gt (PrimFloat.abs (entry_price p - stop_loss p)) 0 = true ->
     gt (position_size p)
        (risk_amount p / PrimFloat.abs (entry_price p - stop_loss p))%float
       = false) /\
    risk_amount p = (10000 * max_risk_per_trade RISK_PARAMS)%float /\
    potential_profit p =
      (position_size p * PrimFloat.abs (take_profit p - entry_price p))%float.
Proof.
  eexists. split; [vm_compute; reflexivity|].
  apply (position_size_within_limits RISK_PARAMS buy_at_20000 10000).
  vm_compute. reflexivity.
Defined.

(** The plan [calculate_position] lays for a directed signal without an
    entry price that passes the confidence gate: every level is computed
    from the fallback 10000. *)
Lemma fallback_plan (rp : risk_params) (sg : signal) (balance : float) :
  sig_entry_price sg = None ->
  lt (sig_confidence sg) 0.5 = false ->
  sig_direction sg <> NEUTRAL ->
  exists p,
    calculate_position rp (Some sg) balance = Ok (Some p) /\
    entry_price p = 10000%float /\
    side p = sig_direction sg /\
    (side p = BUY /\ stop_loss p = 9800%float /\
     take_profit p = (10000 * (1 + reward_risk_ratio rp * 0.02))%float
     \/
     side p = SELL /\ stop_loss p = 10200%float /\
     take_profit p = (10000 * (1 - reward_risk_ratio rp * 0.02))%float) /\
    risk_amount p = (balance * max_risk_per_trade rp)%float /\
    position_size p =
      min (balance * max_risk_per_trade rp / 200)%float
          (balance * max_position_size rp / 10000)%float /\
    potential_profit p =
      (position_size p * PrimFloat.abs (take_profit p - 10000))%float.
Proof.
  intros Hnone Hconf Hdir.
  unfold calculate_position. rewrite Hconf, Hnone.
  destruct (sig_direction sg); [congruence| |]; cbn;
    eexists; (split; [reflexivity|]); cbn;
    (split; [reflexivity|]); (split; [reflexivity|]);
    (split; [|repeat split; reflexivity]);
    [left|right]; repeat split; reflexivity.
Qed.

(** C3. A signal [generate_signal] emits carries no entry price, so
    [calculate_position] on it lays, for every balance and every risk
    parameters, a plan computed from the fallback 10000 and from nothing
    in the candles: entry 10000; for a BUY stop [10000 * 0.98 = 9800] and
    target [10000 * (1 + reward_risk_ratio * 0.02)], for a SELL stop
    [10000 * 1.02 = 10200] and target
    [10000 * (1 - reward_risk_ratio * 0.02)]; the size is the smaller of
    the risk amount over the stop distance 200 and of
    [balance * max_position_size / 10000]; the potential profit is the size
    times the distance from 10000 to the target. *)
Theorem emitted_signal_sized_at_fallback_price (df : frame) (symbol : string)
    (sg : signal) (rp : risk_params) (balance : float) :
  generate_signal df symbol = Ok (Some sg) ->
  sig_entry_price sg = None /\
  exists p,
    calculate_position rp (Some sg) balance = Ok (Some p) /\
    entry_price p = 10000%float /\
    side p = sig_direction sg /\
    (side p = BUY /\ stop_loss p = 9800%float /\
     take_profit p = (10000 * (1 + reward_risk_ratio rp * 0.02))%float
     \/
     side p = SELL /\ stop_loss p = 10200%float /\
     take_profit p = (10000 * (1 - reward_risk_ratio rp * 0.02))%float) /\
    risk_amount p = (balance * max_risk_per_trade rp)%float /\
    position_size p =
      min (balance * max_risk_per_trade rp / 200)%float
          (balance * max_position_size rp / 10000)%float /\
    potential_profit p =
      (position_size p * PrimFloat.abs (take_profit p - 10000))%float.
Proof.
  intros Hgen. rewrite generate_signal_rows in Hgen. injection Hgen as Hgen.
  destruct (emit_cases _ _ _ _ _ _ Hgen) as (_ & Hdir & _).
  destruct (emit_Some _ _ _ _ _ _ Hgen) as [Hnone Hconf].
  split; [exact Hnone|].
  exact (fallback_plan rp sg balance Hnone Hconf Hdir).
Qed.

Lemma emitted_signal_sized_at_fallback_price_witness :
  exists sg,
    generate_signal bearish_block_and_choch "BTCUSD" = Ok (Some sg) /\
    sig_entry_price sg = None /\
    exists p,
      calculate_position
        {| max_risk_per_trade := 0.02; max_position_size := 0.1;
           reward_risk_ratio := 3; max_drawdown := 0.15;
           max_open_trades := 3 |} (Some sg) 5000 = Ok (Some p) /\
      entry_price p = 10000%float /\
      side p = sig_direction sg /\
      (side p = BUY /\ stop_loss p = 9800%float /\
       take_profit p = (10000 * (1 + 3 * 0.02))%float
       \/
       side p = SELL /\ stop_loss p = 10200%float /\
       take_profit p = (10000 * (1 - 3 * 0.02))%float) /\
      risk_amount p = (5000 * 0.02)%float /\
      position_size p =
        min (5000 * 0.02 / 200)%float (5000 * 0.1 / 10000)%float /\
      potential_profit p =
        (position_size p * PrimFloat.abs (take_profit p - 10000))%float.
Proof.
  eexists. split; [vm_compute; reflexivity|].
  apply (emitted_signal_sized_at_fallback_price
           bearish_block_and_choch "BTCUSD" _
           {| max_risk_per_trade := 0.02; max_position_size := 0.1;
              reward_risk_ratio := 3; max_drawdown := 0.15;
              max_open_trades := 3 |} 5000).
  vm_compute. reflexivity.
Defined.

End MoreRiskSizer.

(** ** More on the ledger *)

Section MoreLedger.
Import Examples Facts Routes.

Variable dict_eq : trade -> trade -> bool.

Hypothesis dict_eq_status :
  forall a b, dict_eq a b = true -> t_status a = t_status b.

Lemma update_each_no_match (ps : list exchange_position)
    (clock : nat -> string) (snapshot : list ref) :
  forall (k : nat) (st : bot_state),
    (forall r t, r ∈ snapshot -> objects st !! r = Some t ->
       matching_position ps (t_symbol t) = None) ->
    update_each dict_eq ps clock k snapshot st = st.
Proof.
  induction snapshot as [|r rest IH]; intros k st Hno; [reflexivity|].
  cbn [update_each].
  assert (Hstep : update_trade dict_eq ps (clock k) r st = st).
  { unfold update_trade. destruct (objects st !! r) as [t|] eqn:Ht;
      [|reflexivity].
    rewrite (Hno r t); [reflexivity|left|exact Ht]. }
  rewrite Hstep. apply IH. intros r' t Hr'. apply Hno. right. exact Hr'.
Qed.

(** X9. Reconciliation against a snapshot that names none of the open
    trades' symbols, an empty one included, changes nothing in the bot
    state, and neither does a pass whose position fetch failed. This holds
    in every state, whatever the ledger holds. *)
Theorem reconciliation_without_match (ps : list exchange_position)
    (clock : nat -> string) (st : bot_state) :
  (forall r t, r ∈ open_trades st -> objects st !! r = Some t ->
     matching_position ps (t_symbol t) = None) ->
  update_open_trades dict_eq (Some ps) clock st = st /\
  update_open_trades dict_eq (Some []) clock st = st /\
  update_open_trades dict_eq None clock st = st.
Proof.
  intros Hno. split; [|split; [|reflexivity]].
  - apply update_each_no_match. exact Hno.
  - apply update_each_no_match. reflexivity.
Qed.

Lemma reconciled_symbol (ps : list exchange_position) (now : string)
    (t : trade) :
  t_symbol (Spec.reconciled ps now t) = t_symbol t.
Proof.
  unfold Spec.reconciled.
  destruct (matching_position ps (t_symbol t)) as [pos|]; reflexivity.
Qed.

Lemma reconciled_closed_at (ps : list exchange_position) (now : string)
    (t : trade) :
  t_closed_at (Spec.reconciled ps now t) =
    if Spec.closes ps t then Some now else t_closed_at t.
Proof.
  unfold Spec.reconciled, Spec.closes.
  destruct (matching_position ps (t_symbol t)) as [pos|]; [|reflexivity].
  simpl. destruct (PrimFloat.eqb _ _); reflexivity.
Qed.

Lemma reconciled_again (ps : list exchange_position) (now now' : string)
    (t : trade) :
  Spec.closes ps t = false ->
  Spec.closes ps (Spec.reconciled ps now t) = false /\
  Spec.reconciled ps now' (Spec.reconciled ps now t) = Spec.reconciled ps now t.
Proof.
  unfold Spec.closes, Spec.reconciled.
  destruct (matching_position ps (t_symbol t)) as [pos|] eqn:Hm.
  - simpl. intros Hsz. rewrite Hsz. simpl. rewrite Hm, Hsz.
    split; reflexivity.
  - intros _. rewrite Hm. split; reflexivity.
Qed.

Lemma reconcile_trade_fixed (ps : list exchange_position) (now : string)
    (r : ref) (t : trade) (st : bot_state) :
  objects st !! r = Some t ->
  Spec.closes ps t = false ->
  Spec.reconciled ps now t = t ->
  Spec.reconcile_trade ps now r t st = st.
Proof.
  intros Ht Hc Hfix. unfold Spec.reconcile_trade. rewrite Hc, Hfix. simpl.
  rewrite list_insert_id by exact Ht. symmetry. apply bot_state_eta.
Qed.

Lemma update_each_fixed (ps : list exchange_position) (clock : nat -> string)
    (snapshot : list ref) :
  forall (k : nat) (st : bot_state),
    ledger_ok st ->
    (forall r, r ∈ snapshot ->
       r ∈ open_trades st /\
       exists t, objects st !! r = Some t /\ Spec.closes ps t = false /\
                 forall now, Spec.reconciled ps now t = t) ->
    update_each dict_eq ps clock k snapshot st = st.
Proof.
  induction snapshot as [|r rest IH]; intros k st Hok Hfix; [reflexivity|].
  cbn [update_each].
  destruct (Hfix r) as (Hr & t & Ht & Hc & Hsame); [left|].
  rewrite (update_trade_spec dict_eq dict_eq_status ps (clock k) r t st
             Hok Hr Ht).
  rewrite (reconcile_trade_fixed ps (clock k) r t st Ht Hc (Hsame _)).
  apply IH; [exact Hok|]. intros r' Hr'. apply Hfix. right. exact Hr'.
Qed.

(** X10. Reconciling twice against the same snapshot changes nothing the
    second time: after a pass over a ledger that keeps its invariant, a
    further pass against the same positions, at whatever times, leaves the
    whole bot state as the first pass left it. *)
Theorem reconciliation_is_idempotent (ps : list exchange_position)
    (clock clock' : nat -> string) (st : bot_state) :
  ledger_ok st ->
  update_open_trades dict_eq (Some ps) clock'
    (update_open_trades dict_eq (Some ps) clock st) =
  update_open_trades dict_eq (Some ps) clock st.
Proof.
  intros Hok.
  assert (Hnd : NoDup (open_trades st)).
  { destruct Hok as [Hnd _ _ _]. apply NoDup_app in Hnd. tauto. }
  pose proof (update_each_spec dict_eq dict_eq_status ps clock (objects st)
                (open_trades st) 0 st Hok Hnd
                (fun r Hr => conj Hr eq_refl)) as Hpass.
  cbv zeta in Hpass.
  change (update_each dict_eq ps clock 0 (open_trades st) st)
    with (update_open_trades dict_eq (Some ps) clock st) in Hpass.
  set (st' := update_open_trades dict_eq (Some ps) clock st) in *.
  destruct Hpass as (Hok' & Hopen & _ & Hobjs & _).
  change (update_each dict_eq ps clock' 0 (open_trades st') st' = st').
  apply update_each_fixed; [exact Hok'|].
  intros r Hr. split; [exact Hr|].
  rewrite Hopen in Hr. apply list_elem_of_filter in Hr as [Hnot Hr].
  destruct (ok_open st Hok r Hr) as (t & Ht & _).
  apply list_elem_of_lookup_1 in Hr as Hk. destruct Hk as [k Hk].
  assert (Hc : Spec.closes ps t = false).
  { rewrite <- (closes_ref_lookup ps (objects st) r t Ht).
    destruct (Spec.closes_ref ps (objects st) r) eqn:E; [|reflexivity].
    elim Hnot. apply list_elem_of_filter. split; [exact E|exact Hr]. }
  exists (Spec.reconciled ps (clock (0 + k)%nat) t).
  split; [apply (Hobjs k r t Hk Ht)|].
  destruct (reconciled_again ps (clock (0 + k)%nat) "" t Hc) as [Hc' _].
  split; [exact Hc'|].
  intros now. apply (reconciled_again ps _ now t Hc).
Qed.

Lemma append_open_trade_stamped (t : trade) (st : bot_state) :
  t_closed_at t = None -> ledger_ok st -> stamped st ->
  stamped (append_open_trade t st).
Proof.
  intros Ht Hok [Hopen Hclosed]. split; cbn.
  - intros r t' Hr Hl. apply elem_of_app in Hr as [Hr|Hr].
    + rewrite lookup_app_l in Hl.
      * exact (Hopen r t' Hr Hl).
      * apply (ledger_refs_allocated st r Hok). apply elem_of_app. auto.
    + apply list_elem_of_singleton in Hr. subst r.
      rewrite list_lookup_middle in Hl by reflexivity. congruence.
  - intros r t' Hr Hl. rewrite lookup_app_l in Hl.
    + exact (Hclosed r t' Hr Hl).
    + apply (ledger_refs_allocated st r Hok). apply elem_of_app. auto.
Qed.

Lemma update_open_trades_stamped (positions : option (list exchange_position))
    (clock : nat -> string) (st : bot_state) :
  ledger_ok st -> stamped st ->
  stamped (update_open_trades dict_eq positions clock st).
Proof.
  intros Hok [Hopen Hclosed]. destruct positions as [ps|]; [|split; assumption].
  assert (Hnd : NoDup (open_trades st) /\
                (forall x, x ∈ open_trades st -> x ∉ closed_trades st)).
  { destruct Hok as [Hnd _ _ _]. apply NoDup_app in Hnd. tauto. }
  destruct Hnd as [Hnd Hsep].
  pose proof (update_each_spec dict_eq dict_eq_status ps clock (objects st)
                (open_trades st) 0 st Hok Hnd
                (fun r Hr => conj Hr eq_refl)) as Hpass.
  cbv zeta in Hpass.
  change (update_each dict_eq ps clock 0 (open_trades st) st)
    with (update_open_trades dict_eq (Some ps) clock st) in Hpass.
  set (st' := update_open_trades dict_eq (Some ps) clock st) in *.
  destruct Hpass as (_ & Hopen' & Hclosed' & Hobjs & Hrest & _).
  assert (Hwas : forall r, r ∈ open_trades st ->
            exists k t, objects st !! r = Some t /\
              objects st' !! r = Some (Spec.reconciled ps (clock k) t) /\
              Spec.closes_ref ps (objects st) r = Spec.closes ps t).
  { intros r Hr. destruct (ok_open st Hok r Hr) as (t & Ht & _).
    apply list_elem_of_lookup_1 in Hr as [k Hk].
    exists (0 + k)%nat, t. split; [exact Ht|].
    split; [apply (Hobjs k r t Hk Ht)|].
    apply closes_ref_lookup. exact Ht. }
  split.
  - intros r t' Hr Hl. rewrite Hopen' in Hr.
    apply list_elem_of_filter in Hr as [Hnot Hr].
    destruct (Hwas r Hr) as (k & t & Ht & Ht' & Hc).
    rewrite Ht' in Hl. injection Hl as <-.
    rewrite reconciled_closed_at. rewrite <- Hc.
    destruct (Spec.closes_ref ps (objects st) r) eqn:E.
    + elim Hnot. apply list_elem_of_filter. auto.
    + exact (Hopen r t Hr Ht).
  - intros r t' Hr Hl. rewrite Hclosed' in Hr.
    apply elem_of_app in Hr as [Hr|Hr].
    + rewrite Hrest in Hl.
      * exact (Hclosed r t' Hr Hl).
      * intros Hin. exact (Hsep r Hin Hr).
    + apply list_elem_of_filter in Hr as [E Hr].
      destruct (Hwas r Hr) as (k & t & Ht & Ht' & Hc).
      rewrite Ht' in Hl. injection Hl as <-.
      rewrite reconciled_closed_at, <- Hc, E. eauto.
Qed.

Lemma reachable_stamped (st : bot_state) :
  reachable dict_eq st -> stamped st.
Proof.
  induction 1 as [env now|b st Hr IH|b st Hr IH|oid sym p now st Hr IH
                 |ps clock st Hr IH].
  - split; cbn; intros r t Hr; apply elem_of_nil in Hr; contradiction.
  - exact IH.
  - exact IH.
  - apply append_open_trade_stamped; [reflexivity| |exact IH].
    apply (reachable_ledger_ok dict_eq dict_eq_status). exact Hr.
  - apply update_open_trades_stamped; [|exact IH].
    apply (reachable_ledger_ok dict_eq dict_eq_status). exact Hr.
Qed.

(** X11. What every reachable state of the bot keeps. No trade object is
    in the ledger twice, be it in the open list, the closed list or one in
    each; an open trade has status OPEN and no closedAt, a closed trade has
    status CLOSED and a closedAt; and winCount + lossCount is the number of
    closed trades, with neither counter negative. *)
Theorem reachable_ledger_invariant (st : bot_state) :
  reachable dict_eq st ->
  NoDup (open_trades st ++ closed_trades st) /\
  (forall r, r ∈ open_trades st ->
     exists t, objects st !! r = Some t /\ t_status t = OPEN /\
               t_closed_at t = None) /\
  (forall r, r ∈ closed_trades st ->
     exists t, objects st !! r = Some t /\ t_status t = CLOSED /\
               is_Some (t_closed_at t)) /\
  win_count st + loss_count st = Z.of_nat (length (closed_trades st)) /\
  0 <= win_count st /\ 0 <= loss_count st.
Proof.
  intros Hreach.
  pose proof (reachable_ledger_ok dict_eq dict_eq_status st Hreach)
    as [Hnd Hopen Hclosed Hcount].
  destruct (reachable_stamped st Hreach) as [Hso Hsc].
  split; [exact Hnd|]. split; [|split; [|exact Hcount]].
  - intros r Hr. destruct (Hopen r Hr) as (t & Ht & Hs). exists t.
    split; [exact Ht|]. split; [exact Hs|]. exact (Hso r t Hr Ht).
  - intros r Hr. destruct (Hclosed r Hr) as (t & Ht & Hs). exists t.
    split; [exact Ht|]. split; [exact Hs|]. exact (Hsc r t Hr Ht).
Qed.

End MoreLedger.

(** ** The routes *)

Section MoreRoutes.
Import Examples Samples Facts Routes Loop Client.

Lemma to_int_not_nil (n : Z) :
  Z.to_int n <> Decimal.Pos Decimal.Nil /\ Z.to_int n <> Decimal.Neg Decimal.Nil.
Proof.
  destruct n as [|p|p]; simpl; split; intros H; try discriminate;
    injection H as H; exact (Unsigned.to_uint_nonnil p H).
Qed.

(** [str] tells ints apart. *)
Lemma py_str_inj (a b : Z) : py_str a = py_str b -> a = b.
Proof.
  unfold py_str. intros H. apply (f_equal NilZero.int_of_string) in H.
  destruct (to_int_not_nil a) as [Ha1 Ha2].
  destruct (to_int_not_nil b) as [Hb1 Hb2].
  rewrite !NilZero.isi in H by assumption.
  injection H as H. apply DecimalZ.to_int_inj. exact H.
Qed.

Lemma py_str_eqb (a b : Z) :
  String.eqb (py_str a) (py_str b) = (a =? b).
Proof.
  destruct (Z.eqb_spec a b) as [->|Hne].
  - apply String.eqb_refl.
  - apply String.eqb_neq. intros H. apply Hne. apply py_str_inj. exact H.
Qed.

Lemma close_among_unknown (signs : bool) (gp : string -> option Z)
    (accepts : nat -> bool) (id : Z) (trades : list trade) :
  forall k,
    (forall t, t ∈ trades -> t_id t <> id) ->
    close_among signs gp accepts (py_str id) k trades = (TradeNotFound, []).
Proof.
  induction trades as [|t rest IH]; intros k Hno; [reflexivity|].
  cbn [close_among]. rewrite py_str_eqb.
  destruct (Z.eqb_spec (t_id t) id) as [E|_].
  - elim (Hno t); [left|exact E].
  - apply IH. intros t' Ht'. apply Hno. right. exact Ht'.
Qed.

Lemma close_among_skips (signs : bool) (gp : string -> option Z)
    (accepts : nat -> bool) (id : Z) (before rest : list trade) :
  forall k,
    (forall t, t ∈ before -> t_id t <> id) ->
    close_among signs gp accepts (py_str id) k (before ++ rest) =
    close_among signs gp accepts (py_str id) k rest.
Proof.
  induction before as [|t before IH]; intros k Hno; [reflexivity|].
  cbn [close_among app]. rewrite py_str_eqb.
  destruct (Z.eqb_spec (t_id t) id) as [E|_].
  - elim (Hno t); [left|exact E].
  - apply IH. intros t' Ht'. apply Hno. right. exact Ht'.
Qed.

Lemma close_among_refused (gp : string -> option Z) (accepts : nat -> bool)
    (id : Z) (trades : list trade) :
  (forall k, accepts k = false) ->
  forall k,
    close_among true gp accepts (py_str id) k trades =
    (TradeNotFound,
     closing_order gp <$> filter (fun t => t_id t = id) trades).
Proof.
  intros Hacc. induction trades as [|t rest IH]; intros k; [reflexivity|].
  cbn [close_among]. rewrite py_str_eqb.
  destruct (Z.eqb_spec (t_id t) id) as [E|Hne].
  - simpl. rewrite Hacc, IH. rewrite filter_cons_True by exact E. reflexivity.
  - rewrite IH. rewrite filter_cons_False by exact Hne. reflexivity.
Qed.

(** X12. Closing a trade whose id is not among the open trades answers
    "Trade not found" and sends no order to the exchange, whether or not
    the client can sign and whatever the exchange would reply. *)
Theorem close_trade_unknown_id (signs : bool) (gp : string -> option Z)
    (accepts : nat -> bool) (id : Z) (st : bot_state) :
  (forall t, t ∈ open_list st -> t_id t <> id) ->
  close_trade signs gp accepts (py_str id) st = (TradeNotFound, []).
Proof. intros Hno. apply close_among_unknown. exact Hno. Qed.

(** X13. Closing an open trade when the exchange accepts the order: the
    route answers "Trade closed" and has sent exactly one market order,
    for the first open trade with that id, of that trade's size and on the
    opposite side (sell for a BUY trade, buy otherwise), to the product
    the lookup gave for the trade's symbol. *)
Theorem close_trade_first_match (gp : string -> option Z)
    (accepts : nat -> bool) (id : Z) (st : bot_state)
    (before after : list trade) (t : trade) :
  open_list st = before ++ t :: after ->
  (forall b, b ∈ before -> t_id b <> id) ->
  t_id t = id ->
  accepts 0%nat = true ->
  close_trade true gp accepts (py_str id) st =
    (TradeClosed (py_str id),
     [ {| o_product_id := gp (t_symbol t);
          o_side := match t_side t with BUY => "sell" | _ => "buy" end;
          o_size := t_size t;
          o_type := "market_order" |} ]).
Proof.
  intros Hlist Hbefore Hid Hacc. unfold close_trade.
  change (omap (fun r => objects st !! r) (open_trades st))
    with (open_list st).
  rewrite Hlist, close_among_skips by exact Hbefore.
  cbn [close_among]. rewrite py_str_eqb, Hid, Z.eqb_refl. simpl.
  rewrite Hacc. reflexivity.
Qed.

(** X14. Closing an open trade when it cannot go through. If the client
    has no secret to sign with, the route answers with a server error and
    sends nothing. If the exchange gives no usable reply to any order, the
    route tries every open trade with that id in turn, one order each, and
    then answers "Trade not found" although the trade is open. *)
Theorem close_trade_refused (gp : string -> option Z)
    (accepts : nat -> bool) (id : Z) (st : bot_state)
    (before after : list trade) (t : trade) :
  open_list st = before ++ t :: after ->
  (forall b, b ∈ before -> t_id b <> id) ->
  t_id t = id ->
  close_trade false gp accepts (py_str id) st = (ServerError, []) /\
  ((forall k, accepts k = false) ->
   close_trade true gp accepts (py_str id) st =
     (TradeNotFound,
      closing_order gp <$> filter (fun t => t_id t = id) (open_list st)) /\
   closing_order gp t ∈
     (closing_order gp <$> filter (fun t => t_id t = id) (open_list st))).
Proof.
  intros Hlist Hbefore Hid. split.
  - unfold close_trade.
    change (omap (fun r => objects st !! r) (open_trades st))
      with (open_list st).
    rewrite Hlist, close_among_skips by exact Hbefore.
    cbn [close_among]. rewrite py_str_eqb, Hid, Z.eqb_refl. reflexivity.
  - intros Hacc. split; [apply close_among_refused; exact Hacc|].
    apply list_elem_of_fmap_2. apply list_elem_of_filter. split; [exact Hid|].
    rewrite Hlist. apply elem_of_app. right. left.
Qed.

Lemma length_omap_le {A B} (f : A -> option B) (l : list A) :
  (length (omap f l) <= length l)%nat.
Proof.
  induction l as [|a l IH]; simpl; [lia|].
  change (list_omap A B f l) with (omap f l).
  destruct (f a); simpl; lia.
Qed.

Lemma length_omap_all {A B} (f : A -> option B) (l : list A) :
  (forall a, a ∈ l -> is_Some (f a)) -> length (omap f l) = length l.
Proof.
  induction l as [|a l IH]; intros Hall; [reflexivity|]. simpl.
  change (list_omap A B f l) with (omap f l).
  destruct (Hall a) as [b Hb]; [left|]. rewrite Hb. simpl.
  rewrite IH; [reflexivity|]. intros x Hx. apply Hall. right. exact Hx.
Qed.

Lemma omap_app' {A B} (f : A -> option B) (l k : list A) :
  omap f (l ++ k) = omap f l ++ omap f k.
Proof.
  induction l as [|a l IH]; [reflexivity|]. simpl.
  change (list_omap A B f (l ++ k)) with (omap f (l ++ k)).
  change (list_omap A B f l) with (omap f l).
  destruct (f a); simpl; rewrite IH; reflexivity.
Qed.

(** X15. The trade listing is a bounded read. It returns every open trade
    and, of the closed ones, the most recent 50 in the order they were
    closed: never more than 50, the whole history while it has at most 50
    trades, and always the tail end of it. On a ledger that keeps its
    invariant nothing is lost: all open trades are listed and exactly
    [min(50, n)] of the [n] closed ones. *)
Theorem get_trades_bounded (st : bot_state) :
  let all_closed := omap (fun r => objects st !! r) (closed_trades st) in
  fst (get_trades st) = open_list st /\
  (length (snd (get_trades st)) <= 50)%nat /\
  (exists older, all_closed = older ++ snd (get_trades st)) /\
  ((length (closed_trades st) <= 50)%nat ->
     snd (get_trades st) = all_closed) /\
  (ledger_ok st ->
     length (fst (get_trades st)) = length (open_trades st) /\
     length (snd (get_trades st)) =
       Nat.min 50 (length (closed_trades st))).
Proof.
  cbn zeta. unfold get_trades, last_n. cbn [fst snd].
  split; [reflexivity|]. split.
  { etransitivity; [apply length_omap_le|]. rewrite length_drop. lia. }
  split.
  { exists (omap (fun r => objects st !! r)
              (take (length (closed_trades st) - 50) (closed_trades st))).
    rewrite <- omap_app', take_drop. reflexivity. }
  split.
  { intros Hle. replace (length (closed_trades st) - 50)%nat with 0%nat by lia.
    reflexivity. }
  intros Hok. split.
  - apply length_omap_all. intros r Hr.
    destruct (ok_open st Hok r Hr) as (t & Ht & _). eauto.
  - rewrite length_omap_all.
    + rewrite length_drop. lia.
    + intros r Hr.
      assert (Hin : r ∈ closed_trades st).
      { rewrite <- (take_drop (length (closed_trades st) - 50)
                      (closed_trades st)).
        apply elem_of_app. right. exact Hr. }
      destruct (ok_closed st Hok r Hin) as (t & Ht & _). eauto.
Qed.

Lemma switch_environment_cases (requested : option string) (srv : server) :
  let env := default "testnet" requested in
  (env = "testnet" \/ env = "live") /\
    switch_environment requested srv =
      (EnvironmentSwitched env,
       {| bot := set_environment env (bot srv); ENVIRONMENT_MODE := env |})
  \/
  (env <> "testnet" /\ env <> "live") /\
    switch_environment requested srv = (InvalidEnvironment, srv).
Proof.
  cbn zeta. unfold switch_environment, Config.update_environment.
  destruct (String.eqb_spec (default "testnet" requested) "testnet") as [E|N1].
  - left. split; [left; exact E|reflexivity].
  - destruct (String.eqb_spec (default "testnet" requested) "live") as [E|N2].
    + left. split; [right; exact E|reflexivity].
    + right. split; [split; assumption|reflexivity].
Qed.

(** X16. Switching the environment. A request is accepted exactly when it
    names testnet or live (a body without the key counts as testnet); an
    accepted request sets both the mode of the configuration and the
    environment of the bot state to that name, for which the
    configuration has an entry; a rejected one changes nothing. So after
    any sequence of requests the two copies of the mode agree, the mode is
    the one the process started with or one of testnet and live, and the
    ledger is as it was. *)
Theorem switch_environment_keeps_modes_in_step
    (requests : list (option string)) (mode now : string)
    (k1 k2 k3 k4 : option string) :
  let srv := switch_all requests (initial_server mode now) in
  environment (bot srv) = ENVIRONMENT_MODE srv /\
  (ENVIRONMENT_MODE srv = mode \/ ENVIRONMENT_MODE srv = "testnet" \/
   ENVIRONMENT_MODE srv = "live") /\
  bot srv = set_environment (ENVIRONMENT_MODE srv) (initial_state mode now) /\
  (forall requested srv0,
     match switch_environment requested srv0 with
     | (EnvironmentSwitched env, srv1) =>
         env = default "testnet" requested /\
         (env = "testnet" \/ env = "live") /\
         ENVIRONMENT_MODE srv1 = env /\ environment (bot srv1) = env /\
         is_Some (Config.get_config k1 k2 k3 k4 (ENVIRONMENT_MODE srv1))
     | (InvalidEnvironment, srv1) =>
         srv1 = srv0 /\
         default "testnet" requested <> "testnet" /\
         default "testnet" requested <> "live"
     end).
Proof.
  cbn zeta.
  assert (Hinv : forall srv0,
            environment (bot srv0) = ENVIRONMENT_MODE srv0 /\
            (ENVIRONMENT_MODE srv0 = mode \/ ENVIRONMENT_MODE srv0 = "testnet"
             \/ ENVIRONMENT_MODE srv0 = "live") /\
            bot srv0 = set_environment (ENVIRONMENT_MODE srv0)
                         (initial_state mode now) ->
            let srv := switch_all requests srv0 in
            environment (bot srv) = ENVIRONMENT_MODE srv /\
            (ENVIRONMENT_MODE srv = mode \/ ENVIRONMENT_MODE srv = "testnet"
             \/ ENVIRONMENT_MODE srv = "live") /\
            bot srv = set_environment (ENVIRONMENT_MODE srv)
                        (initial_state mode now)).
  { induction requests as [|requested rest IH]; intros srv0 H0; [exact H0|].
    unfold switch_all. cbn [fold_left]. apply IH.
    destruct (switch_environment_cases requested srv0)
      as [[Hv ->]|[_ ->]]; [|exact H0].
    cbn. destruct H0 as (_ & _ & Hbot). rewrite Hbot.
    split; [reflexivity|]. split; [tauto|reflexivity]. }
  split; [apply Hinv; cbn; auto|]. split; [apply Hinv; cbn; auto|].
  split; [apply Hinv; cbn; auto|].
  intros requested srv0.
  destruct (switch_environment_cases requested srv0)
    as [[Hv ->]|[[N1 N2] ->]].
  - cbn. split; [reflexivity|]. split; [exact Hv|].
    split; [reflexivity|]. split; [reflexivity|].
    unfold Config.get_config, Config.CONFIG.
    destruct Hv as [->| ->]; cbn; eauto.
  - auto.
Qed.

Lemma find_product_id_skips (before rest : list product) (symbol : string) :
  (forall b, b ∈ before -> exists s, p_symbol b = Some s /\ s <> symbol) ->
  find_product_id (before ++ rest) symbol = find_product_id rest symbol.
Proof.
  induction before as [|b before IH]; intros Hbefore; [reflexivity|].
  cbn [find_product_id app].
  destruct (Hbefore b) as (s & -> & Hne); [left|].
  apply String.eqb_neq in Hne. rewrite Hne. apply IH.
  intros b' Hb'. apply Hbefore. right. exact Hb'.
Qed.

(** X17. The product lookup returns the id of the first product that
    carries the symbol, and nothing when no product does or when the
    request failed. An entry without a symbol ahead of the match hides it:
    the lookup then returns nothing although the product is listed. *)
Theorem get_product_id_first_match (products : list product)
    (symbol : string) :
  (forall before p after,
     products = before ++ p :: after ->
     (forall b, b ∈ before -> exists s, p_symbol b = Some s /\ s <> symbol) ->
     (p_symbol p = Some symbol ->
        get_product_id (Some products) symbol = p_id p) /\
     (p_symbol p = None -> get_product_id (Some products) symbol = None)) /\
  ((forall p, p ∈ products ->
      exists s, p_symbol p = Some s /\ s <> symbol) ->
   get_product_id (Some products) symbol = None) /\
  get_product_id None symbol = None.
Proof.
  split; [|split; [|reflexivity]].
  - intros before p after -> Hbefore. cbn [get_product_id].
    rewrite find_product_id_skips by exact Hbefore. cbn [find_product_id].
    split; intros ->; [|reflexivity]. rewrite String.eqb_refl. reflexivity.
  - intros Hall. cbn [get_product_id].
    rewrite <- (app_nil_r products). apply find_product_id_skips. exact Hall.
Qed.

End MoreRoutes.

(** ** The trading cycle *)

Section MoreLoop.
Import Examples Samples Facts Routes Loop Client.

Variable dict_eq : trade -> trade -> bool.

Hypothesis dict_eq_status :
  forall a b, dict_eq a b = true -> t_status a = t_status b.

(** The one way [process_symbol] does anything: every gate is passed and
    an order goes out. *)
Lemma process_symbol_cases (rp : risk_params) (symbol : string) (f : feed)
    (st : bot_state) :
  process_symbol rp symbol f st = (st, []) \/
  exists df sg ml position pid,
    f_candles f = Some df /\
    generate_signal df symbol = Ok (Some sg) /\
    MLModel.confidence (f_model f) df = Some ml /\
    lt ((sig_confidence sg + ml) / 2)%float 0.65 = false /\
    calculate_position rp (Some sg) (account_balance st) = Ok (Some position) /\
    get_product_id (f_products f) symbol = Some pid /\ pid <> 0 /\
    process_symbol rp symbol f st =
      (match f_order_id f with
       | Some order_id => open_trade order_id symbol position (f_now f) st
       | None => st
       end,
       [ {| o_product_id := Some pid;
            o_side := direction_name (side position);
            o_size := position_size position;
            o_type := "market_order" |} ]).
Proof.
  unfold process_symbol.
  destruct (f_candles f) as [[|c df]|] eqn:Hdf; [left; reflexivity| |left; reflexivity].
  destruct (generate_signal (c :: df) symbol) as [[sg|]|] eqn:Hsg;
    [|left; reflexivity|left; reflexivity].
  destruct (MLModel.confidence (f_model f) (c :: df)) as [ml|] eqn:Hml;
    [|left; reflexivity].
  destruct (lt _ 0.65) eqn:Hgate; [left; reflexivity|].
  destruct (calculate_position rp (Some sg) (account_balance st))
    as [[position|]|] eqn:Hpos; [|left; reflexivity|left; reflexivity].
  destruct (get_product_id (f_products f) symbol) as [pid|] eqn:Hpid;
    [|left; reflexivity].
  destruct (Z.eqb_spec pid 0) as [_|Hne]; [left; reflexivity|].
  right. exists (c :: df), sg, ml, position, pid.
  repeat (split; [first [reflexivity|assumption]|]).
  destruct (f_order_id f); reflexivity.
Qed.

(** A plan is laid at the signal's entry price and on the signal's side. *)
Lemma calculate_position_plan (rp : risk_params) (sg : signal)
    (balance : float) (p : position) :
  calculate_position rp (Some sg) balance = Ok (Some p) ->
  entry_price p = default 10000%float (sig_entry_price sg) /\
  side p = sig_direction sg.
Proof.
  unfold calculate_position.
  destruct (lt (sig_confidence sg) 0.5); [discriminate|].
  destruct (sig_direction sg); cbn beta iota zeta;
    match goal with
    | |- context [if gt ?d 0 then ?a else ?b] =>
        destruct (if gt d 0 then a else b)
    end; cbn; try discriminate;
    destruct (truediv _ _); cbn; try discriminate;
    intros H; injection H as <-; split; reflexivity.
Qed.

(** X18. What one symbol's turn can do. Either nothing happens, or exactly
    one market order goes out, and then: the candles gave a signal, the
    combined confidence is not below 0.65, and the order carries the plan
    that [calculate_position] lays for that signal at the account balance
    of the moment. Its side is the signal's direction, BUY or SELL, never
    NEUTRAL; its size is the plan's, which is the smaller of
    [balance * max_risk_per_trade / 200] and
    [balance * max_position_size / 10000], the plan being laid at the
    fallback entry price 10000; its product id is the one the lookup gave,
    and is not 0. The ledger is untouched when the order is not
    acknowledged, and otherwise gains exactly one trade, appended to the
    open list with the order's id, the symbol, the plan's levels, status
    OPEN and pnl 0.0. Closed trades, totals, counters and the balance are
    never touched. *)
Theorem process_symbol_effects (rp : risk_params) (symbol : string)
    (f : feed) (st : bot_state) :
  let st' := fst (process_symbol rp symbol f st) in
  let sent := snd (process_symbol rp symbol f st) in
  (sent = [] /\ st' = st \/
   exists df sg ml o position pid,
     f_candles f = Some df /\
     generate_signal df symbol = Ok (Some sg) /\
     MLModel.confidence (f_model f) df = Some ml /\
     lt ((sig_confidence sg + ml) / 2)%float 0.65 = false /\
     calculate_position rp (Some sg) (account_balance st)
       = Ok (Some position) /\
     get_product_id (f_products f) symbol = Some pid /\
     sent = [o] /\
     o_product_id o = Some pid /\ pid <> 0 /\ o_type o = "market_order" /\
     o_size o = position_size position /\
     o_size o =
       min (account_balance st * max_risk_per_trade rp / 200)%float
           (account_balance st * max_position_size rp / 10000)%float /\
     o_side o = direction_name (side position) /\
     side position = sig_direction sg /\
     (o_side o = "BUY" \/ o_side o = "SELL") /\
     entry_price position = 10000%float /\
     match f_order_id f with
     | None => st' = st
     | Some order_id =>
         st' = open_trade order_id symbol position (f_now f) st /\
         open_trades st' = open_trades st ++ [length (objects st)] /\
         objects st' !! length (objects st) =
           Some (new_trade order_id symbol position (f_now f)) /\
         objects st' !! length (objects st) =
           Some {| t_id := order_id;
                   t_symbol := symbol;
                   t_side := sig_direction sg;
                   t_entry_price := 10000;
                   t_size := o_size o;
                   t_stop_loss := stop_loss position;
                   t_take_profit := take_profit position;
                   t_risk :=
                     (account_balance st * max_risk_per_trade rp)%float;
                   t_potential_profit := potential_profit position;
                   t_pnl := 0.0;
                   t_status := OPEN;
                   t_opened_at := f_now f;
                   t_closed_at := None |}
     end) /\
  closed_trades st' = closed_trades st /\
  total_pnl st' = total_pnl st /\
  win_count st' = win_count st /\
  loss_count st' = loss_count st /\
  account_balance st' = account_balance st /\
  running st' = running st.
Proof.
  cbn zeta.
  destruct (process_symbol_cases rp symbol f st)
    as [->|(df & sg & ml & position & pid & Hdf & Hsg & Hml & Hgate & Hpos
            & Hpid & Hne & ->)].
  { cbn. split; [left; auto|]. repeat split; reflexivity. }
  cbn [fst snd]. split.
  - right. eexists df, sg, ml, _, position, pid.
    do 6 (split; [assumption|]). split; [reflexivity|]. cbn.
    split; [reflexivity|]. split; [exact Hne|]. split; [reflexivity|].
    split; [reflexivity|].
    pose proof Hsg as Hemit.
    rewrite generate_signal_rows in Hemit. injection Hemit as Hemit.
    destruct (emit_cases _ _ _ _ _ _ Hemit) as (_ & Hdir & _).
    destruct (emit_Some _ _ _ _ _ _ Hemit) as [Hnone Hconf].
    destruct (fallback_plan rp sg (account_balance st) Hnone Hconf Hdir)
      as (p & Hp & Hentry & Hside & _ & Hrisk & Hsize & _).
    assert (p = position) as -> by congruence.
    split; [exact Hsize|]. split; [reflexivity|]. split; [exact Hside|].
    split.
    { rewrite Hside. destruct (sig_direction sg); [congruence|left|right];
        reflexivity. }
    split; [exact Hentry|].
    destruct (f_order_id f); [|reflexivity].
    split; [reflexivity|]. split; [reflexivity|].
    assert (objects (open_trade z symbol position (f_now f) st)
              !! length (objects st)
            = Some (new_trade z symbol position (f_now f))) as Hnew
      by (cbn; apply list_lookup_middle; reflexivity).
    split; [exact Hnew|]. rewrite Hnew. unfold new_trade.
    rewrite Hside, Hentry, Hrisk. reflexivity.
  - destruct (f_order_id f); repeat split; reflexivity.
Qed.

Lemma emit_confidence (df : frame) (symbol : string) (obs : list order_block)
    (chs : list choch_point) (engs : list engulfing_pattern) (sg : signal) :
  emit df symbol obs chs engs = Some sg ->
  (sig_confidence sg = 1.0%float /\ obs <> [] /\ chs <> [] /\ engs <> []) \/
  sig_confidence sg = 0.6%float \/ sig_confidence sg = 0.7%float.
Proof.
  rewrite emit_spec. unfold Spec.strength.
  destruct (list_last_cases obs) as [->|(? & ? & ->)];
    destruct (list_last_cases chs) as [->|(? & ? & ->)];
    destruct (list_last_cases engs) as [->|(? & ? & ->)];
    rewrite ?weight_snoc; simpl Spec.weight; intros H;
    match type of H with
    | (if ?b then _ else _) = _ =>
        let v := eval vm_compute in b in
        change b with v in H; cbv iota in H
    end;
    try discriminate; injection H as <-; simpl.
  all: try (right; left; reflexivity).
  all: try (right; right; reflexivity).
  left. split; [reflexivity|]. repeat split; apply snoc_not_nil.
Qed.

(** X19. With the model's answer at 0.5, which is also what a missing
    model gives, the combined-confidence gate of 0.65 lets an order through
    only for a signal of confidence 1.0: all three detectors must have an
    event, which takes a frame of at least 52 rows. *)
Theorem neutral_model_needs_all_detectors (rp : risk_params)
    (symbol : string) (f : feed) (st : bot_state) (df : frame) :
  f_candles f = Some df ->
  MLModel.confidence (f_model f) df = Some 0.5%float ->
  snd (process_symbol rp symbol f st) <> [] ->
  exists sg obs chs engs,
    generate_signal df symbol = Ok (Some sg) /\
    sig_confidence sg = 1.0%float /\
    detect_order_blocks df 50 = Ok obs /\ obs <> [] /\
    detect_choch df = Ok chs /\ chs <> [] /\
    detect_engulfing df = Ok engs /\ engs <> [] /\
    (52 <= length df)%nat.
Proof.
  intros Hdf Hml Hsent.
  destruct (process_symbol_cases rp symbol f st)
    as [E|(df' & sg & ml & position & pid & Hdf' & Hsg & Hml' & Hgate & _)].
  { rewrite E in Hsent. elim Hsent. reflexivity. }
  rewrite Hdf in Hdf'. injection Hdf' as <-.
  rewrite Hml in Hml'. injection Hml' as <-.
  exists sg, (Spec.order_blocks df 50), (Rows.choch_events df),
    (engulfing_events df).
  split; [exact Hsg|].
  rewrite generate_signal_rows in Hsg. injection Hsg as Hsg.
  destruct (emit_confidence _ _ _ _ _ _ Hsg)
    as [(Hc & Hob & Hch & Heng)|[Hc|Hc]];
    try (rewrite Hc in Hgate; vm_compute in Hgate; discriminate).
  split; [exact Hc|]. split; [apply detect_order_blocks_spec|].
  split; [exact Hob|]. split; [apply detect_choch_spec|].
  split; [exact Hch|]. split; [apply detect_engulfing_spec|].
  split; [exact Heng|]. apply order_blocks_need_rows in Hob. lia.
Qed.

(** X20. A symbol with fewer than 30 candles of history never trades: the
    model is not asked, the confidence it stands in with is 0.5, and no
    signal from so short a frame passes the gate. No order is sent and the
    bot state stays as it is, whatever the candles, the model and the
    exchange say. *)
Theorem short_history_never_trades (rp : risk_params) (symbol : string)
    (f : feed) (st : bot_state) (df : frame) :
  f_candles f = Some df ->
  (length df < 30)%nat ->
  process_symbol rp symbol f st = (st, []).
Proof.
  intros Hdf Hshort.
  destruct (process_symbol_cases rp symbol f st)
    as [E|(df' & sg & ml & position & pid & Hdf' & Hsg & Hml & Hgate & _)];
    [exact E|].
  rewrite Hdf in Hdf'. injection Hdf' as <-.
  unfold MLModel.confidence in Hml.
  apply Nat.ltb_lt in Hshort as Hlt. rewrite Hlt in Hml. injection Hml as <-.
  rewrite generate_signal_rows in Hsg. injection Hsg as Hsg.
  destruct (emit_confidence _ _ _ _ _ _ Hsg)
    as [(Hc & Hob & _)|[Hc|Hc]];
    try (rewrite Hc in Hgate; vm_compute in Hgate; discriminate).
  apply order_blocks_need_rows in Hob. lia.
Qed.

(** X21. A cycle that cannot start never starts again on its own. While
    the bot is stopped, or the number of open trades has reached
    max_open_trades, or the client has no secret to sign with, a cycle
    sends no order and leaves the whole bot state as it is, and so does
    any number of further cycles under the same parameters: in particular
    a bot throttled on open trades no longer reconciles, so the trades
    that throttle it are never closed by the loop. *)
Theorem idle_cycles_change_nothing (cfg : Config.endpoints)
    (rp : risk_params) (inputs : list cycle_input) (st : bot_state) :
  running st = false \/
  max_open_trades rp <= Z.of_nat (length (open_trades st)) \/
  can_sign cfg = false ->
  trading_cycles dict_eq cfg rp inputs st = (st, []).
Proof.
  intros Hidle.
  assert (Hone : forall inp, trading_cycle dict_eq cfg rp inp st = (st, [])).
  { intros inp. unfold trading_cycle.
    destruct (running st); [|reflexivity]. cbn [negb].
    destruct (Z.leb_spec (max_open_trades rp)
                (Z.of_nat (length (open_trades st)))) as [_|Hlt];
      [reflexivity|].
    destruct (can_sign cfg); [|reflexivity].
    destruct Hidle as [Hi|[Hi|Hi]]; [discriminate|lia|discriminate]. }
  induction inputs as [|inp rest IH]; [reflexivity|].
  cbn [trading_cycles]. rewrite Hone, IH. reflexivity.
Qed.

Lemma list_remove_length (objs : list trade) (r : ref) (l l' : list ref) :
  list_remove dict_eq objs r l = Some l' -> length l = S (length l').
Proof.
  revert l'. induction l as [|a l IH]; intros l' H; [discriminate|].
  cbn [list_remove] in H. destruct (same_item dict_eq objs a r).
  - injection H as <-. reflexivity.
  - destruct (list_remove dict_eq objs r l) as [l0|]; [|discriminate].
    injection H as <-. simpl. rewrite (IH l0 eq_refl). reflexivity.
Qed.

(** Reconciling a trade touches neither the balance nor the running flag,
    and never lengthens the open list. *)
Lemma update_trade_frame (ps : list exchange_position) (now : string)
    (r : ref) (st : bot_state) :
  let st' := update_trade dict_eq ps now r st in
  account_balance st' = account_balance st /\
  running st' = running st /\
  (length (open_trades st') <= length (open_trades st))%nat.
Proof.
  cbn zeta. unfold update_trade.
  destruct (objects st !! r) as [t|]; [|auto].
  destruct (matching_position ps (t_symbol t)) as [pos|]; [|auto].
  cbn zeta. destruct (PrimFloat.eqb _ 0); [|cbn; auto].
  unfold close_matched. cbn zeta.
  destruct (list_remove _ _ _ _) as [l'|] eqn:E; cbn; [|auto].
  cbn in E. apply list_remove_length in E. split; [reflexivity|].
  split; [reflexivity|]. lia.
Qed.

Lemma update_each_frame (ps : list exchange_position) (clock : nat -> string)
    (snapshot : list ref) :
  forall (k : nat) (st : bot_state),
    let st' := update_each dict_eq ps clock k snapshot st in
    account_balance st' = account_balance st /\
    running st' = running st /\
    (length (open_trades st') <= length (open_trades st))%nat.
Proof.
  induction snapshot as [|r rest IH]; intros k st; [cbn; auto|].
  cbn zeta. cbn [update_each].
  destruct (update_trade_frame ps (clock k) r st) as (Hb & Hr & Hl).
  destruct (IH (S k) (update_trade dict_eq ps (clock k) r st))
    as (Hb' & Hr' & Hl').
  split; [congruence|]. split; [congruence|]. lia.
Qed.

Lemma update_open_trades_frame (positions : option (list exchange_position))
    (clock : nat -> string) (st : bot_state) :
  let st' := update_open_trades dict_eq positions clock st in
  account_balance st' = account_balance st /\
  running st' = running st /\
  (length (open_trades st') <= length (open_trades st))%nat.
Proof.
  destruct positions as [ps|]; [|cbn; auto].
  apply update_each_frame.
Qed.

Lemma process_symbols_frame (rp : risk_params) (feeds : list (string * feed)) :
  forall st,
    let st' := fst (process_symbols rp feeds st) in
    account_balance st' = account_balance st /\
    running st' = running st /\
    (length (open_trades st') <= length (open_trades st) + length feeds)%nat /\
    (reachable dict_eq st -> reachable dict_eq st').
Proof.
  induction feeds as [|[symbol f] rest IH]; intros st; cbn zeta.
  { cbn. repeat split; auto. lia. }
  cbn [process_symbols].
  destruct (process_symbol rp symbol f st) as [st1 sent1] eqn:E1.
  destruct (process_symbols rp rest st1) as [st2 sent2] eqn:E2.
  specialize (IH st1). rewrite E2 in IH. cbn [fst] in IH |- *.
  destruct IH as (Hb & Hr & Hl & Hreach).
  assert (H1 : account_balance st1 = account_balance st /\
               running st1 = running st /\
               (length (open_trades st1) <= S (length (open_trades st)))%nat /\
               (reachable dict_eq st -> reachable dict_eq st1)).
  { destruct (process_symbol_cases rp symbol f st)
      as [E|(df & sg & ml & position & pid & _ & _ & _ & _ & _ & _ & _ & E)];
      rewrite E in E1; injection E1 as <- _.
    - repeat split; auto.
    - destruct (f_order_id f) as [oid|]; [|repeat split; auto].
      cbn. rewrite length_app. cbn. repeat split; try lia.
      intros H. apply (reach_open dict_eq oid symbol position (f_now f)).
      exact H. }
  destruct H1 as (Hb1 & Hr1 & Hl1 & Hreach1).
  split; [congruence|]. split; [congruence|]. split; [cbn; lia|auto].
Qed.

(** X22. The open-trade cap is checked once per cycle, before the symbols
    are scanned, so it bounds the open list only loosely: over any number
    of cycles that scan at most [n] symbols each, the number of open
    trades never goes above the larger of its starting value and
    [max_open_trades - 1 + n]. *)
Theorem open_trades_stay_bounded (cfg : Config.endpoints) (rp : risk_params)
    (n : nat) (inputs : list cycle_input) (st : bot_state) :
  (forall inp, inp ∈ inputs -> (length (c_feeds inp) <= n)%nat) ->
  (length (open_trades (fst (trading_cycles dict_eq cfg rp inputs st)))
   <= Nat.max (length (open_trades st))
        (Z.to_nat (max_open_trades rp) - 1 + n))%nat.
Proof.
  set (B := (Z.to_nat (max_open_trades rp) - 1 + n)%nat).
  assert (Hone : forall inp st0, (length (c_feeds inp) <= n)%nat ->
            (length (open_trades (fst (trading_cycle dict_eq cfg rp inp st0)))
             <= Nat.max (length (open_trades st0)) B)%nat).
  { intros inp st0 Hn. unfold trading_cycle.
    destruct (negb (running st0)); [cbn; lia|].
    destruct (Z.leb_spec (max_open_trades rp)
                (Z.of_nat (length (open_trades st0)))); [cbn; lia|].
    destruct (negb (can_sign cfg)); [cbn; lia|].
    destruct (refresh_balance _ st0) as [st1|] eqn:Hrb; [|cbn; lia].
    assert (Hopen1 : open_trades st1 = open_trades st0).
    { unfold refresh_balance in Hrb.
      destruct (get_wallet_balance (c_wallet inp)) as [|e ?]; [discriminate|].
      destruct (balance e); [|discriminate]. injection Hrb as <-. reflexivity. }
    destruct (process_symbols rp (c_feeds inp) st1) as [st2 sent] eqn:E2.
    pose proof (process_symbols_frame rp (c_feeds inp) st1) as Hf.
    cbn zeta in Hf. rewrite E2 in Hf. cbn [fst] in Hf |- *.
    destruct Hf as (_ & _ & Hl & _).
    destruct (update_open_trades_frame (c_positions inp) (c_clock inp) st2)
      as (_ & _ & Hl').
    rewrite Hopen1 in Hl. unfold B. lia. }
  revert st. induction inputs as [|inp rest IH]; intros st Hn; [cbn; lia|].
  cbn [trading_cycles].
  destruct (trading_cycle dict_eq cfg rp inp st) as [st1 sent1] eqn:E1.
  destruct (trading_cycles dict_eq cfg rp rest st1) as [st2 sent2] eqn:E2.
  cbn [fst].
  assert (H1 := Hone inp st (Hn inp ltac:(left))).
  rewrite E1 in H1. cbn [fst] in H1.
  assert (H2 := IH st1 (fun i Hi => Hn i ltac:(right; exact Hi))).
  rewrite E2 in H2. cbn [fst] in H2. fold B in H2. lia.
Qed.

(** X23. Every state the trading loop produces is a reachable state of the
    bot: a cycle only refreshes the balance, appends acknowledged orders
    and reconciles. So whatever holds in every reachable state, the ledger
    invariant and the safety of the status operation among it, holds after
    any number of cycles. *)
Theorem trading_cycles_reachable (cfg : Config.endpoints) (rp : risk_params)
    (inputs : list cycle_input) (st : bot_state) :
  reachable dict_eq st ->
  reachable dict_eq (fst (trading_cycles dict_eq cfg rp inputs st)) /\
  ledger_ok (fst (trading_cycles dict_eq cfg rp inputs st)).
Proof.
  assert (Hone : forall inp st0, reachable dict_eq st0 ->
            reachable dict_eq (fst (trading_cycle dict_eq cfg rp inp st0))).
  { intros inp st0 Hreach. unfold trading_cycle.
    destruct (negb (running st0)); [exact Hreach|].
    destruct (_ <=? _); [exact Hreach|].
    destruct (negb (can_sign cfg)); [exact Hreach|].
    destruct (refresh_balance _ st0) as [st1|] eqn:Hrb; [|exact Hreach].
    assert (Hreach1 : reachable dict_eq st1).
    { unfold refresh_balance in Hrb.
      destruct (get_wallet_balance (c_wallet inp)) as [|e ?]; [discriminate|].
      destruct (balance e) as [b|]; [|discriminate]. injection Hrb as <-.
      apply reach_balance. exact Hreach. }
    destruct (process_symbols rp (c_feeds inp) st1) as [st2 sent] eqn:E2.
    pose proof (process_symbols_frame rp (c_feeds inp) st1) as Hf.
    cbn zeta in Hf. rewrite E2 in Hf. cbn [fst] in Hf |- *.
    destruct Hf as (_ & _ & _ & Hr2).
    apply reach_update. apply Hr2. exact Hreach1. }
  intros Hreach.
  assert (Hall : reachable dict_eq
                   (fst (trading_cycles dict_eq cfg rp inputs st))).
  { revert st Hreach. induction inputs as [|inp rest IH]; intros st Hreach;
      [exact Hreach|].
    cbn [trading_cycles].
    destruct (trading_cycle dict_eq cfg rp inp st) as [st1 sent1] eqn:E1.
    pose proof (IH st1) as IH1.
    destruct (trading_cycles dict_eq cfg rp rest st1) as [st2 sent2].
    cbn [fst] in *. apply IH1.
    pose proof (Hone inp st Hreach) as H1. rewrite E1 in H1. exact H1. }
  split; [exact Hall|].
  apply (reachable_ledger_ok dict_eq dict_eq_status). exact Hall.
Qed.

(** X24. The wallet in a cycle that runs. When the wallet request fails,
    answers with a status other than 200, or has no entries, the client
    hands back a mock wallet and the cycle sets the account balance to
    10000.0, whatever it was, and goes on to scan and reconcile. When the
    first wallet entry has no number under its balance, the whole cycle is
    given up: no symbol is scanned, nothing is reconciled, the state stays
    as it is. *)
Theorem failed_wallet_resets_balance (cfg : Config.endpoints)
    (rp : risk_params) (inp : cycle_input) (st : bot_state) :
  running st = true ->
  Z.of_nat (length (open_trades st)) < max_open_trades rp ->
  can_sign cfg = true ->
  (c_wallet inp = None \/
   (exists status result, c_wallet inp = Some (status, result) /\
      (status <> 200%nat \/ result = None \/ result = Some [])) ->
   account_balance (fst (trading_cycle dict_eq cfg rp inp st)) = 10000%float /\
   trading_cycle dict_eq cfg rp inp st =
     (update_open_trades dict_eq (c_positions inp) (c_clock inp)
        (fst (process_symbols rp (c_feeds inp)
                (set_account_balance 10000 st))),
      snd (process_symbols rp (c_feeds inp) (set_account_balance 10000 st))))
  /\
  (forall e es, c_wallet inp = Some (200%nat, Some (e :: es)) ->
     balance e = None ->
     trading_cycle dict_eq cfg rp inp st = (st, [])).
Proof.
  intros Hrun Hopen Hsign.
  assert (Hhead :
            trading_cycle dict_eq cfg rp inp st =
            match refresh_balance (get_wallet_balance (c_wallet inp)) st with
            | None => (st, [])
            | Some st1 =>
                let '(st2, sent) := process_symbols rp (c_feeds inp) st1 in
                (update_open_trades dict_eq (c_positions inp) (c_clock inp) st2,
                 sent)
            end) by
    (unfold trading_cycle; rewrite Hrun, Hsign; cbn [negb];
     destruct (Z.leb_spec (max_open_trades rp)
                 (Z.of_nat (length (open_trades st)))); [lia|reflexivity]).
  split.
  - intros Hfail.
    assert (Hmock : get_wallet_balance (c_wallet inp) = mock_wallet).
    { destruct Hfail as [->|(status & result & -> & Hwhy)]; [reflexivity|].
      unfold get_wallet_balance.
      destruct (Nat.eqb_spec status 200) as [->|_]; [|reflexivity].
      destruct Hwhy as [H|[->| ->]]; [congruence|reflexivity|reflexivity]. }
    rewrite Hhead, Hmock. cbn [refresh_balance mock_wallet balance].
    pose proof (process_symbols_frame rp (c_feeds inp)
                  (set_account_balance 10000 st)) as Hf.
    cbn zeta in Hf.
    destruct (process_symbols rp (c_feeds inp) (set_account_balance 10000 st))
      as [st2 sent]. cbn [fst snd] in *.
    split; [|reflexivity].
    destruct (update_open_trades_frame (c_positions inp) (c_clock inp) st2)
      as (Hb & _). destruct Hf as (Hb2 & _). rewrite Hb, Hb2. reflexivity.
  - intros e es Hw He. rewrite Hhead, Hw. cbn. rewrite He. reflexivity.
Qed.

End MoreLoop.

(** ** The added properties on the sample inputs *)

Section MoreWitnesses.
Import Examples Samples Facts Routes Loop Client.

Ltac in_list H :=
  repeat (apply elem_of_cons in H as [->|H]);
  [..|apply elem_of_nil in H; contradiction].

Lemma reconciliation_without_match_witness :
  update_open_trades trade_eqb (Some unrelated_positions) sample_clock
    sample_ledger = sample_ledger /\
  update_open_trades trade_eqb (Some []) sample_clock sample_ledger =
    sample_ledger /\
  update_open_trades trade_eqb None sample_clock sample_ledger = sample_ledger.
Proof.
  apply reconciliation_without_match.
  intros r t Hr Ht. cbn in Hr. in_list Hr; cbn in Ht;
    injection Ht as <-; reflexivity.
Defined.

Lemma reconciliation_is_idempotent_witness :
  update_open_trades trade_eqb (Some sample_positions) (fun _ => "t9")
    (update_open_trades trade_eqb (Some sample_positions) sample_clock
       sample_ledger) =
  update_open_trades trade_eqb (Some sample_positions) sample_clock
    sample_ledger.
Proof.
  apply (reconciliation_is_idempotent trade_eqb trade_eqb_status).
  exact sample_ledger_ok.
Defined.

Lemma reachable_ledger_invariant_witness :
  let st := update_open_trades trade_eqb (Some sample_positions) sample_clock
              sample_ledger in
  NoDup (open_trades st ++ closed_trades st) /\
  (forall r, r ∈ open_trades st ->
     exists t, objects st !! r = Some t /\ t_status t = OPEN /\
               t_closed_at t = None) /\
  (forall r, r ∈ closed_trades st ->
     exists t, objects st !! r = Some t /\ t_status t = CLOSED /\
               is_Some (t_closed_at t)) /\
  win_count st + loss_count st = Z.of_nat (length (closed_trades st)) /\
  0 <= win_count st /\ 0 <= loss_count st.
Proof.
  apply (reachable_ledger_invariant trade_eqb trade_eqb_status).
  apply reach_update. exact sample_ledger_reachable.
Defined.

Lemma close_trade_unknown_id_witness :
  close_trade true (get_product_id (Some listed_products)) (fun _ => true)
    (py_str 99) sample_ledger = (TradeNotFound, []).
Proof.
  apply close_trade_unknown_id.
  intros t Ht. vm_compute in Ht. in_list Ht; discriminate.
Defined.

Lemma close_trade_first_match_witness :
  close_trade true (get_product_id (Some listed_products)) (fun _ => true)
    (py_str 8) sample_ledger =
    (TradeClosed (py_str 8),
     [ {| o_product_id := Some 139; o_side := "sell";
          o_size := 0.05%float; o_type := "market_order" |} ]).
Proof.
  apply (close_trade_first_match (get_product_id (Some listed_products))
           (fun _ => true) 8 sample_ledger
           [sample_trade 7 "BTCUSD" "t0"] [] (sample_trade 8 "ETHUSD" "t1")).
  - reflexivity.
  - intros b Hb. in_list Hb. discriminate.
  - reflexivity.
  - reflexivity.
Defined.

Lemma close_trade_refused_witness :
  close_trade false (get_product_id (Some listed_products)) (fun _ => false)
    (py_str 8) sample_ledger = (ServerError, []) /\
  ((forall k : nat, (fun _ : nat => false) k = false) ->
   close_trade true (get_product_id (Some listed_products)) (fun _ => false)
     (py_str 8) sample_ledger =
     (TradeNotFound,
      closing_order (get_product_id (Some listed_products)) <$>
        filter (fun t => t_id t = 8) (open_list sample_ledger)) /\
   closing_order (get_product_id (Some listed_products))
     (sample_trade 8 "ETHUSD" "t1") ∈
     (closing_order (get_product_id (Some listed_products)) <$>
        filter (fun t => t_id t = 8) (open_list sample_ledger))).
Proof.
  apply (close_trade_refused (get_product_id (Some listed_products))
           (fun _ => false) 8 sample_ledger
           [sample_trade 7 "BTCUSD" "t0"] [] (sample_trade 8 "ETHUSD" "t1")).
  - reflexivity.
  - intros b Hb. in_list Hb. discriminate.
  - reflexivity.
Defined.

Lemma neutral_model_needs_all_detectors_witness :
  exists sg obs chs engs,
    generate_signal all_three "BTCUSD" = Ok (Some sg) /\
    sig_confidence sg = 1.0%float /\
    detect_order_blocks all_three 50 = Ok obs /\ obs <> [] /\
    detect_choch all_three = Ok chs /\ chs <> [] /\
    detect_engulfing all_three = Ok engs /\ engs <> [] /\
    (52 <= length all_three)%nat.
Proof.
  apply (neutral_model_needs_all_detectors RISK_PARAMS "BTCUSD"
           neutral_model_feed (initial_state "testnet" "t") all_three).
  - reflexivity.
  - reflexivity.
  - vm_compute. discriminate.
Defined.

Lemma short_history_never_trades_witness :
  process_symbol RISK_PARAMS "ETHUSD" short_feed (initial_state "testnet" "t")
    = (initial_state "testnet" "t", []).
Proof.
  apply (short_history_never_trades RISK_PARAMS "ETHUSD" short_feed
           (initial_state "testnet" "t") engulf_then_break).
  - reflexivity.
  - simpl. lia.
Defined.

Lemma idle_cycles_change_nothing_witness :
  trading_cycles trade_eqb keyed RISK_PARAMS
    [failing_wallet_cycle; failing_wallet_cycle] full_ledger =
    (full_ledger, []).
Proof.
  apply idle_cycles_change_nothing. right. left. cbn. lia.
Defined.

Lemma open_trades_stay_bounded_witness :
  (length (open_trades
     (fst (trading_cycles trade_eqb keyed RISK_PARAMS
             [failing_wallet_cycle; failing_wallet_cycle]
             (set_running true (initial_state "testnet" "t")))))
   <= Nat.max
        (length (open_trades (set_running true (initial_state "testnet" "t"))))
        (Z.to_nat (max_open_trades RISK_PARAMS) - 1 + 2))%nat.
Proof.
  apply open_trades_stay_bounded.
  intros inp Hinp. in_list Hinp; cbn; lia.
Defined.

Lemma trading_cycles_reachable_witness :
  reachable trade_eqb
    (fst (trading_cycles trade_eqb keyed RISK_PARAMS
            [failing_wallet_cycle; failing_wallet_cycle]
            (set_running true (initial_state "testnet" "t")))) /\
  ledger_ok
    (fst (trading_cycles trade_eqb keyed RISK_PARAMS
            [failing_wallet_cycle; failing_wallet_cycle]
            (set_running true (initial_state "testnet" "t")))).
Proof.
  apply (trading_cycles_reachable trade_eqb trade_eqb_status).
  apply reach_running. apply reach_initial.
Defined.

Lemma failed_wallet_resets_balance_witness :
  let st := set_running true (set_account_balance 2500 sample_ledger) in
  (c_wallet failing_wallet_cycle = None \/
   (exists status result,
      c_wallet failing_wallet_cycle = Some (status, result) /\
      (status <> 200%nat \/ result = None \/ result = Some [])) ->
   account_balance
     (fst (trading_cycle trade_eqb keyed RISK_PARAMS failing_wallet_cycle st))
     = 10000%float /\
   trading_cycle trade_eqb keyed RISK_PARAMS failing_wallet_cycle st =
     (update_open_trades trade_eqb (c_positions failing_wallet_cycle)
        (c_clock failing_wallet_cycle)
        (fst (process_symbols RISK_PARAMS (c_feeds failing_wallet_cycle)
                (set_account_balance 10000 st))),
      snd (process_symbols RISK_PARAMS (c_feeds failing_wallet_cycle)
             (set_account_balance 10000 st))))
  /\
  (forall e es,
     c_wallet failing_wallet_cycle = Some (200%nat, Some (e :: es)) ->
     balance e = None ->
     trading_cycle trade_eqb keyed RISK_PARAMS failing_wallet_cycle st
       = (st, [])).
Proof.
  apply failed_wallet_resets_balance.
  - reflexivity.
  - cbn. lia.
  - reflexivity.
Defined.

End MoreWitnesses.

(** ** Levels and fates *)

Section LevelsAndFates.
Import Examples Samples Facts.

Variable dict_eq : trade -> trade -> bool.

Hypothesis dict_eq_status :
  forall a b, dict_eq a b = true -> t_status a = t_status b.

(** X25. Under the default risk parameters every plan made for an emitted
    signal has the same price levels, whatever the candles and the balance:
    entry 10000, and stop 9800 with target 10400 for a BUY, stop 10200 with
    target 9600 for a SELL. Only the risk amount and the size follow the
    balance: 1% of it, and the smaller of risk/200 and 5% of it over
    10000. *)
Theorem default_plan_levels (df : frame) (symbol : string) (sg : signal)
    (balance : float) :
  generate_signal df symbol = Ok (Some sg) ->
  exists p,
    calculate_position RISK_PARAMS (Some sg) balance = Ok (Some p) /\
    entry_price p = 10000%float /\
    (side p = BUY /\ stop_loss p = 9800%float /\ take_profit p = 10400%float
     \/
     side p = SELL /\ stop_loss p = 10200%float /\ take_profit p = 9600%float)
    /\
    risk_amount p = (balance * 0.01)%float /\
    position_size p =
      min (balance * 0.01 / 200)%float (balance * 0.05 / 10000)%float.
Proof.
  intros Hgen. rewrite generate_signal_rows in Hgen. injection Hgen as Hgen.
  destruct (emit_cases _ _ _ _ _ _ Hgen) as (_ & Hdir & _).
  destruct (emit_Some _ _ _ _ _ _ Hgen) as [Hnone Hconf].
  unfold calculate_position. rewrite Hconf, Hnone.
  destruct (sig_direction sg); [congruence| |]; cbn;
    eexists; (split; [reflexivity|]); cbn;
    (split; [reflexivity|]); (split; [|split; reflexivity]);
    [left|right]; repeat split; reflexivity.
Qed.

(** X26. Reconciliation matches positions by symbol alone, so it cannot
    tell two open trades on one symbol apart: after a pass over a ledger
    that keeps its invariant, when a position carries their symbol both
    trades hold that position's realized pnl, and both are closed or both
    are still open. Two trades on a symbol whose position is flat are thus
    both closed, each credited the same pnl. *)
Theorem same_symbol_same_fate (ps : list exchange_position)
    (clock : nat -> string) (st : bot_state) (r1 r2 : ref) (t1 t2 : trade)
    (pos : exchange_position) :
  ledger_ok st ->
  r1 ∈ open_trades st -> r2 ∈ open_trades st ->
  objects st !! r1 = Some t1 -> objects st !! r2 = Some t2 ->
  t_symbol t1 = t_symbol t2 ->
  matching_position ps (t_symbol t1) = Some pos ->
  let st' := update_open_trades dict_eq (Some ps) clock st in
  exists t1' t2',
    objects st' !! r1 = Some t1' /\ objects st' !! r2 = Some t2' /\
    t_pnl t1' = default 0%float (realized_pnl pos) /\
    t_pnl t2' = default 0%float (realized_pnl pos) /\
    t_status t1' = t_status t2' /\
    (r1 ∈ closed_trades st' <-> r2 ∈ closed_trades st') /\
    (PrimFloat.eqb (default 0%float (pos_size pos)) 0 = true ->
     r1 ∈ closed_trades st' /\ r2 ∈ closed_trades st' /\
     t_status t1' = CLOSED).
Proof.
  intros Hok Hr1 Hr2 Ht1 Ht2 Hsym Hpos. cbn zeta.
  assert (Hnd : NoDup (open_trades st) /\
                (forall x, x ∈ open_trades st -> x ∉ closed_trades st)).
  { destruct Hok as [Hnd _ _ _]. apply NoDup_app in Hnd. tauto. }
  destruct Hnd as [Hnd Hsep].
  pose proof (update_each_spec dict_eq dict_eq_status ps clock (objects st)
                (open_trades st) 0 st Hok Hnd
                (fun r Hr => conj Hr eq_refl)) as Hpass.
  cbv zeta in Hpass.
  change (update_each dict_eq ps clock 0 (open_trades st) st)
    with (update_open_trades dict_eq (Some ps) clock st) in Hpass.
  set (st' := update_open_trades dict_eq (Some ps) clock st) in *.
  destruct Hpass as (_ & _ & Hclosed & Hobjs & _).
  apply list_elem_of_lookup_1 in Hr1 as Hk1. destruct Hk1 as [k1 Hk1].
  apply list_elem_of_lookup_1 in Hr2 as Hk2. destruct Hk2 as [k2 Hk2].
  exists (Spec.reconciled ps (clock (0 + k1)%nat) t1),
    (Spec.reconciled ps (clock (0 + k2)%nat) t2).
  split; [apply (Hobjs k1 r1 t1 Hk1 Ht1)|].
  split; [apply (Hobjs k2 r2 t2 Hk2 Ht2)|].
  rewrite !reconciled_pnl, !reconciled_status.
  unfold Spec.reported_pnl, Spec.closes. rewrite <- Hsym, Hpos.
  split; [reflexivity|]. split; [reflexivity|].
  assert (Hin : forall r t, r ∈ open_trades st -> objects st !! r = Some t ->
            t_symbol t = t_symbol t1 ->
            (r ∈ closed_trades st' <->
             PrimFloat.eqb (default 0%float (pos_size pos)) 0 = true)).
  { intros r t Hr Ht Hs. rewrite Hclosed, elem_of_app, list_elem_of_filter.
    rewrite (closes_ref_lookup ps (objects st) r t Ht).
    unfold Spec.closes. rewrite Hs, Hpos. split.
    - intros [Hin|[E _]]; [elim (Hsep r Hr Hin)|exact E].
    - intros E. right. split; [exact E|exact Hr]. }
  pose proof (Hin r1 t1 Hr1 Ht1 eq_refl) as H1.
  pose proof (Hin r2 t2 Hr2 Ht2 (eq_sym Hsym)) as H2.
  destruct (PrimFloat.eqb (default 0%float (pos_size pos)) 0).
  - split; [reflexivity|]. split; [tauto|]. intros _.
    split; [tauto|]. split; [tauto|reflexivity].
  - destruct Hok as [_ Hopen _ _].
    destruct (Hopen r1 Hr1) as (a & Ha & Hsa).
    destruct (Hopen r2 Hr2) as (b & Hb & Hsb).
    split; [congruence|]. split; [tauto|]. discriminate.
Qed.

End LevelsAndFates.

Section LevelsAndFatesWitnesses.
Import Examples Samples Facts.

Lemma default_plan_levels_witness :
  exists sg,
    generate_signal all_three "BTCUSD" = Ok (Some sg) /\
    exists p,
      calculate_position RISK_PARAMS (Some sg) 2500 = Ok (Some p) /\
      entry_price p = 10000%float /\
      (side p = BUY /\ stop_loss p = 9800%float /\
       take_profit p = 10400%float
       \/
       side p = SELL /\ stop_loss p = 10200%float /\
       take_profit p = 9600%float)
      /\
      risk_amount p = (2500 * 0.01)%float /\
      position_size p =
        min (2500 * 0.01 / 200)%float (2500 * 0.05 / 10000)%float.
Proof.
  eexists. split; [vm_compute; reflexivity|].
  apply (default_plan_levels all_three "BTCUSD" _ 2500).
  vm_compute. reflexivity.
Defined.

Lemma same_symbol_same_fate_witness :
  let st := append_open_trade (sample_trade 9 "BTCUSD" "t2") sample_ledger in
  let st' := update_open_trades trade_eqb (Some sample_positions)
               sample_clock st in
  exists t1' t2',
    objects st' !! 0%nat = Some t1' /\ objects st' !! 2%nat = Some t2' /\
    t_pnl t1' = 12.5%float /\ t_pnl t2' = 12.5%float /\
    t_status t1' = t_status t2' /\
    (0%nat ∈ closed_trades st' <-> 2%nat ∈ closed_trades st') /\
    (PrimFloat.eqb 0 0 = true ->
     0%nat ∈ closed_trades st' /\ 2%nat ∈ closed_trades st' /\
     t_status t1' = CLOSED).
Proof.
  apply (same_symbol_same_fate trade_eqb trade_eqb_status sample_positions
           sample_clock
           (append_open_trade (sample_trade 9 "BTCUSD" "t2") sample_ledger)
           0%nat 2%nat (sample_trade 7 "BTCUSD" "t0")
           (sample_trade 9 "BTCUSD" "t2")
           (ExchangePosition "BTCUSD" (Some 12.5%float) (Some 0%float))).
  - apply append_open_trade_ok; [reflexivity|exact sample_ledger_ok].
  - cbn. apply elem_of_cons. left. reflexivity.
  - cbn. apply elem_of_cons. right. apply elem_of_cons. right.
    apply elem_of_cons. left. reflexivity.
  - reflexivity.
  - reflexivity.
  - reflexivity.
  - reflexivity.
Defined.

End LevelsAndFatesWitnesses.

(** ** The order of floats is total on numbers *)

Section FloatTotalOrder.
Import Facts.


Lemma lex_Lt (e1 e2 : Z) (m1 m2 : positive) :
  lex e1 e2 m1 m2 = Lt <-> e1 < e2 \/ e1 = e2 /\ (m1 < m2)%positive.
Proof.
  unfold lex. change (Pos.compare_cont Eq m1 m2) with (m1 ?= m2)%positive.
  destruct (Z.compare_spec e1 e2); rewrite ?Pos.compare_lt_iff;
    split; try discriminate; try lia; auto.
Qed.

Lemma lex_Gt (e1 e2 : Z) (m1 m2 : positive) :
  lex e1 e2 m1 m2 = Gt <-> e2 < e1 \/ e1 = e2 /\ (m2 < m1)%positive.
Proof.
  unfold lex. change (Pos.compare_cont Eq m1 m2) with (m1 ?= m2)%positive.
  destruct (Z.compare_spec e1 e2); rewrite ?Pos.compare_gt_iff;
    split; try discriminate; try lia; auto.
Qed.

Lemma lex_Eq (e1 e2 : Z) (m1 m2 : positive) :
  lex e1 e2 m1 m2 = Eq <-> e1 = e2 /\ m1 = m2.
Proof.
  unfold lex. change (Pos.compare_cont Eq m1 m2) with (m1 ?= m2)%positive.
  destruct (Z.compare_spec e1 e2); rewrite ?Pos.compare_eq_iff;
    split; try discriminate; try lia; intuition congruence.
Qed.

Lemma SFcompare_finite (s1 s2 : bool) (m1 m2 : positive) (e1 e2 : Z) :
  SFcompare (S754_finite s1 m1 e1) (S754_finite s2 m2 e2) =
  Some match s1, s2 with
       | true, false => Lt
       | false, true => Gt
       | false, false => lex e1 e2 m1 m2
       | true, true => CompOpp (lex e1 e2 m1 m2)
       end.
Proof.
  unfold lex. simpl. destruct s1, s2; try reflexivity.
  destruct (e1 ?= e2); reflexivity.
Qed.

Lemma CompOpp_Lt (c : comparison) : CompOpp c = Lt <-> c = Gt.
Proof. destruct c; simpl; split; congruence. Qed.

Lemma CompOpp_Eq (c : comparison) : CompOpp c = Eq <-> c = Eq.
Proof. destruct c; simpl; split; congruence. Qed.

Lemma SFcompare_Lt_trans (a b c : spec_float) :
  SFcompare a b = Some Lt -> SFcompare b c = Some Lt -> SFcompare a c = Some Lt.
Proof.
  destruct a as [sa|sa| |sa ma ea], b as [sb|sb| |sb mb eb],
    c as [sc|sc| |sc mc ec];
    rewrite ?SFcompare_finite; simpl; try discriminate;
    try (destruct sa; simpl; try discriminate);
    try (destruct sb; simpl; try discriminate);
    try (destruct sc; simpl; try discriminate);
    try reflexivity;
    intros [= H1] [= H2]; f_equal;
    rewrite ?CompOpp_Lt, ?lex_Lt, ?lex_Gt in *; lia.
Qed.

Lemma SFcompare_Eq_left (a b c : spec_float) :
  SFcompare a b = Some Eq -> SFcompare a c = SFcompare b c.
Proof.
  destruct a as [sa|sa| |sa ma ea], b as [sb|sb| |sb mb eb];
    rewrite ?SFcompare_finite; simpl; try discriminate;
    try (destruct sa; simpl; try discriminate);
    try (destruct sb; simpl; try discriminate);
    try (destruct c as [[]|[]| |[] ? ?]; reflexivity);
    intros [= H]; rewrite ?CompOpp_Eq, lex_Eq in H; destruct H; subst;
    reflexivity.
Qed.

Lemma SFcompare_refl (a : spec_float) :
  a <> S754_nan -> SFcompare a a = Some Eq.
Proof.
  destruct a as [s|s| |s m e]; try (destruct s; reflexivity);
    [congruence|].
  intros _. rewrite SFcompare_finite.
  assert (lex e e m m = Eq) as -> by (apply lex_Eq; auto).
  destruct s; reflexivity.
Qed.

Lemma SFcompare_Some (a b : spec_float) (c : comparison) :
  SFcompare a b = Some c -> a <> S754_nan /\ b <> S754_nan.
Proof.
  destruct a, b; simpl; try discriminate; intros _; split; discriminate.
Qed.

Lemma SFcompare_total (a b : spec_float) :
  a <> S754_nan -> b <> S754_nan -> exists c, SFcompare a b = Some c.
Proof.
  destruct a, b; simpl; try congruence; eauto.
Qed.

(** A float is a number when it is not NaN. *)
Lemma is_nan_Prim2SF (x : float) :
  PrimFloat.is_nan x = false <-> Prim2SF x <> S754_nan.
Proof.
  unfold PrimFloat.is_nan. rewrite FloatAxioms.eqb_spec. unfold SFeqb.
  split.
  - intros H E. rewrite E in H. discriminate.
  - intros H. rewrite (SFcompare_refl _ H). reflexivity.
Qed.

Lemma ltb_numbers (x y : float) :
  PrimFloat.ltb x y = true ->
  PrimFloat.is_nan x = false /\ PrimFloat.is_nan y = false.
Proof.
  rewrite ltb_spec. unfold SFltb.
  destruct (SFcompare (Prim2SF x) (Prim2SF y)) as [c|] eqn:E; [|discriminate].
  intros _. apply SFcompare_Some in E. rewrite !is_nan_Prim2SF. exact E.
Qed.

Lemma ltb_Lt (x y : float) :
  PrimFloat.ltb x y = true <-> SFcompare (Prim2SF x) (Prim2SF y) = Some Lt.
Proof.
  rewrite ltb_spec. unfold SFltb.
  destruct (SFcompare _ _) as [[]|]; split; congruence.
Qed.

(** [x < y] and [y < z] give [x < z]. *)
Lemma ltb_trans (x y z : float) :
  PrimFloat.ltb x y = true -> PrimFloat.ltb y z = true ->
  PrimFloat.ltb x z = true.
Proof. rewrite !ltb_Lt. apply SFcompare_Lt_trans. Qed.

(** [x < y] and [y <= z], said as: [z] is a number not below [y]. *)
Lemma ltb_leb_trans (x y z : float) :
  PrimFloat.ltb x y = true -> PrimFloat.ltb z y = false ->
  PrimFloat.is_nan z = false -> PrimFloat.ltb x z = true.
Proof.
  intros Hxy Hzy Hz. pose proof (ltb_numbers _ _ Hxy) as [Hx Hy].
  apply is_nan_Prim2SF in Hz, Hy.
  destruct (SFcompare_total _ _ Hz Hy) as [c Hc].
  destruct c.
  - apply ltb_Lt. apply ltb_Lt in Hxy.
    pose proof (SFcompare_Eq_left _ _ (Prim2SF x) Hc) as E.
    apply SFcompare_antisym in Hxy.
    rewrite <- E in Hxy. apply SFcompare_antisym in Hxy. exact Hxy.
  - apply ltb_Lt in Hc. congruence.
  - apply SFcompare_antisym in Hc. simpl in Hc. apply ltb_Lt in Hc.
    exact (ltb_trans _ _ _ Hxy Hc).
Qed.

(** [x <= y] and [y < z], said as: [x] is a number not above [y]. *)
Lemma leb_ltb_trans (x y z : float) :
  PrimFloat.ltb y z = true -> PrimFloat.ltb y x = false ->
  PrimFloat.is_nan x = false -> PrimFloat.ltb x z = true.
Proof.
  intros Hyz Hyx Hx. pose proof (ltb_numbers _ _ Hyz) as [Hy Hz].
  apply is_nan_Prim2SF in Hx, Hy.
  destruct (SFcompare_total _ _ Hx Hy) as [c Hc].
  destruct c.
  - apply ltb_Lt. apply ltb_Lt in Hyz.
    rewrite (SFcompare_Eq_left _ _ (Prim2SF z) Hc). exact Hyz.
  - apply ltb_Lt in Hc. exact (ltb_trans _ _ _ Hc Hyz).
  - apply SFcompare_antisym in Hc. simpl in Hc. apply ltb_Lt in Hc.
    congruence.
Qed.

End FloatTotalOrder.

(** ** The rolling window of the CHoCH detector *)

Section RollingWindow.
Import Samples.

(** The rolling extremes. *)

Lemma fold_max_upper (l : list float) (acc : float) :
  let r := fold_left (fun acc x =>
    if PrimFloat.is_nan acc then x
    else if PrimFloat.ltb acc x then x else acc) l acc in
  (PrimFloat.is_nan acc = false ->
     PrimFloat.is_nan r = false /\ PrimFloat.ltb r acc = false) /\
  (forall x, x ∈ l -> PrimFloat.is_nan x = false ->
     PrimFloat.is_nan r = false /\ PrimFloat.ltb r x = false).
Proof.
  revert acc. induction l as [|y l IH]; intros acc; simpl.
  - split.
    + intros Hacc. split; [exact Hacc|apply ltb_irrefl].
    + intros x Hx. apply elem_of_nil in Hx. contradiction.
  - destruct (PrimFloat.is_nan acc) eqn:Hnan.
    + destruct (IH y) as [IH1 IH2]. split; [discriminate|].
      intros x Hx Hnum. apply elem_of_cons in Hx as [->|Hx]; auto.
    + destruct (PrimFloat.ltb acc y) eqn:Hlt.
      * destruct (IH y) as [IH1 IH2].
        pose proof (ltb_numbers _ _ Hlt) as [_ Hy].
        destruct (IH1 Hy) as [Hr Hry]. split.
        -- intros _. split; [exact Hr|].
           destruct (PrimFloat.ltb (fold_left _ l y) acc) eqn:E; [|reflexivity].
           rewrite (ltb_trans _ _ _ E Hlt) in Hry. discriminate.
        -- intros x Hx Hnum. apply elem_of_cons in Hx as [->|Hx]; auto.
      * destruct (IH acc) as [IH1 IH2].
        destruct (IH1 Hnan) as [Hr Hracc]. split; [auto|].
        intros x Hx Hnum. apply elem_of_cons in Hx as [->|Hx]; auto.
        split; [exact Hr|].
        destruct (PrimFloat.ltb (fold_left _ l acc) y) eqn:E; [|reflexivity].
        rewrite (ltb_leb_trans _ _ _ E Hlt Hnan) in Hracc. discriminate.
Qed.

Lemma fold_min_lower (l : list float) (acc : float) :
  let r := fold_left (fun acc x =>
    if PrimFloat.is_nan acc then x
    else if PrimFloat.ltb x acc then x else acc) l acc in
  (PrimFloat.is_nan acc = false ->
     PrimFloat.is_nan r = false /\ PrimFloat.ltb acc r = false) /\
  (forall x, x ∈ l -> PrimFloat.is_nan x = false ->
     PrimFloat.is_nan r = false /\ PrimFloat.ltb x r = false).
Proof.
  revert acc. induction l as [|y l IH]; intros acc; simpl.
  - split.
    + intros Hacc. split; [exact Hacc|apply ltb_irrefl].
    + intros x Hx. apply elem_of_nil in Hx. contradiction.
  - destruct (PrimFloat.is_nan acc) eqn:Hnan.
    + destruct (IH y) as [IH1 IH2]. split; [discriminate|].
      intros x Hx Hnum. apply elem_of_cons in Hx as [->|Hx]; auto.
    + destruct (PrimFloat.ltb y acc) eqn:Hlt.
      * destruct (IH y) as [IH1 IH2].
        pose proof (ltb_numbers _ _ Hlt) as [Hy _].
        destruct (IH1 Hy) as [Hr Hry]. split.
        -- intros _. split; [exact Hr|].
           destruct (PrimFloat.ltb acc (fold_left _ l y)) eqn:E; [|reflexivity].
           rewrite (ltb_trans _ _ _ Hlt E) in Hry. discriminate.
        -- intros x Hx Hnum. apply elem_of_cons in Hx as [->|Hx]; auto.
      * destruct (IH acc) as [IH1 IH2].
        destruct (IH1 Hnan) as [Hr Hracc]. split; [auto|].
        intros x Hx Hnum. apply elem_of_cons in Hx as [->|Hx]; auto.
        split; [exact Hr|].
        destruct (PrimFloat.ltb y (fold_left _ l acc)) eqn:E; [|reflexivity].
        rewrite (leb_ltb_trans _ _ _ E Hlt Hnan) in Hracc. discriminate.
Qed.

(** Above the maximum is above every number of the series. *)
Lemma above_series_max (l : list float) (h x : float) :
  gt h (series_max l) = true -> x ∈ l -> PrimFloat.is_nan x = false ->
  lt x h = true.
Proof.
  unfold gt, lt, series_max. intros Hh Hx Hnum.
  destruct (fold_max_upper l PrimFloat.nan) as [_ H].
  destruct (H x Hx Hnum) as [_ Hle].
  exact (leb_ltb_trans _ _ _ Hh Hle Hnum).
Qed.

Lemma below_series_min (l : list float) (h x : float) :
  lt h (series_min l) = true -> x ∈ l -> PrimFloat.is_nan x = false ->
  lt h x = true.
Proof.
  unfold lt, series_min. intros Hh Hx Hnum.
  destruct (fold_min_lower l PrimFloat.nan) as [_ H].
  destruct (H x Hx Hnum) as [_ Hle].
  exact (ltb_leb_trans _ _ _ Hh Hle Hnum).
Qed.

(** The extreme of a series that is not empty is one of its entries. *)
Lemma fold_pick_in (f : float -> float -> float) (l : list float)
    (acc : float) :
  (forall a x, f a x = a \/ f a x = x) ->
  fold_left f l acc ∈ acc :: l.
Proof.
  intros Hf. revert acc. induction l as [|y l IH]; intros acc; simpl.
  - left.
  - specialize (IH (f acc y)). apply elem_of_cons in IH as [E|IH].
    + rewrite E. destruct (Hf acc y) as [-> | ->]; [left|right; left].
    + right. right. exact IH.
Qed.

Lemma series_max_in (l : list float) : l <> [] -> series_max l ∈ l.
Proof.
  destruct l as [|x l]; [congruence|]. intros _. unfold series_max. simpl.
  apply fold_pick_in. intros a y.
  destruct (PrimFloat.is_nan a), (PrimFloat.ltb a y); auto.
Qed.

Lemma series_min_in (l : list float) : l <> [] -> series_min l ∈ l.
Proof.
  destruct l as [|x l]; [congruence|]. intros _. unfold series_min. simpl.
  apply fold_pick_in. intros a y.
  destruct (PrimFloat.is_nan a), (PrimFloat.ltb y a); auto.
Qed.

(** The entries of [col[i-20:i]] are the column's values at the rows
    [max(0, i-20) <= j < i]. *)
Lemma elem_of_slice_col (col : candle -> float) (df : frame) (i : nat)
    (x : float) :
  x ∈ slice (i - 20) i (map col df) <->
  exists j p, (i - 20 <= j < i)%nat /\ df !! j = Some p /\ x = col p.
Proof.
  unfold slice. rewrite list_elem_of_lookup. split.
  - intros [k Hk]. apply lookup_take_Some in Hk as [Hk Hlt].
    rewrite lookup_drop, list_lookup_fmap in Hk.
    destruct (df !! (i - 20 + k)%nat) as [p|] eqn:Hp; [|discriminate].
    injection Hk as <-. exists (i - 20 + k)%nat, p. split; [lia|]. auto.
  - intros (j & p & Hj & Hp & ->). exists (j - (i - 20))%nat.
    apply lookup_take_Some. split; [|lia].
    rewrite lookup_drop, list_lookup_fmap.
    replace (i - 20 + (j - (i - 20)))%nat with j by lia.
    rewrite Hp. reflexivity.
Qed.

Lemma slice_col_not_nil (col : candle -> float) (df : frame) (i : nat) :
  (1 <= i < length df)%nat -> slice (i - 20) i (map col df) <> [].
Proof.
  intros Hi E.
  destruct (lookup_lt_is_Some_2 df (i - 1)%nat ltac:(lia)) as [p Hp].
  assert (col p ∈ slice (i - 20) i (map col df)) as H.
  { apply elem_of_slice_col. exists (i - 1)%nat, p. split; [lia|]. auto. }
  rewrite E in H. apply elem_of_nil in H. contradiction.
Qed.

(** X27. What a CHoCH event says about the rows before it. A bullish event
    at row [i] has a high strictly above the high of every one of the up to
    20 rows before it, NaN highs aside; a bearish event has a low strictly
    below each of their lows, NaN lows aside. Conversely a row from row 2 on
    whose high is above all the highs of its window is reported as
    bullish, and a row whose low is below all the lows of its window is
    reported, as bearish unless its high broke out as well. *)
Theorem choch_breaks_the_window (df : frame) (events : list choch_point) :
  detect_choch df = Ok events ->
  (forall e, e ∈ events ->
     exists i c, (2 <= i)%nat /\ df !! i = Some c /\ ch_time e = time c /\
       match ch_kind e with
       | BULLISH_CHOCH =>
           ch_price e = high c /\
           forall j p, (i - 20 <= j < i)%nat -> df !! j = Some p ->
             PrimFloat.is_nan (high p) = false ->
             lt (high p) (high c) = true
       | BEARISH_CHOCH =>
           ch_price e = low c /\
           forall j p, (i - 20 <= j < i)%nat -> df !! j = Some p ->
             PrimFloat.is_nan (low p) = false ->
             lt (low c) (low p) = true
       end) /\
  (forall i c, (2 <= i)%nat -> df !! i = Some c ->
     (forall j p, (i - 20 <= j < i)%nat -> df !! j = Some p ->
        lt (high p) (high c) = true) ->
     ChochPoint BULLISH_CHOCH (high c) (time c) ∈ events) /\
  (forall i c, (2 <= i)%nat -> df !! i = Some c ->
     (forall j p, (i - 20 <= j < i)%nat -> df !! j = Some p ->
        lt (low c) (low p) = true) ->
     ChochPoint BULLISH_CHOCH (high c) (time c) ∈ events \/
     ChochPoint BEARISH_CHOCH (low c) (time c) ∈ events).
Proof.
  rewrite detect_choch_spec. intros [= <-].
  assert (forall i c, (2 <= i)%nat -> df !! i = Some c ->
            forall e, e ∈ Rows.choch_at df i -> e ∈ Rows.choch_events df)
    as Hin.
  { intros i c Hi Hc e He. apply (elem_of_flat_map _ _ i); [|exact He].
    apply elem_of_seq. apply lookup_lt_Some in Hc. lia. }
  split; [|split].
  - intros e He. apply elem_of_flat_map_inv in He as (i & Hi & He).
    apply elem_of_seq in Hi. unfold Rows.choch_at in He.
    destruct (df !! i) as [c|] eqn:Hc; [|apply elem_of_nil in He; contradiction].
    exists i, c. split; [lia|]. split; [exact Hc|].
    destruct (gt (high c) _) eqn:Hup.
    + apply list_elem_of_singleton in He. subst e. simpl.
      split; [reflexivity|]. split; [reflexivity|].
      intros j p Hj Hp Hnum. apply (above_series_max _ _ _ Hup); [|exact Hnum].
      apply elem_of_slice_col. eauto.
    + destruct (lt (low c) _) eqn:Hdown.
      * apply list_elem_of_singleton in He. subst e. simpl.
        split; [reflexivity|]. split; [reflexivity|].
        intros j p Hj Hp Hnum.
        apply (below_series_min _ _ _ Hdown); [|exact Hnum].
        apply elem_of_slice_col. eauto.
      * apply elem_of_nil in He. contradiction.
  - intros i c Hi Hc Hall. apply (Hin i c Hi Hc).
    unfold Rows.choch_at. rewrite Hc.
    assert (gt (high c) (series_max (slice (i - 20) i (map high df))) = true)
      as ->; [|left].
    pose proof (series_max_in (slice (i - 20) i (map high df))) as Hm.
    apply lookup_lt_Some in Hc.
    specialize (Hm (slice_col_not_nil high df i ltac:(lia))).
    apply elem_of_slice_col in Hm as (j & p & Hj & Hp & ->).
    exact (Hall j p Hj Hp).
  - intros i c Hi Hc Hall.
    assert (lt (low c) (series_min (slice (i - 20) i (map low df))) = true)
      as Hdown.
    { pose proof (series_min_in (slice (i - 20) i (map low df))) as Hm.
      apply lookup_lt_Some in Hc.
      specialize (Hm (slice_col_not_nil low df i ltac:(lia))).
      apply elem_of_slice_col in Hm as (j & p & Hj & Hp & ->).
      exact (Hall j p Hj Hp). }
    destruct (gt (high c) (series_max (slice (i - 20) i (map high df))))
      eqn:Hup.
    + left. apply (Hin i c Hi Hc). unfold Rows.choch_at.
      rewrite Hc, Hup. left.
    + right. apply (Hin i c Hi Hc). unfold Rows.choch_at.
      rewrite Hc, Hup, Hdown. left.
Qed.

Lemma choch_breaks_the_window_witness :
  detect_choch engulf_then_break = Ok [ChochPoint BULLISH_CHOCH 110 2] /\
  forall e, e ∈ [ChochPoint BULLISH_CHOCH 110 2] ->
    exists i c, (2 <= i)%nat /\ engulf_then_break !! i = Some c /\
      ch_time e = time c /\
      match ch_kind e with
      | BULLISH_CHOCH =>
          ch_price e = high c /\
          forall j p, (i - 20 <= j < i)%nat ->
            engulf_then_break !! j = Some p ->
            PrimFloat.is_nan (high p) = false ->
            lt (high p) (high c) = true
      | BEARISH_CHOCH =>
          ch_price e = low c /\
          forall j p, (i - 20 <= j < i)%nat ->
            engulf_then_break !! j = Some p ->
            PrimFloat.is_nan (low p) = false ->
            lt (low c) (low p) = true
      end.
Proof.
  split; [vm_compute; reflexivity|].
  apply (choch_breaks_the_window engulf_then_break).
  vm_compute. reflexivity.
Defined.

End RollingWindow.
